(** * ColorTemperatureAnalyzer: a shallow embedding and its verified properties

    The development follows [color_temp_analyzer.py].  Python's [float] and
    numpy's [float64] are IEEE 754 binary64 numbers: they are modelled by
    Rocq's primitive [float], whose operations are the same binary64
    operations (round to nearest, ties to even), specified by
    [FloatAxioms] over [SpecFloat].  The analyzer object is a record that the
    methods thread explicitly; the file system and PIL are a [world] the
    methods read. *)

From Stdlib Require Import ZArith Lia Bool List String Ascii Strings.Byte.
From Stdlib Require Import Uint63 Floats.
Import ListNotations.

Set Warnings "-inexact-float".

Open Scope string_scope.
Open Scope float_scope.

(* ================================================================== *)
(** * Python and numpy arithmetic *)
(* ================================================================== *)

(** The ways a modelled operation of CPython leaves the floats: the
    exceptions it can raise, and the complex number that a negative base to
    a fractional power gives (no caller in this program can reach it: the
    exponents are 2 and 3, or the base is positive). *)
Inductive py_exn : Type :=
| ZeroDivisionError
| OverflowError
| ComplexResult
| TypeError.       (* subscripting [None] *)

Inductive result (A : Type) : Type :=
| Ok (a : A)
| Raise (e : py_exn).
Arguments Ok {A} a.
Arguments Raise {A} e.

Definition bind {A B : Type} (r : result A) (f : A -> result B) : result B :=
  match r with
  | Ok a => f a
  | Raise e => Raise e
  end.

Declare Scope py_scope.
Delimit Scope py_scope with py.
Notation "x <- r ;; k" := (bind r (fun x => k))
  (at level 61, r at next level, right associativity) : py_scope.
Open Scope py_scope.

(** The run-time class of a scalar.  The methods are duck typed: called with
    builtin floats their arithmetic is CPython's (division by zero and an
    overflowing power raise); called with [numpy.float64] scalars, as the
    analysis pipeline does (the averages come out of numpy arrays), it is
    numpy's, which follows IEEE 754 and only warns. *)
Inductive scalar_kind : Type := PyFloat | NpFloat64.

(** [a / b] *)
Definition truediv (k : scalar_kind) (a b : float) : result float :=
  match k with
  | PyFloat => if b =? 0 then Raise ZeroDivisionError else Ok (a / b)
  | NpFloat64 => Ok (a / b)
  end.

(** Whether a float is an integer, and an odd one, read off its binary
    representation (CPython's [DOUBLE_IS_ODD_INTEGER] and [iw != floor(iw)]). *)
Definition is_integer (x : float) : bool :=
  match Prim2SF x with
  | S754_zero _ => true
  | S754_finite _ m e =>
      if (0 <=? e)%Z then true
      else Z.eqb (Z.land (Zpos m) (Z.ones (- e))) 0
  | _ => false
  end.

Definition is_odd_integer (x : float) : bool :=
  match Prim2SF x with
  | S754_finite _ m e =>
      if (0 <? e)%Z then false
      else is_integer x && Z.odd (Z.shiftr (Zpos m) (- e))
  | _ => false
  end.

Section Pow.

(** The C library's [pow], which both CPython and numpy call. *)
Variable cpow : float -> float -> float.

(** [a ** b] and [pow(a, b)] for a finite, strictly positive exponent [b]
    (the program only uses the literals 3, 2 and 2.4).  For builtin floats
    this is [float_pow] of CPython's floatobject.c: the special cases are
    sorted out before libm is called, and a finite base whose power is
    infinite raises.  numpy hands both operands to libm. *)
Definition power (k : scalar_kind) (a b : float) : result float :=
  match k with
  | NpFloat64 => Ok (cpow a b)
  | PyFloat =>
      if is_nan a then Ok a
      else if is_infinity a then Ok (if is_odd_integer b then a else abs a)
      else if a =? 0 then Ok (if is_odd_integer b then a else 0)
      else if (a <? 0) && negb (is_integer b) then Raise ComplexResult
      else
        let negate := (a <? 0) && is_odd_integer b in
        let v := abs a in
        if v =? 1 then Ok (if negate then -1 else 1)
        else
          let r := cpow v b in
          if is_infinity r then Raise OverflowError
          else Ok (if negate then - r else r)
  end.

End Pow.

(** numpy's elementwise minimum of two doubles, which [np.min] folds over an
    array (loops_minmax: a NaN first operand is returned as it is). *)
Definition np_minimum (a b : float) : float :=
  if is_nan a then a else if a <? b then a else b.

(** [np.clip(x, lo, hi)] with bounds that are not NaN (here they are 0.0 and
    1.0).  numpy's loop for constant bounds (clip.cpp) reads
    [if (x < lo) x = lo; if (x > hi) x = hi;]: a NaN passes both tests, and
    -0.0 is not below 0.0 and stays as it is. *)
Definition np_clip (x lo hi : float) : float :=
  let x := if x <? lo then lo else x in
  if hi <? x then hi else x.

(** [rint]: round to the nearest integer, ties to even, by the classic
    add-and-subtract of 2^52 on the magnitude, the sign of the argument put
    back on the result (so -0.0 and -0.3 give -0.0); what [round(x, 0)] is
    on a [numpy.float64]. *)
Definition two52 : float := 4503599627370496.

Definition rint (x : float) : float :=
  if is_nan x then x
  else if two52 <=? abs x then x
  else if get_sign x then - ((abs x + two52) - two52)
  else (x + two52) - two52.

(** How numpy treats a division that signals a floating-point error
    (division by zero, overflow, underflow, invalid operation) is set by
    [np.seterr] and by Python's warning filters.  By default it warns and
    returns the IEEE result; it can be made to raise [FloatingPointError] or
    the warning itself.  An error state says for which operands a division
    raises; an operation on an array raises when one of its elements does. *)
Definition np_errstate : Type := float -> float -> bool.

(** The state the program runs in: it sets nothing, so nothing raises. *)
Definition np_default : np_errstate := fun _ _ => false.

(** [np.seterr(divide='raise')]: a finite number other than zero divided by
    zero raises. *)
Definition np_raise_divide : np_errstate :=
  fun a b => (b =? 0) && negb (a =? 0) && (abs a <? infinity).

(** [a / b] under an error state; [None] when it raises. *)
Definition np_true_divide (st : np_errstate) (a b : float) : option float :=
  if st a b then None else Some (a / b).

(** A unsigned byte of an image as a double. *)
Definition float_of_byte (b : byte) : float :=
  of_uint63 (Uint63.of_Z (Z.of_N (Byte.to_N b))).

Definition float_of_nat (n : nat) : float :=
  of_uint63 (Uint63.of_Z (Z.of_nat n)).

(* ================================================================== *)
(** * Data *)
(* ================================================================== *)

(** Three channels: a numpy array of shape (3,) or a 3-tuple. *)
Definition triple : Type := (float * float * float)%type.

Definition map3 (f : float -> float) (t : triple) : triple :=
  let '(a, b, c) := t in (f a, f b, f c).

Definition zip3 (f : float -> float -> float) (t u : triple) : triple :=
  let '(a, b, c) := t in
  let '(a', b', c') := u in
  (f a a', f b b', f c c').

(** A decoded RGB image, [np.array(img)] reshaped to (-1, 3): its pixels in
    row-major order, three unsigned bytes each. *)
Definition pixel : Type := (byte * byte * byte)%type.
Definition image : Type := list pixel.

Definition pixel_to_float (p : pixel) : triple :=
  let '(r, g, b) := p in (float_of_byte r, float_of_byte g, float_of_byte b).

(** [np.mean(rows, axis=0)]: the rows are added up in double precision, one
    after the other, and the sums divided by the number of rows. *)
Definition sum_axis0 (rows : list triple) : triple :=
  fold_left (zip3 add) rows (0, 0, 0).

Definition mean_axis0 (rows : list triple) : triple :=
  map3 (fun s => s / float_of_nat (List.length rows)) (sum_axis0 rows).

(** [np.min] of an array of three. *)
Definition np_min (t : triple) : float :=
  let '(a, b, c) := t in np_minimum (np_minimum a b) c.

(* ================================================================== *)
(** * Colour-space conversion and colour temperature *)
(* ================================================================== *)

Section ColorTemperature.

Variable cpow : float -> float -> float.

(** The inner function of [rgb_to_xyz]: the sRGB inverse gamma law. *)
Definition gamma_correct (k : scalar_kind) (value : float) : result float :=
  if value <=? 0.04045 then
    truediv k value 12.92
  else
    t <- truediv k (value + 0.055) 1.055 ;;
    power cpow k t 2.4.

Definition rgb_to_xyz (k : scalar_kind) (rgb : triple) : result triple :=
  let '(r, g, b) := rgb in
  r <- gamma_correct k r ;;
  g <- gamma_correct k g ;;
  b <- gamma_correct k b ;;
  let x := r * 0.4124564 + g * 0.3575761 + b * 0.1804375 in
  let y := r * 0.2126729 + g * 0.7151522 + b * 0.0721750 in
  let z := r * 0.0193339 + g * 0.1191920 + b * 0.9503041 in
  Ok (x, y, z).

(** McCamy's polynomial in [n], with the two powers already taken. *)
Definition mccamy (n3 n2 n : float) : float :=
  449 * n3 + 3525 * n2 + 6823.3 * n + 5520.33.

Definition xyz_to_cct (k : scalar_kind) (xyz : triple) : result (option float) :=
  let '(x, y, z) := xyz in
  if x + y + z =? 0 then
    Ok None
  else
    x_chrom <- truediv k x (x + y + z) ;;
    y_chrom <- truediv k y (x + y + z) ;;
    n <- truediv k (x_chrom - 0.3320) (0.1858 - y_chrom) ;;
    n3 <- power cpow k n 3 ;;
    n2 <- power cpow k n 2 ;;
    Ok (Some (mccamy n3 n2 n)).

End ColorTemperature.

(* ================================================================== *)
(** * Classification of a temperature *)
(* ================================================================== *)

Definition get_physical_light_description (temp_kelvin : float) : string :=
  if temp_kelvin <? 2000 then
    "Sehr warm - Kerzenlicht, Petroleum-/Gaslampe"
  else if temp_kelvin <? 3000 then
    "Warm - Glühlampe, warmes LED-Licht"
  else if temp_kelvin <? 4000 then
    "Warmweiß - Halogenlampe, warmweißes LED"
  else if temp_kelvin <? 5000 then
    "Neutral - Leuchtstoffröhre, neutrales LED"
  else if temp_kelvin <? 6000 then
    "Kaltweiß - Tageslicht bewölkt, kaltweißes LED"
  else if temp_kelvin <? 7000 then
    "Tageslicht - direktes Sonnenlicht mittags"
  else if temp_kelvin <? 8000 then
    "Kalt - Schatten im Freien, Nordfenster"
  else
    "Sehr kalt - klarer blauer Himmel, Hochgebirge".

Definition get_camera_wb_setting_description (temp_kelvin : float) : string :=
  if temp_kelvin <? 2000 then
    "Kamera WB: ~8000-10000K+ (Maximum Warmton-Korrektur)"
  else if temp_kelvin <? 3000 then
    "Kamera WB: ~6000-8000K (Starke Warmton-Korrektur)"
  else if temp_kelvin <? 4000 then
    "Kamera WB: ~5000-6000K (Moderate Warmton-Korrektur)"
  else if temp_kelvin <? 5000 then
    "Kamera WB: ~4000-5000K (Leichte Warmton-Korrektur)"
  else if temp_kelvin <? 6000 then
    "Kamera WB: ~3500-4000K (Nahezu neutral)"
  else if temp_kelvin <? 7000 then
    "Kamera WB: ~3000-3500K (Leichte Kaltton-Korrektur)"
  else if temp_kelvin <? 8000 then
    "Kamera WB: ~2500-3000K (Moderate Kaltton-Korrektur)"
  else
    "Kamera WB: ~2000-2500K (Starke Kaltton-Korrektur)".

(** The result is a Python [int]. *)
Definition calculate_inverse_wb_setting (measured_temp : float) : Z :=
  if measured_temp <=? 2000 then 9000
  else if measured_temp <=? 3000 then 7000
  else if measured_temp <=? 4000 then 5500
  else if measured_temp <=? 5500 then 4000
  else if measured_temp <=? 7000 then 3200
  else if measured_temp <=? 8500 then 2800
  else 2300.

(* ================================================================== *)
(** * The file system and the image library *)
(* ================================================================== *)

Definition SUPPORTED_FORMATS : list string :=
  [".png"; ".jpg"; ".jpeg"; ".bmp"; ".tiff"; ".tif"; ".webp"].

(** [str.rfind] of a character: the last index, or -1. *)
Fixpoint rfind_from (c : ascii) (s : string) (i : Z) (last : Z) : Z :=
  match s with
  | EmptyString => last
  | String d s' => rfind_from c s' (i + 1) (if Ascii.eqb d c then i else last)
  end.

Definition rfind (c : ascii) (s : string) : Z := rfind_from c s 0 (-1).

(** The extension of [os.path.splitext] (posixpath): the part from the last
    dot of the last component, unless only dots precede it there. *)
Definition splitext_ext (p : string) : string :=
  let sepIndex := rfind "/" p in
  let dotIndex := rfind "." p in
  if (sepIndex <? dotIndex)%Z then
    let filenameIndex := Z.to_nat (sepIndex + 1) in
    let head := substring filenameIndex (Z.to_nat dotIndex - filenameIndex) p in
    if forallb (Ascii.eqb ".") (list_ascii_of_string head) then EmptyString
    else substring (Z.to_nat dotIndex) (String.length p) p
  else EmptyString.

(** [str.lower] on the ASCII letters (no other character lowers to one of
    the letters of a supported extension). *)
Definition lower_ascii (c : ascii) : ascii :=
  let n := nat_of_ascii c in
  if (65 <=? n)%nat && (n <=? 90)%nat then ascii_of_nat (n + 32) else c.

Definition lower (s : string) : string :=
  string_of_list_ascii (map lower_ascii (list_ascii_of_string s)).

Definition supported_format (file_extension : string) : bool :=
  existsb (String.eqb file_extension) SUPPORTED_FORMATS.

(** What the methods see of the outside: which paths exist, what
    [Image.open] followed by [convert('RGB')] and [np.array] gives ([None]
    when one of them raises), and whether [Image.save] to a path succeeds.
    [Image.open] reads only the header; the pixels are decoded by [convert]
    when the mode is not RGB, and otherwise as late as [np.array]:
    [fails_in_array] says, of a path that [image_open] gives [None] for,
    that the file opened in mode RGB and it was [np.array] that raised. *)
Record world : Type := {
  path_exists : string -> bool;
  image_open : string -> option image;
  fails_in_array : string -> bool;
  image_save : string -> image -> bool
}.

(* ================================================================== *)
(** * The analyzer object *)
(* ================================================================== *)

(** The attributes set by [__init__]; [None] is [None]. *)
Record analyzer : Type := {
  image_path : option string;
  image_array : option image;
  white_reference_path : option string;
  white_reference_rgb : option triple;
  white_balance_factors : option triple;
  avg_rgb : option triple;
  corrected_rgb : option triple;
  color_temperature : option float
}.

Definition init : analyzer :=
  {| image_path := None; image_array := None;
     white_reference_path := None; white_reference_rgb := None;
     white_balance_factors := None; avg_rgb := None;
     corrected_rgb := None; color_temperature := None |}.

(** The three white-reference attributes set at once. *)
Definition set_white_reference (path : string) (rgb factors : triple)
    (a : analyzer) : analyzer :=
  {| image_path := image_path a; image_array := image_array a;
     white_reference_path := Some path; white_reference_rgb := Some rgb;
     white_balance_factors := Some factors; avg_rgb := avg_rgb a;
     corrected_rgb := corrected_rgb a;
     color_temperature := color_temperature a |}.

Definition set_image (path : string) (arr : image) (a : analyzer) : analyzer :=
  {| image_path := Some path; image_array := Some arr;
     white_reference_path := white_reference_path a;
     white_reference_rgb := white_reference_rgb a;
     white_balance_factors := white_balance_factors a; avg_rgb := avg_rgb a;
     corrected_rgb := corrected_rgb a;
     color_temperature := color_temperature a |}.

Definition set_image_path (path : string) (a : analyzer) : analyzer :=
  {| image_path := Some path; image_array := image_array a;
     white_reference_path := white_reference_path a;
     white_reference_rgb := white_reference_rgb a;
     white_balance_factors := white_balance_factors a; avg_rgb := avg_rgb a;
     corrected_rgb := corrected_rgb a;
     color_temperature := color_temperature a |}.

Definition set_white_reference_rgb (rgb : triple) (a : analyzer) : analyzer :=
  {| image_path := image_path a; image_array := image_array a;
     white_reference_path := white_reference_path a;
     white_reference_rgb := Some rgb;
     white_balance_factors := white_balance_factors a; avg_rgb := avg_rgb a;
     corrected_rgb := corrected_rgb a;
     color_temperature := color_temperature a |}.

Definition set_white_balance_factors (factors : triple) (a : analyzer)
    : analyzer :=
  {| image_path := image_path a; image_array := image_array a;
     white_reference_path := white_reference_path a;
     white_reference_rgb := white_reference_rgb a;
     white_balance_factors := Some factors; avg_rgb := avg_rgb a;
     corrected_rgb := corrected_rgb a;
     color_temperature := color_temperature a |}.

Definition set_white_reference_path (path : string) (a : analyzer)
    : analyzer :=
  {| image_path := image_path a; image_array := image_array a;
     white_reference_path := Some path;
     white_reference_rgb := white_reference_rgb a;
     white_balance_factors := white_balance_factors a; avg_rgb := avg_rgb a;
     corrected_rgb := corrected_rgb a;
     color_temperature := color_temperature a |}.

Definition set_avg_rgb (v : triple) (a : analyzer) : analyzer :=
  {| image_path := image_path a; image_array := image_array a;
     white_reference_path := white_reference_path a;
     white_reference_rgb := white_reference_rgb a;
     white_balance_factors := white_balance_factors a; avg_rgb := Some v;
     corrected_rgb := corrected_rgb a;
     color_temperature := color_temperature a |}.

Definition set_corrected_rgb (v : triple) (a : analyzer) : analyzer :=
  {| image_path := image_path a; image_array := image_array a;
     white_reference_path := white_reference_path a;
     white_reference_rgb := white_reference_rgb a;
     white_balance_factors := white_balance_factors a; avg_rgb := avg_rgb a;
     corrected_rgb := Some v;
     color_temperature := color_temperature a |}.

Definition set_color_temperature (t : option float) (a : analyzer) : analyzer :=
  {| image_path := image_path a; image_array := image_array a;
     white_reference_path := white_reference_path a;
     white_reference_rgb := white_reference_rgb a;
     white_balance_factors := white_balance_factors a; avg_rgb := avg_rgb a;
     corrected_rgb := corrected_rgb a;
     color_temperature := t |}.

(** Lines 60 to 64 of [load_white_reference] as one function, numpy being
    in its default error state: the correction factors of a reference
    colour, [1.0 / rgb] divided by its smallest entry. *)
Definition calibrate (white_reference_rgb : triple) : triple :=
  let white_balance_factors := map3 (fun c => 1 / c) white_reference_rgb in
  let min_factor := np_min white_balance_factors in
  map3 (fun f => f / min_factor) white_balance_factors.

(** Line 56, numpy being in its default error state: the mean colour of the
    reference image, scaled to 0-1. *)
Definition average_reference (white_array : image) : triple :=
  map3 (fun m => m / 255) (mean_axis0 (map pixel_to_float white_array)).

(** An array of three divided by a scalar, and a scalar divided by an array
    of three, under an error state. *)
Definition divide3 (st : np_errstate) (t : triple) (d : float)
    : option triple :=
  let '(a, b, c) := t in
  match np_true_divide st a d, np_true_divide st b d, np_true_divide st c d with
  | Some x, Some y, Some z => Some (x, y, z)
  | _, _, _ => None
  end.

Definition rdivide3 (st : np_errstate) (n : float) (t : triple)
    : option triple :=
  let '(a, b, c) := t in
  match np_true_divide st n a, np_true_divide st n b, np_true_divide st n c with
  | Some x, Some y, Some z => Some (x, y, z)
  | _, _, _ => None
  end.

(** The right-hand side of line 56 under an error state: [np.mean] adds the
    rows up (sums of bytes signal nothing) and divides by their number, and
    the result is divided by 255. *)
Definition average_reference_under (st : np_errstate) (white_array : image)
    : option triple :=
  let rows := map pixel_to_float white_array in
  match divide3 st (sum_axis0 rows) (float_of_nat (List.length rows)) with
  | None => None
  | Some mean => divide3 st mean 255
  end.

(** [load_white_reference], statement by statement.  Whatever raises inside
    the [try] is caught and [False] returned, with the attributes assigned
    until then. *)
Definition load_white_reference_under (st : np_errstate) (w : world)
    (white_reference_path : string) (self : analyzer) : bool * analyzer :=
  if negb (path_exists w white_reference_path) then (false, self)
  else
    let file_extension := lower (splitext_ext white_reference_path) in
    if negb (supported_format file_extension) then (false, self)
    else
      match image_open w white_reference_path with
      | None => (false, self)                      (* except Exception *)
      | Some white_array =>
          match average_reference_under st white_array with
          | None => (false, self)                  (* except Exception *)
          | Some rgb =>
              let self := set_white_reference_rgb rgb self in   (* line 56 *)
              match rdivide3 st 1 rgb with
              | None => (false, self)              (* except Exception *)
              | Some factors =>
                  let self :=
                    set_white_balance_factors factors self in   (* line 60 *)
                  let min_factor := np_min factors in
                  match divide3 st factors min_factor with
                  | None => (false, self)          (* except Exception *)
                  | Some factors =>
                      let self :=
                        set_white_balance_factors factors self in (* 64 *)
                      let self :=
                        set_white_reference_path white_reference_path self in
                      (true, self)
                  end
              end
          end
      end.

(** The method as the program runs it, numpy warning and not raising. *)
Definition load_white_reference (w : world) (white_reference_path : string)
    (self : analyzer) : bool * analyzer :=
  load_white_reference_under np_default w white_reference_path self.

(** A [size] is a pair of Python ints; PIL refuses a negative one.  A file
    that was saved exists afterwards and decodes to the image that was saved
    (the image is of one colour; the formats are PNG and the like). *)
Definition create_white_reference_image (w : world) (output_path : string)
    (size : Z * Z) : bool * world :=
  let '(width, height) := size in
  if (width <? 0)%Z || (height <? 0)%Z then (false, w)
  else
    let white_image : image :=
      repeat (xff, xff, xff) (Z.to_nat (width * height)) in
    if image_save w output_path white_image then
      (true,
       {| path_exists := fun p => if String.eqb p output_path then true
                                  else path_exists w p;
          image_open := fun p => if String.eqb p output_path then Some white_image
                                 else image_open w p;
          fails_in_array := fails_in_array w;
          image_save := image_save w |})
    else (false, w).

(** [self.image_path] is assigned (line 128) before [np.array] runs (line
    129): when that raises, the new path is left beside the old array. *)
Definition load_image (w : world) (image_path : string) (self : analyzer)
    : bool * analyzer :=
  if negb (path_exists w image_path) then (false, self)
  else
    let file_extension := lower (splitext_ext image_path) in
    if negb (supported_format file_extension) then (false, self)
    else
      match image_open w image_path with
      | Some img => (true, set_image image_path img self)
      | None =>                                    (* except Exception *)
          if fails_in_array w image_path
          then (false, set_image_path image_path self)
          else (false, self)
      end.

Definition apply_white_balance (self : analyzer) (rgb_values : triple) : triple :=
  match white_balance_factors self with
  | None => rgb_values
  | Some factors =>
      let corrected := zip3 mul rgb_values factors in
      map3 (fun c => np_clip c 0 1) corrected
  end.

Definition is_some {A : Type} (o : option A) : bool :=
  match o with Some _ => true | None => false end.

Definition calculate_average_rgb (apply_wb : bool) (self : analyzer)
    : option triple * analyzer :=
  match image_array self with
  | None => (None, self)
  | Some arr =>
      let rgb_normalized :=
        map (fun p => map3 (fun c => c / 255) (pixel_to_float p)) arr in
      let avg := mean_axis0 rgb_normalized in
      let self := set_avg_rgb avg self in
      if apply_wb && is_some (white_balance_factors self) then
        let corrected := apply_white_balance self avg in
        (Some corrected, set_corrected_rgb corrected self)
      else
        (Some avg, set_corrected_rgb avg self)
  end.

(** The dictionary [get_analysis_results] builds. *)
Record white_balance_info : Type := {
  reference_path : option string;
  reference_rgb : triple;
  correction_factors : triple
}.

Record analysis : Type := {
  res_image_path : option string;
  original_rgb : triple;
  analyzed_rgb : triple;
  measured_kelvin : float;
  physical_light_source : string;
  estimated_camera_wb_setting : Z;
  camera_wb_description : string;
  white_balance : option white_balance_info
}.

Inductive results : Type :=
| ErrorDict (error : string)
| ResultsDict (r : analysis).

(** Subscripting an attribute that is still [None] raises. *)
Definition subscript (o : option triple) : result triple :=
  match o with
  | Some t => Ok t
  | None => Raise TypeError
  end.

Section Pipeline.

Variable cpow : float -> float -> float.

(** The averages are [numpy.float64] scalars, so the conversion and the
    temperature are computed with numpy's arithmetic. *)
Definition analyze_color_temperature (apply_wb : bool) (self : analyzer)
    : result (option float) * analyzer :=
  match image_array self with
  | None => (Ok None, self)
  | Some _ =>
      let '(avg, self) := calculate_average_rgb apply_wb self in
      match avg with
      | None => (Ok None, self)
      | Some avg_rgb =>
          match rgb_to_xyz cpow NpFloat64 avg_rgb with
          | Raise e => (Raise e, self)
          | Ok xyz =>
              match xyz_to_cct cpow NpFloat64 xyz with
              | Raise e => (Raise e, self)
              | Ok t => (Ok t, set_color_temperature t self)
              end
          end
      end
  end.

Definition get_analysis_results (include_white_balance_info : bool)
    (self : analyzer) : result results :=
  match color_temperature self with
  | None => Ok (ErrorDict "Keine Analyse durchgeführt")
  | Some t =>
      let estimated_wb_setting := calculate_inverse_wb_setting t in
      original <- subscript (avg_rgb self) ;;
      analyzed <- subscript (corrected_rgb self) ;;
      wb <- (if include_white_balance_info
                && is_some (white_balance_factors self) then
               ref <- subscript (white_reference_rgb self) ;;
               f <- subscript (white_balance_factors self) ;;
               Ok (Some {| reference_path := white_reference_path self;
                           reference_rgb := ref;
                           correction_factors := f |})
             else Ok None) ;;
      Ok (ResultsDict
            {| res_image_path := image_path self;
               original_rgb := original;
               analyzed_rgb := analyzed;
               measured_kelvin := rint t;
               physical_light_source := get_physical_light_description t;
               estimated_camera_wb_setting := estimated_wb_setting;
               camera_wb_description := get_camera_wb_setting_description t;
               white_balance := wb |})
  end.

Definition finish_analysis (r : result (option float)) (self : analyzer)
    : result (option results) * analyzer :=
  match r with
  | Raise e => (Raise e, self)
  | Ok None => (Ok None, self)
  | Ok (Some _) =>
      (d <- get_analysis_results true self ;; Ok (Some d), self)
  end.

Definition analyze_image_with_white_balance (w : world)
    (image_path white_reference_path : string) (self : analyzer)
    : result (option results) * analyzer :=
  let '(loaded, self) := load_white_reference w white_reference_path self in
  if negb loaded then (Ok None, self)
  else
    let '(loaded, self) := load_image w image_path self in
    if negb loaded then (Ok None, self)
    else
      let '(temp, self) := analyze_color_temperature true self in
      finish_analysis temp self.

Definition analyze_image (w : world) (image_path : string) (apply_wb : bool)
    (self : analyzer) : result (option results) * analyzer :=
  let '(loaded, self) := load_image w image_path self in
  if negb loaded then (Ok None, self)
  else
    let '(temp, self) := analyze_color_temperature apply_wb self in
    finish_analysis temp self.

End Pipeline.


(* ================================================================== *)
(** * Specification-side definitions *)
(* ================================================================== *)

(** The order of binary64 as a lexicographic order on integer keys: the
    class (infinities outermost, both zeros in the middle), then exponent
    and mantissa, both negated for negative numbers.  NaN has no key. *)
Definition sf_key (x : spec_float) : option (Z * Z * Z) :=
  match x with
  | S754_nan => None
  | S754_infinity true => Some (-2, 0, 0)%Z
  | S754_infinity false => Some (2, 0, 0)%Z
  | S754_zero _ => Some (0, 0, 0)%Z
  | S754_finite false m e => Some (1, e, Zpos m)%Z
  | S754_finite true m e => Some (-1, - e, Zneg m)%Z
  end.

Definition key_lt (a b : Z * Z * Z) : Prop :=
  let '(a1, a2, a3) := a in
  let '(b1, b2, b3) := b in
  (a1 < b1 \/ (a1 = b1 /\ (a2 < b2 \/ (a2 = b2 /\ a3 < b3))))%Z.

Definition fkey (x : float) : option (Z * Z * Z) := sf_key (Prim2SF x).

Definition key_le (a b : Z * Z * Z) : Prop := key_lt a b \/ a = b.

(** [x <= y] on specifications of floats: both are numbers and the keys are
    in order. *)
Definition sf_le (x y : spec_float) : Prop :=
  exists a b, sf_key x = Some a /\ sf_key y = Some b /\ key_le a b.

(** How two floats compare, with the three comparison operators' answers. *)
Inductive cmp_view (x y : float) : Prop :=
| cmp_unordered :
    fkey x = None \/ fkey y = None ->
    (x <? y) = false -> (x <=? y) = false -> (x =? y) = false ->
    (y <? x) = false -> (y <=? x) = false -> cmp_view x y
| cmp_lt a b :
    fkey x = Some a -> fkey y = Some b -> key_lt a b ->
    (x <? y) = true -> (x <=? y) = true -> (x =? y) = false ->
    (y <? x) = false -> (y <=? x) = false -> cmp_view x y
| cmp_eq a :
    fkey x = Some a -> fkey y = Some a ->
    (x <? y) = false -> (x <=? y) = true -> (x =? y) = true ->
    (y <? x) = false -> (y <=? x) = true -> cmp_view x y
| cmp_gt a b :
    fkey x = Some a -> fkey y = Some b -> key_lt b a ->
    (x <? y) = false -> (x <=? y) = false -> (x =? y) = false ->
    (y <? x) = true -> (y <=? x) = true -> cmp_view x y.


(** ** The classifier's tables, as the specification words them *)

(** A band of temperatures with its value: the bounds are absent where the
    band is unbounded. *)
Record band (A : Type) : Type := {
  band_lo : option float;
  band_hi : option float;
  band_value : A
}.
Arguments band_lo {A} b.
Arguments band_hi {A} b.
Arguments band_value {A} b.

Definition mk_band {A : Type} (lo hi : option float) (v : A) : band A :=
  {| band_lo := lo; band_hi := hi; band_value := v |}.

(** Lower bound inclusive, upper bound exclusive. *)
Definition in_band {A : Type} (b : band A) (t : float) : bool :=
  match band_lo b with Some lo => lo <=? t | None => true end
  && match band_hi b with Some hi => t <? hi | None => true end.

(** Lower bound exclusive, upper bound inclusive. *)
Definition in_bucket {A : Type} (b : band A) (t : float) : bool :=
  match band_lo b with Some lo => lo <? t | None => true end
  && match band_hi b with Some hi => t <=? hi | None => true end.

Definition light_boundaries : list float :=
  [2000; 3000; 4000; 5000; 6000; 7000; 8000].

Definition light_bands : list (band string) :=
  [ mk_band None (Some 2000) "Sehr warm - Kerzenlicht, Petroleum-/Gaslampe";
    mk_band (Some 2000) (Some 3000) "Warm - Glühlampe, warmes LED-Licht";
    mk_band (Some 3000) (Some 4000) "Warmweiß - Halogenlampe, warmweißes LED";
    mk_band (Some 4000) (Some 5000) "Neutral - Leuchtstoffröhre, neutrales LED";
    mk_band (Some 5000) (Some 6000)
      "Kaltweiß - Tageslicht bewölkt, kaltweißes LED";
    mk_band (Some 6000) (Some 7000) "Tageslicht - direktes Sonnenlicht mittags";
    mk_band (Some 7000) (Some 8000) "Kalt - Schatten im Freien, Nordfenster";
    mk_band (Some 8000) None "Sehr kalt - klarer blauer Himmel, Hochgebirge" ].

(** The band that starts at a boundary, and the one that ends there. *)
Definition band_from (l : float) : option (band string) :=
  find (fun b => match band_lo b with
                 | Some lo => Leibniz.eqb lo l
                 | None => false
                 end) light_bands.

Definition band_upto (h : float) : option (band string) :=
  find (fun b => match band_hi b with
                 | Some hi => Leibniz.eqb hi h
                 | None => false
                 end) light_bands.

(** The six bounded buckets of the inverse setting; everything else, NaN
    included, is the seventh. *)
Definition wb_buckets : list (band Z) :=
  [ mk_band None (Some 2000) 9000%Z;
    mk_band (Some 2000) (Some 3000) 7000%Z;
    mk_band (Some 3000) (Some 4000) 5500%Z;
    mk_band (Some 4000) (Some 5500) 4000%Z;
    mk_band (Some 5500) (Some 7000) 3200%Z;
    mk_band (Some 7000) (Some 8500) 2800%Z ].

Definition wb_otherwise : Z := 2300%Z.

Definition wb_settings : list Z :=
  [9000; 7000; 5500; 4000; 3200; 2800; 2300]%Z.

(** ** Colour temperature *)

(** The ratio McCamy's polynomial is evaluated at. *)
Definition mccamy_n (x y z : float) : float :=
  let s := x + y + z in
  (x / s - 0.3320) / (0.1858 - y / s).

(** The floats within [k] steps of [c]. *)
Fixpoint iter_float (f : float -> float) (k : nat) (c : float) : list float :=
  match k with
  | O => []
  | S k' => f c :: iter_float f k' (f c)
  end.

Definition ulp_ball (k : nat) (c : float) : list float :=
  c :: iter_float next_up k c ++ iter_float next_down k c.

(** What is assumed of the C library's [pow]: a power of one is one (C99
    F.9.4.4), and a square and a cube are within a few units in the last
    place of the product computed by multiplying (any libm whose error is
    below one unit in the last place is well within that). *)
Definition libm_pow_faithful (cpow : float -> float -> float) : Prop :=
  (forall y, cpow 1 y = 1) /\
  (forall x, In (cpow x 2) (ulp_ball 2 (x * x))) /\
  (forall x, In (cpow x 3) (ulp_ball 4 (x * x * x))).

(** A [pow] that meets the assumption, to run the functions with. *)
Definition product_pow (a b : float) : float :=
  if Leibniz.eqb a 1 then 1
  else if Leibniz.eqb b 2 then a * a
  else a * a * a.

(** The tristimulus values of white, RGB = (1.0, 1.0, 1.0), whose three
    linearised channels are 1.0, and McCamy's ratio there. *)
Definition white_xyz : triple :=
  (1 * 0.4124564 + 1 * 0.3575761 + 1 * 0.1804375,
   1 * 0.2126729 + 1 * 0.7151522 + 1 * 0.0721750,
   1 * 0.0193339 + 1 * 0.1191920 + 1 * 0.9503041).

Definition white_n : float :=
  let '(x, y, z) := white_xyz in mccamy_n x y z.

(** ** Worlds and operations *)

(** The world in which exactly the listed files exist and decode. *)
Definition world_of (files : list (string * image)) : world :=
  {| path_exists := fun p => existsb (fun f => String.eqb (fst f) p) files;
     image_open := fun p =>
       option_map snd (find (fun f => String.eqb (fst f) p) files);
     fails_in_array := fun _ => false;
     image_save := fun _ _ => true |}.

(** The calibration an analyzer holds: the three white-reference fields. *)
Definition calibration (a : analyzer)
    : option string * option triple * option triple :=
  (white_reference_path a, white_reference_rgb a, white_balance_factors a).

(** The calls that take the analyzer object. *)
Inductive operation : Type :=
| LoadWhiteReference (white_reference_path : string)
| LoadImage (image_path : string)
| CalculateAverageRgb (apply_wb : bool)
| AnalyzeColorTemperature (apply_wb : bool)
| GetAnalysisResults (include_white_balance_info : bool)
| AnalyzeImageWithWhiteBalance (image_path white_reference_path : string)
| AnalyzeImage (image_path : string) (apply_wb : bool).

(** How a call ended: with a result, or in a failure (it returned [False],
    [None] or the error dictionary, or it raised). *)
Inductive outcome : Type := Succeeded | Failed.

Definition outcome_of_bool (b : bool) : outcome :=
  if b then Succeeded else Failed.

Definition outcome_of_option {A : Type} (o : option A) : outcome :=
  match o with Some _ => Succeeded | None => Failed end.

Definition outcome_of_result {A : Type} (f : A -> outcome) (r : result A)
    : outcome :=
  match r with Ok a => f a | Raise _ => Failed end.

Definition outcome_of_results (d : results) : outcome :=
  match d with ResultsDict _ => Succeeded | ErrorDict _ => Failed end.

Section Run.

Variable cpow : float -> float -> float.

Definition run (w : world) (op : operation) (self : analyzer)
    : outcome * analyzer :=
  match op with
  | LoadWhiteReference p =>
      let '(b, self) := load_white_reference w p self in
      (outcome_of_bool b, self)
  | LoadImage p =>
      let '(b, self) := load_image w p self in (outcome_of_bool b, self)
  | CalculateAverageRgb wb =>
      let '(o, self) := calculate_average_rgb wb self in
      (outcome_of_option o, self)
  | AnalyzeColorTemperature wb =>
      let '(r, self) := analyze_color_temperature cpow wb self in
      (outcome_of_result outcome_of_option r, self)
  | GetAnalysisResults inc =>
      (outcome_of_result outcome_of_results (get_analysis_results inc self),
       self)
  | AnalyzeImageWithWhiteBalance p q =>
      let '(r, self) := analyze_image_with_white_balance cpow w p q self in
      (outcome_of_result outcome_of_option r, self)
  | AnalyzeImage p wb =>
      let '(r, self) := analyze_image cpow w p wb self in
      (outcome_of_result outcome_of_option r, self)
  end.

End Run.

(** A session with two reference files on disk, and the analyzer after it
    was calibrated from the first. *)
Definition session_world : world :=
  world_of [("white.png", [(xff, xff, xff)]);
            ("grey.png", [(x80, x80, xff)])].

Definition calibrated : analyzer :=
  snd (load_white_reference session_world "white.png" init).

(** ** Rounding to nearest, ties to even *)

Section RoundingDefinitions.

Local Open Scope Z_scope.

Definition rne (N D : Z) : Z :=
  let q := N / D in
  match 2 * (N mod D) ?= D with
  | Lt => q
  | Eq => if Z.even q then q else q + 1
  | Gt => q + 1
  end.

Definition location_of (N D : Z) : location :=
  if N mod D =? 0 then loc_Exact else loc_Inexact (2 * (N mod D) ?= D).

Definition represents (mrs : shr_record) (N D : Z) : Prop :=
  shr_m mrs = N / D /\ loc_of_shr_record mrs = location_of N D.

Definition fexp64 (e : Z) : Z := fexp prec emax e.

(** The tail of [binary_round_aux]: renormalise, then pack. *)
Definition finish (s : bool) (z e' : Z) : spec_float :=
  let '(mrs'', e'') := shr_fexp prec emax z e' loc_Exact in
  match shr_m mrs'' with
  | Z0 => S754_zero s
  | Zpos m => if e'' <=? emax - prec then S754_finite s m e'' else S754_infinity s
  | _ => S754_nan
  end.

Definition pack (s : bool) (z t : Z) : spec_float :=
  if z =? 0 then S754_zero s
  else if z =? 2 ^ 53 then
    if t + 1 <=? 971 then S754_finite s (2 ^ 52)%positive (t + 1)
    else S754_infinity s
  else if t <=? 971 then S754_finite s (Z.to_pos z) t
  else S754_infinity s.

(** The float a quotient [N / D] scaled by [2 ^ e] rounds to, with sign [s]. *)
Definition round_quot (s : bool) (N D e : Z) : spec_float :=
  let t := fexp64 (Zdigits2 (N / D) + e) in
  pack s (rne N (2 ^ (t - e) * D)) t.

(** The exponent [SFdiv_core_binary] scales a quotient to. *)
Definition div_exp (dx ex dy ey : Z) : Z :=
  Z.min (fexp64 (dx + ex - (dy + ey))) (ex - ey).

End RoundingDefinitions.

(** ** White balance *)

Inductive channel : Type := Red | Green | Blue.

Definition chan (c : channel) (t : triple) : float :=
  let '(r, g, b) := t in
  match c with Red => r | Green => g | Blue => b end.

(** A reference channel calibration can invert: strictly positive, finite,
    and with a finite reciprocal (every double from 2^-1024 + 2^-1074 up,
    so every average of an image with a lit channel). *)
Definition invertible (c : float) : bool :=
  (0 <? c) && (c <? infinity) && (1 / c <? infinity).

(* ================================================================== *)
(** * Further specification-side definitions *)
(* ================================================================== *)

(** ** The two descriptions of a temperature *)

(** The label of the light source and the camera setting described for it,
    band by band, as the two cascades of the source pair them. *)
Definition description_pairs : list (string * string) :=
  [ ("Sehr warm - Kerzenlicht, Petroleum-/Gaslampe",
     "Kamera WB: ~8000-10000K+ (Maximum Warmton-Korrektur)");
    ("Warm - Glühlampe, warmes LED-Licht",
     "Kamera WB: ~6000-8000K (Starke Warmton-Korrektur)");
    ("Warmweiß - Halogenlampe, warmweißes LED",
     "Kamera WB: ~5000-6000K (Moderate Warmton-Korrektur)");
    ("Neutral - Leuchtstoffröhre, neutrales LED",
     "Kamera WB: ~4000-5000K (Leichte Warmton-Korrektur)");
    ("Kaltweiß - Tageslicht bewölkt, kaltweißes LED",
     "Kamera WB: ~3500-4000K (Nahezu neutral)");
    ("Tageslicht - direktes Sonnenlicht mittags",
     "Kamera WB: ~3000-3500K (Leichte Kaltton-Korrektur)");
    ("Kalt - Schatten im Freien, Nordfenster",
     "Kamera WB: ~2500-3000K (Moderate Kaltton-Korrektur)");
    ("Sehr kalt - klarer blauer Himmel, Hochgebirge",
     "Kamera WB: ~2000-2500K (Starke Kaltton-Korrektur)") ].

(** ** Sequences of calls *)

Section RunAll.

Variable cpow : float -> float -> float.

(** The object after a sequence of calls, each made in the world it finds. *)
Fixpoint run_all (steps : list (world * operation)) (self : analyzer)
    : analyzer :=
  match steps with
  | [] => self
  | (w, op) :: rest => run_all rest (snd (run cpow w op self))
  end.

End RunAll.

(** What the methods rely on when they subscript an attribute: a
    temperature is only there together with both averages, and correction
    factors only together with the reference colour. *)
Definition coherent (a : analyzer) : bool :=
  implb (is_some (color_temperature a))
        (is_some (avg_rgb a) && is_some (corrected_rgb a))
  && implb (is_some (white_balance_factors a))
           (is_some (white_reference_rgb a)).

(** A results dictionary under another image path. *)
Definition with_image_path (p : option string) (r : result results)
    : result results :=
  match r with
  | Ok (ResultsDict d) =>
      Ok (ResultsDict
            {| res_image_path := p;
               original_rgb := original_rgb d;
               analyzed_rgb := analyzed_rgb d;
               measured_kelvin := measured_kelvin d;
               physical_light_source := physical_light_source d;
               estimated_camera_wb_setting := estimated_camera_wb_setting d;
               camera_wb_description := camera_wb_description d;
               white_balance := white_balance d |})
  | other => other
  end.

(** A results dictionary with another white-balance entry. *)
Definition with_white_balance (wb : option white_balance_info)
    (r : result results) : result results :=
  match r with
  | Ok (ResultsDict d) =>
      Ok (ResultsDict
            {| res_image_path := res_image_path d;
               original_rgb := original_rgb d;
               analyzed_rgb := analyzed_rgb d;
               measured_kelvin := measured_kelvin d;
               physical_light_source := physical_light_source d;
               estimated_camera_wb_setting := estimated_camera_wb_setting d;
               camera_wb_description := camera_wb_description d;
               white_balance := wb |})
  | other => other
  end.

(** The range of settings each camera description names ("~6000-8000K");
    the first one is open above ("~8000-10000K+"). *)
Definition described_ranges : list (string * (Z * option Z)) :=
  [ ("Kamera WB: ~8000-10000K+ (Maximum Warmton-Korrektur)", (8000, None));
    ("Kamera WB: ~6000-8000K (Starke Warmton-Korrektur)", (6000, Some 8000));
    ("Kamera WB: ~5000-6000K (Moderate Warmton-Korrektur)", (5000, Some 6000));
    ("Kamera WB: ~4000-5000K (Leichte Warmton-Korrektur)", (4000, Some 5000));
    ("Kamera WB: ~3500-4000K (Nahezu neutral)", (3500, Some 4000));
    ("Kamera WB: ~3000-3500K (Leichte Kaltton-Korrektur)", (3000, Some 3500));
    ("Kamera WB: ~2500-3000K (Moderate Kaltton-Korrektur)", (2500, Some 3000));
    ("Kamera WB: ~2000-2500K (Starke Kaltton-Korrektur)", (2000, Some 2500))
  ]%Z.

(** Whether the estimated setting of a temperature lies in the range its
    camera description names. *)
Definition estimate_within_description (t : float) : bool :=
  let s := calculate_inverse_wb_setting t in
  match find (fun p => String.eqb (fst p) (get_camera_wb_setting_description t))
             described_ranges with
  | Some (_, (lo, hi)) =>
      (lo <=? s)%Z && match hi with Some h => (s <=? h)%Z | None => true end
  | None => false
  end.

(** The temperatures where the two cascades are out of step: the upper ends
    of the buckets of the estimate, and where a bucket reaches into the next
    band of the description. *)
Definition between_the_cascades (t : float) : bool :=
  (t =? 2000) || (t =? 3000) || (t =? 4000) || ((5500 <? t) && (t <? 6000))
  || (t =? 7000) || ((8000 <=? t) && (t <=? 8500)).

(** ** Sums of floats *)

Section SumDefinitions.

Local Open Scope Z_scope.

(** The value of a float that is [+0] or positive and finite, in units of
    [2 ^ -1074], the smallest positive double. *)
Definition scaled (x : spec_float) : Z :=
  match x with
  | S754_finite false m e => Z.pos m * 2 ^ (e + 1074)
  | _ => 0
  end.

Definition nonneg (x : spec_float) : bool :=
  match x with
  | S754_zero false | S754_finite false _ _ => true
  | _ => false
  end.

(** The double nearest to [V * 2 ^ -1074]. *)
Definition round_scaled (V : Z) : spec_float := round_quot false V 1 (-1074).

(** The double of a natural number below [2 ^ 53]. *)
Definition SFnat (n : Z) : spec_float :=
  if n =? 0 then S754_zero false
  else S754_finite false (Z.to_pos (n * 2 ^ (53 - Zdigits2 n)))
                   (Zdigits2 n - 53).

End SumDefinitions.

(** ** Images *)

Definition byte_value (b : byte) : nat := N.to_nat (Byte.to_N b).

Definition pixel_chan (c : channel) (p : pixel) : byte :=
  let '(r, g, b) := p in
  match c with Red => r | Green => g | Blue => b end.

(** The sum of one channel over all pixels, as a natural number. *)
Definition channel_total (c : channel) (img : image) : nat :=
  list_sum (map (fun p => byte_value (pixel_chan c p)) img).

(** The images numpy sums without rounding: fewer than [2 ^ 53 / 255]
    pixels (some 35 * 10^12). *)
Definition countable (img : image) : Prop :=
  (255 * Z.of_nat (List.length img) < 2 ^ 53)%Z.

(** The normalised pixels [calculate_average_rgb] averages. *)
Definition normalized (img : image) : list triple :=
  map (fun p => map3 (fun c => c / 255) (pixel_to_float p)) img.

(** A triple of floats in [0, 1]. *)
Definition unit_range (t : triple) : bool :=
  let '(r, g, b) := t in
  (0 <=? r) && (r <=? 1) && (0 <=? g) && (g <=? 1) && (0 <=? b) && (b <=? 1).

(** The largest number of pixels of a countable image as a float, and the
    smallest channel average of such an image that is not zero. *)
Definition most_pixels : float := 9007199254740991.

Definition least_average : float := 1 / most_pixels / 255.

(** Black and white pixels. *)
Definition black : pixel := (x00, x00, x00).
Definition white : pixel := (xff, xff, xff).

(** Whether [calculate_average_rgb] corrects the average. *)
Definition corrects (apply_wb : bool) (a : analyzer) : bool :=
  apply_wb && is_some (white_balance_factors a).

(** The temperature of the white point, with the powers the library
    gives. *)
Definition white_temperature (cpow : float -> float -> float) : float :=
  mccamy (cpow white_n 3) (cpow white_n 2) white_n.

(* ================================================================== *)
(** * invert_colors.py *)
(* ================================================================== *)

(** [np.array(img)] for an image in one of PIL's 8-bit modes: an array of
    unsigned bytes with two axes (modes L and P) or with three (LA, RGB,
    RGBA, CMYK, ...), the last of which holds the channels of a pixel.  The
    other modes (1, I, F, I;16) give arrays of other types and are not
    modelled. *)
Inductive ndarray : Type :=
| Gray (rows : list (list byte))
| Color (rows : list (list (list byte))).

(** [255 - b] on [uint8]. *)
Definition invert_byte (b : byte) : byte :=
  match Byte.of_N (255 - Byte.to_N b) with
  | Some c => c
  | None => x00
  end.

(** One pixel of [img_array[:, :, :3] = 255 - img_array[:, :, :3]]. *)
Definition invert_pixel (px : list byte) : list byte :=
  (map invert_byte (firstn 3 px) ++ skipn 3 px)%list.

(** The branch on [len(img_array.shape)]. *)
Definition invert_array (img_array : ndarray) : ndarray :=
  match img_array with
  | Color rows => Color (map (map invert_pixel) rows)
  | Gray rows => Gray (map (map invert_byte) rows)
  end.

(** The files the script sees: the array [np.array(Image.open(path))] gives
    ([None] where opening raises), and whether
    [Image.fromarray(a).save(path, 'PNG')] succeeds. *)
Record disk : Type := {
  disk_open : string -> option ndarray;
  disk_save : string -> ndarray -> bool
}.

(** The function has no handler: [None] is an exception that leaves it.  A
    PNG that was written decodes to the array that was written. *)
Definition invert_colors (d : disk) (input_path output_path : string)
    : option disk :=
  match disk_open d input_path with
  | None => None
  | Some img_array =>
      let inverted := invert_array img_array in
      if disk_save d output_path inverted then
        Some {| disk_open := fun p => if String.eqb p output_path
                                      then Some inverted
                                      else disk_open d p;
                disk_save := disk_save d |}
      else None
  end.

(** A disk with the listed files, on which every save succeeds. *)
Definition disk_of (files : list (string * ndarray)) : disk :=
  {| disk_open := fun p =>
       option_map snd (find (fun f => String.eqb (fst f) p) files);
     disk_save := fun _ _ => true |}.

(* ================================================================== *)
(** * Workflow-Parser_Graph-Renderer.py *)
(* ================================================================== *)

(** What [json.load] returns.  A dictionary is the list of its items, in
    the order of the file. *)
Inductive json : Type :=
| JNull
| JBool (b : bool)
| JInt (z : Z)
| JFloat (f : float)
| JStr (s : string)
| JList (l : list json)
| JDict (d : list (string * json)).

(** The exceptions that end the script. *)
Inductive script_error : Type :=
| Key_error | Type_error | Attribute_error | Value_error.

Inductive attempt (A : Type) : Type :=
| Done (a : A)
| Fails (e : script_error).
Arguments Done {A} a.
Arguments Fails {A} e.

(** The calls the script makes on the graph [G], in their order. *)
Inductive call : Type :=
| AddNode (node_id : string) (label : json)
| AddEdge (u : json) (v : string).

Definition lookup (k : string) (d : list (string * json)) : option json :=
  option_map snd (find (fun p => String.eqb (fst p) k) d).

(** [v[k]] for a string [k]. *)
Definition subscript_str (v : json) (k : string) : attempt json :=
  match v with
  | JDict d =>
      match lookup k d with
      | Some x => Done x
      | None => Fails Key_error
      end
  | _ => Fails Type_error
  end.

(** [v.items()] and [v.values()]: only a dictionary has them. *)
Definition items (v : json) : attempt (list (string * json)) :=
  match v with
  | JDict d => Done d
  | _ => Fails Attribute_error
  end.

Definition values (v : json) : attempt (list json) :=
  match v with
  | JDict d => Done (map snd d)
  | _ => Fails Attribute_error
  end.

(** [for x in v]: the elements of a list, the characters of a string, the
    keys of a dictionary; nothing else can be iterated. *)
Definition iterate (v : json) : attempt (list json) :=
  match v with
  | JList l => Done l
  | JStr s =>
      Done (map (fun c => JStr (String c EmptyString)) (list_ascii_of_string s))
  | JDict d => Done (map (fun p => JStr (fst p)) d)
  | _ => Fails Type_error
  end.

(** A loop whose body may raise. *)
Fixpoint for_each {A : Type} (body : A -> attempt (list call)) (l : list A)
    : attempt (list call) :=
  match l with
  | [] => Done []
  | x :: rest =>
      match body x with
      | Fails e => Fails e
      | Done c =>
          match for_each body rest with
          | Fails e => Fails e
          | Done cs => Done (c ++ cs)%list
          end
      end
  end.

(** [G.add_edge(u, node_id)]: networkx looks [u] up in a dictionary, which a
    list or a dictionary cannot be, and refuses [None]. *)
Definition add_edge (u : json) (node_id : string) : attempt (list call) :=
  match u with
  | JList _ | JDict _ => Fails Type_error
  | JNull => Fails Value_error
  | _ => Done [AddEdge u node_id]
  end.

(** The innermost body: a list of two elements is taken for a link. *)
Definition link (node_id : string) (input_node : json) : attempt (list call) :=
  match input_node with
  | JList [u; _] => add_edge u node_id
  | _ => Done []
  end.

Definition links (node_id : string) (input_list : json) : attempt (list call) :=
  match iterate input_list with
  | Fails e => Fails e
  | Done input_nodes => for_each (link node_id) input_nodes
  end.

(** [node.get("inputs", {})], for a [node] that is a dictionary. *)
Definition get_inputs (node : json) : json :=
  match node with
  | JDict d =>
      match lookup "inputs" d with
      | Some v => v
      | None => JDict []
      end
  | _ => JDict []
  end.

(** The body of the outer loop. *)
Definition visit (item : string * json) : attempt (list call) :=
  let '(node_id, node) := item in
  match subscript_str node "class_type" with
  | Fails e => Fails e
  | Done label =>
      match values (get_inputs node) with
      | Fails e => Fails e
      | Done input_lists =>
          match for_each (links node_id) input_lists with
          | Fails e => Fails e
          | Done edges => Done (AddNode node_id label :: edges)
          end
      end
  end.

(** The script up to the drawing, as a function of the file's content. *)
Definition build_graph (data : json) : attempt (list call) :=
  match subscript_str data "nodes" with
  | Fails e => Fails e
  | Done nodes =>
      match items nodes with
      | Fails e => Fails e
      | Done node_items => for_each visit node_items
      end
  end.

(** A value that cannot be iterated. *)
Definition scalar (v : json) : bool :=
  match v with
  | JNull | JBool _ | JInt _ | JFloat _ => true
  | _ => false
  end.

(** The nodes of the file: the items of [data["nodes"]]. *)
Definition nodes_of (data : json) (node_items : list (string * json)) : Prop :=
  exists top, data = JDict top /\ lookup "nodes" top = Some (JDict node_items).

(** Node [v] of the file has an input whose value is a list, and that list
    holds a list of two elements that starts with [u]. *)
Definition linked (data : json) (u : json) (v : string) : Prop :=
  exists node_items node inputs name elements slot,
    nodes_of data node_items /\
    In (v, node) node_items /\
    get_inputs node = JDict inputs /\
    In (name, JList elements) inputs /\
    In (JList [u; slot]) elements.

(** A small file: a loader, and a sampler with a nested link to it, a
    flat link and a text. *)
Definition sample_workflow : json :=
  JDict [("nodes", JDict [
    ("4", JDict [("class_type", JStr "CheckpointLoaderSimple")]);
    ("3", JDict [("class_type", JStr "KSampler");
                 ("inputs", JDict [("model", JList [JList [JStr "4"; JInt 0]]);
                                   ("clip", JList [JStr "4"; JInt 1]);
                                   ("sampler_name", JStr "euler")])])])].

Definition seeded_workflow : json :=
  JDict [("nodes", JDict [
    ("3", JDict [("class_type", JStr "KSampler");
                 ("inputs", JDict [("seed", JInt 42)])])])].

(* ================================================================== *)
(** * The order of floats *)
(* ================================================================== *)

Lemma compare_cont_Eq (p q : positive) :
  Pos.compare_cont Eq p q = (p ?= q)%positive.
Proof. reflexivity. Qed.

Lemma SFcompare_key (x y : spec_float) :
  match SFcompare x y with
  | None => sf_key x = None \/ sf_key y = None
  | Some Lt => exists a b, sf_key x = Some a /\ sf_key y = Some b /\ key_lt a b
  | Some Eq => exists a, sf_key x = Some a /\ sf_key y = Some a
  | Some Gt => exists a b, sf_key x = Some a /\ sf_key y = Some b /\ key_lt b a
  end.
Proof.
  destruct x as [[|]|[|]| |[|] mx ex], y as [[|]|[|]| |[|] my ey]; simpl;
    try (left; reflexivity); try (right; reflexivity);
    try (eexists; split; reflexivity);
    try (do 2 eexists; split; [reflexivity|split; [reflexivity|simpl; lia]]).
  - rewrite compare_cont_Eq.
    destruct (Z.compare_spec ex ey) as [He|He|He];
      [destruct (Pos.compare_spec mx my) as [Hm|Hm|Hm]| |]; simpl.
    + subst. eexists; split; reflexivity.
    + do 2 eexists; split; [reflexivity|split; [reflexivity|simpl; lia]].
    + do 2 eexists; split; [reflexivity|split; [reflexivity|simpl; lia]].
    + do 2 eexists; split; [reflexivity|split; [reflexivity|simpl; lia]].
    + do 2 eexists; split; [reflexivity|split; [reflexivity|simpl; lia]].
  - rewrite compare_cont_Eq.
    destruct (Z.compare_spec ex ey) as [He|He|He];
      [destruct (Pos.compare_spec mx my) as [Hm|Hm|Hm]| |]; simpl.
    + subst. eexists; split; reflexivity.
    + do 2 eexists; split; [reflexivity|split; [reflexivity|simpl; lia]].
    + do 2 eexists; split; [reflexivity|split; [reflexivity|simpl; lia]].
    + do 2 eexists; split; [reflexivity|split; [reflexivity|simpl; lia]].
    + do 2 eexists; split; [reflexivity|split; [reflexivity|simpl; lia]].
Qed.

Lemma key_lt_irrefl (a : Z * Z * Z) : ~ key_lt a a.
Proof. destruct a as [[a1 a2] a3]. simpl. lia. Qed.

Lemma key_lt_asym (a b : Z * Z * Z) : key_lt a b -> ~ key_lt b a.
Proof. destruct a as [[a1 a2] a3], b as [[b1 b2] b3]. simpl. lia. Qed.

Lemma key_lt_trans (a b c : Z * Z * Z) : key_lt a b -> key_lt b c -> key_lt a c.
Proof.
  destruct a as [[a1 a2] a3], b as [[b1 b2] b3], c as [[c1 c2] c3]. simpl. lia.
Qed.

Lemma key_total (a b : Z * Z * Z) : key_lt a b \/ a = b \/ key_lt b a.
Proof.
  destruct a as [[a1 a2] a3], b as [[b1 b2] b3]. simpl.
  destruct (Z.lt_total a1 b1) as [H|[H|H]]; [lia| |lia].
  destruct (Z.lt_total a2 b2) as [H'|[H'|H']]; [lia| |lia].
  destruct (Z.lt_total a3 b3) as [H''|[H''|H'']]; [lia| |lia].
  subst. right. left. reflexivity.
Qed.

Lemma SFcompare_swap (x y : spec_float) :
  SFcompare y x = option_map CompOpp (SFcompare x y).
Proof.
  destruct x as [[|]|[|]| |[|] mx ex], y as [[|]|[|]| |[|] my ey]; simpl;
    try reflexivity;
    pose proof (Pos.compare_antisym mx my) as Hm; unfold Pos.compare in Hm;
    rewrite Hm, (Z.compare_antisym ex ey);
    destruct (ex ?= ey)%Z; simpl; try reflexivity;
    destruct (Pos.compare_cont Eq mx my); reflexivity.
Qed.

(** Every pair of floats is in one of the four situations of [cmp_view]. *)
Lemma float_cmp (x y : float) : cmp_view x y.
Proof.
  pose proof (SFcompare_key (Prim2SF x) (Prim2SF y)) as Hxy.
  pose proof (SFcompare_swap (Prim2SF x) (Prim2SF y)) as Hyx.
  assert (Hl : forall u v, (u <? v) = SFltb (Prim2SF u) (Prim2SF v))
    by apply ltb_spec.
  assert (Hle : forall u v, (u <=? v) = SFleb (Prim2SF u) (Prim2SF v))
    by apply leb_spec.
  assert (He : forall u v, (u =? v) = SFeqb (Prim2SF u) (Prim2SF v))
    by apply eqb_spec.
  unfold SFltb, SFleb, SFeqb in *.
  destruct (SFcompare (Prim2SF x) (Prim2SF y)) as [[| |]|] eqn:Cxy;
    simpl in Hyx;
    repeat match goal with
           | H : exists _, _ |- _ => destruct H
           | H : _ /\ _ |- _ => destruct H
           end.
  - eapply cmp_eq; unfold fkey; eauto;
      rewrite ?Hl, ?Hle, ?He, ?Cxy, ?Hyx; reflexivity.
  - eapply cmp_lt; unfold fkey; eauto;
      rewrite ?Hl, ?Hle, ?He, ?Cxy, ?Hyx; reflexivity.
  - eapply cmp_gt; unfold fkey; eauto;
      rewrite ?Hl, ?Hle, ?He, ?Cxy, ?Hyx; reflexivity.
  - eapply cmp_unordered; unfold fkey; eauto;
      rewrite ?Hl, ?Hle, ?He, ?Cxy, ?Hyx; reflexivity.
Qed.

(** Case analysis on how two floats compare, then arithmetic on the keys. *)
Ltac key_clash :=
  repeat match goal with
         | H1 : fkey ?u = Some ?a, H2 : fkey ?u = Some ?b |- _ =>
             assert (a = b) by congruence; subst b; clear H2
         | H1 : fkey ?u = Some ?a, H2 : fkey ?u = None |- _ =>
             exfalso; congruence
         | H : fkey ?u = None \/ fkey ?v = None |- _ => destruct H
         end;
  try congruence;
  repeat match goal with
         | a : (Z * Z * Z)%type |- _ => destruct a as [[? ?] ?]
         end;
  unfold key_lt in *;
  try (exfalso; lia).

Ltac fcmp x y :=
  let V := fresh "V" in
  pose proof (float_cmp x y) as V; destruct V.

Local Ltac order3 x y z :=
  fcmp x y; try congruence; fcmp y z; try congruence;
  fcmp x z; try congruence; key_clash.

Lemma ltb_leb_incl (x y : float) : (x <? y) = true -> (x <=? y) = true.
Proof. intros H. fcmp x y; congruence. Qed.

Lemma eqb_leb_incl (x y : float) : (x =? y) = true -> (x <=? y) = true.
Proof. intros H. fcmp x y; congruence. Qed.

Lemma eqb_sym (x y : float) : (x =? y) = (y =? x).
Proof. fcmp x y; fcmp y x; key_clash. Qed.

Lemma leb_ltb_false (x y : float) : (x <=? y) = true -> (y <? x) = false.
Proof. intros H. fcmp x y; congruence. Qed.

Lemma ltb_leb_false (x y : float) : (x <? y) = true -> (y <=? x) = false.
Proof. intros H. fcmp x y; congruence. Qed.

Lemma leb_trans (x y z : float) :
  (x <=? y) = true -> (y <=? z) = true -> (x <=? z) = true.
Proof. intros H1 H2. order3 x y z. Qed.

Lemma ltb_leb_trans (x y z : float) :
  (x <? y) = true -> (y <=? z) = true -> (x <? z) = true.
Proof. intros H1 H2. order3 x y z. Qed.

Lemma leb_ltb_trans (x y z : float) :
  (x <=? y) = true -> (y <? z) = true -> (x <? z) = true.
Proof. intros H1 H2. order3 x y z. Qed.

Lemma is_nan_key (x : float) : is_nan x = true <-> fkey x = None.
Proof.
  unfold is_nan. fcmp x x.
  - rewrite H2. split; intros _; [destruct H; assumption | reflexivity].
  - exfalso. key_clash.
  - rewrite H3. split; intros Hn; [discriminate Hn | congruence].
  - exfalso. key_clash.
Qed.

Lemma not_nan_total (x y : float) :
  is_nan x = false -> is_nan y = false ->
  (x <? y) = true \/ (y <=? x) = true.
Proof.
  intros Hx Hy. fcmp x y; auto.
  exfalso. destruct H as [H|H]; apply is_nan_key in H; congruence.
Qed.

Lemma leb_not_nan (x y : float) :
  (x <=? y) = true -> is_nan x = false /\ is_nan y = false.
Proof.
  intros H.
  split; apply not_true_is_false; intros Hn; apply is_nan_key in Hn;
    fcmp x y; key_clash.
Qed.

(* ================================================================== *)
(** * Rounding in binary64 *)
(* ================================================================== *)

Section Rounding.

Local Open Scope Z_scope.
Lemma loc_of_shr_record_of_loc m l :
  loc_of_shr_record (shr_record_of_loc m l) = l.
Proof. destruct l as [|[]]; reflexivity. Qed.

Lemma shr_m_of_loc m l : shr_m (shr_record_of_loc m l) = m.
Proof. destruct l as [|[]]; reflexivity. Qed.

Lemma location_shift N D :
  0 <= N -> 0 < D ->
  N / (2 * D) = Z.div2 (N / D) /\
  location_of N (2 * D) =
    match Z.even (N / D), N mod D =? 0 with
    | true, true => loc_Exact
    | true, false => loc_Inexact Lt
    | false, true => loc_Inexact Eq
    | false, false => loc_Inexact Gt
    end.
Proof.
  intros HN HD. unfold location_of.
  assert (Hq : N / (2 * D) = (N / D) / 2).
  { rewrite Z.div_div by lia. f_equal. lia. }
  assert (Hr : N mod (2 * D) = N mod D + D * ((N / D) mod 2)).
  { rewrite (Z.mul_comm 2 D). apply Z.rem_mul_r; lia. }
  pose proof (Z.mod_pos_bound N D HD) as Hb.
  rewrite Hq, Hr, Z.div2_div, Zmod_even.
  split; [reflexivity|].
  destruct (Z.even (N / D)); destruct (Z.eqb_spec (N mod D) 0) as [E|E].
  - rewrite E. replace (0 + D * 0 =? 0) with true by (symmetry; apply Z.eqb_eq; lia).
    reflexivity.
  - replace (N mod D + D * 0 =? 0) with false by (symmetry; apply Z.eqb_neq; lia).
    replace (2 * (N mod D + D * 0) ?= 2 * D) with Lt
      by (symmetry; apply Z.compare_lt_iff; lia).
    reflexivity.
  - replace (N mod D + D * 1 =? 0) with false by (symmetry; apply Z.eqb_neq; lia).
    replace (2 * (N mod D + D * 1) ?= 2 * D) with Eq
      by (symmetry; apply Z.compare_eq_iff; lia).
    reflexivity.
  - replace (N mod D + D * 1 =? 0) with false by (symmetry; apply Z.eqb_neq; lia).
    replace (2 * (N mod D + D * 1) ?= 2 * D) with Gt
      by (symmetry; apply Z.compare_gt_iff; lia).
    reflexivity.
Qed.

Lemma shr_1_represents mrs N D :
  0 <= N -> 0 < D -> represents mrs N D -> represents (shr_1 mrs) N (2 * D).
Proof.
  intros HN HD [Hm Hl].
  destruct (location_shift N D HN HD) as [Hq Hloc].
  pose proof (Z.div_pos N D HN HD) as Hqpos.
  unfold represents. rewrite Hq, Hloc. clear Hq Hloc.
  destruct mrs as [m r s]. cbn [shr_m] in Hm. subst m.
  assert (Hs : orb r s = negb (N mod D =? 0)).
  { unfold location_of in Hl.
    destruct (N mod D =? 0); destruct r, s; cbn in Hl |- *;
      first [reflexivity | discriminate Hl]. }
  clear Hl.
  destruct (N / D) as [|[p|p|]|p]; try lia;
    cbn [shr_1 shr_m loc_of_shr_record Z.div2 Z.even]; rewrite Hs;
    (split; [reflexivity|]); destruct (N mod D =? 0); reflexivity.
Qed.

Lemma iter_pos_shr_1_represents p : forall mrs N D,
  0 <= N -> 0 < D -> represents mrs N D ->
  represents (iter_pos shr_1 p mrs) N (2 ^ Zpos p * D).
Proof.
  induction p as [p IH|p IH|]; intros mrs N D HN HD H; cbn [iter_pos].
  - replace (2 ^ Z.pos p~1 * D) with (2 ^ Z.pos p * (2 ^ Z.pos p * (2 * D))).
    + apply IH; [lia| |apply IH; [lia|lia|]].
      * pose proof (Z.pow_pos_nonneg 2 (Z.pos p)). lia.
      * apply shr_1_represents; assumption.
    + replace (Z.pos p~1) with (Z.pos p + Z.pos p + 1) by lia.
      rewrite !Z.pow_add_r by lia. ring.
  - replace (2 ^ Z.pos p~0 * D) with (2 ^ Z.pos p * (2 ^ Z.pos p * D)).
    + apply IH; [lia| |apply IH; assumption].
      pose proof (Z.pow_pos_nonneg 2 (Z.pos p)). lia.
    + replace (Z.pos p~0) with (Z.pos p + Z.pos p) by lia.
      rewrite !Z.pow_add_r by lia. ring.
  - change (2 ^ 1) with 2. apply shr_1_represents; assumption.
Qed.

Lemma shr_represents mrs e n N D :
  0 <= N -> 0 < D -> represents mrs N D ->
  represents (fst (shr mrs e n)) N (2 ^ Z.max 0 n * D) /\
  snd (shr mrs e n) = e + Z.max 0 n.
Proof.
  intros HN HD H. destruct n as [|p|p]; cbn [shr fst snd].
  - change (Z.max 0 0) with 0. rewrite Z.pow_0_r, Z.mul_1_l, Z.add_0_r. auto.
  - rewrite Z.max_r by lia. split; [|reflexivity].
    apply iter_pos_shr_1_represents; assumption.
  - rewrite Z.max_l by lia. rewrite Z.pow_0_r, Z.mul_1_l, Z.add_0_r. auto.
Qed.

Lemma round_nearest_even_rne mrs N D :
  0 < D -> represents mrs N D ->
  round_nearest_even (shr_m mrs) (loc_of_shr_record mrs) = rne N D.
Proof.
  intros HD [Hm Hl]. rewrite Hm, Hl. unfold location_of, rne, round_nearest_even.
  destruct (Z.eqb_spec (N mod D) 0) as [E|E].
  - rewrite E. replace (2 * 0 ?= D) with Lt
      by (symmetry; apply Z.compare_lt_iff; lia). reflexivity.
  - destruct (2 * (N mod D) ?= D); reflexivity.
Qed.

(** Characterisation of [rne]: the result is within half a unit, and on a
    tie it is even. *)
Lemma rne_spec N D :
  0 < D ->
  let z := rne N D in
  2 * z * D - D <= 2 * N <= 2 * z * D + D /\
  (2 * N = 2 * z * D + D \/ 2 * N = 2 * z * D - D -> Z.even z = true).
Proof.
  intros HD. unfold rne.
  pose proof (Z.div_mod N D ltac:(lia)) as E.
  pose proof (Z.mod_pos_bound N D HD) as B.
  set (q := N / D) in *. set (r := N mod D) in *. clearbody q r.
  destruct (Z.compare_spec (2 * r) D) as [C|C|C].
  - destruct (Z.even q) eqn:Ev; cbv zeta.
    + split; [nia|]. intros _. exact Ev.
    + split; [nia|]. intros _. rewrite Z.even_add, Ev. reflexivity.
  - cbv zeta. split; [nia|]. intros [H|H]; exfalso; nia.
  - cbv zeta. split; [nia|]. intros [H|H]; exfalso; nia.
Qed.

Lemma rne_monotone N1 D1 N2 D2 :
  0 < D1 -> 0 < D2 -> N1 * D2 <= N2 * D1 -> rne N1 D1 <= rne N2 D2.
Proof.
  intros H1 H2 Hle.
  destruct (rne_spec N1 D1 H1) as [B1 T1].
  destruct (rne_spec N2 D2 H2) as [B2 T2].
  set (z1 := rne N1 D1) in *. set (z2 := rne N2 D2) in *. clearbody z1 z2.
  destruct (Z_le_gt_dec z1 z2) as [|Hgt]; [assumption|exfalso].
  assert (Hd : 0 < D1 * D2) by nia.
  assert (L : (2 * z1 - 1) * (D1 * D2) <= (2 * z2 + 1) * (D1 * D2)) by nia.
  assert (Hz : z1 = z2 + 1) by nia.
  subst z1.
  assert (E1 : 2 * N1 = 2 * (z2 + 1) * D1 - D1) by nia.
  assert (E2 : 2 * N2 = 2 * z2 * D2 + D2) by nia.
  specialize (T1 (or_intror E1)). specialize (T2 (or_introl E2)).
  rewrite Z.even_add, T2 in T1. discriminate T1.
Qed.

Lemma rne_exact z D : 0 < D -> rne (z * D) D = z.
Proof.
  intros HD. unfold rne. rewrite Z.div_mul, Z.mod_mul by lia.
  replace (2 * 0 ?= D) with Lt by (symmetry; apply Z.compare_lt_iff; lia).
  reflexivity.
Qed.

Lemma rne_bounds N D lo hi :
  0 < D -> lo * D <= N -> N <= hi * D -> lo <= rne N D <= hi.
Proof.
  intros HD Hlo Hhi. split.
  - rewrite <- (rne_exact lo D HD). apply rne_monotone; nia.
  - rewrite <- (rne_exact hi D HD). apply rne_monotone; nia.
Qed.


Lemma fexp64_eq e : fexp64 e = Z.max (e - 53) (-1074).
Proof. reflexivity. Qed.

Lemma digits2_pos_size p : digits2_pos p = Pos.size p.
Proof. induction p; simpl; congruence. Qed.

Lemma Zdigits2_bounds m :
  0 < m -> 2 ^ (Zdigits2 m - 1) <= m < 2 ^ Zdigits2 m.
Proof.
  intros Hm. destruct m as [|p|p]; try lia. cbn [Zdigits2].
  rewrite digits2_pos_size.
  pose proof (Pos.size_gt p) as G. pose proof (Pos.size_le p) as L.
  apply Pos2Z.pos_lt_pos in G. apply Pos2Z.pos_le_pos in L.
  rewrite Pos2Z.inj_pow in G, L.
  change (Z.pos 2) with 2 in *.
  split; [|exact G].
  replace (Z.pos (Pos.size p)) with (Z.pos (Pos.size p) - 1 + 1) in L by lia.
  rewrite Z.pow_add_r in L by lia. change (2 ^ 1) with 2 in L. lia.
Qed.

Lemma Zdigits2_nonneg m : 0 <= m -> 0 <= Zdigits2 m.
Proof. destruct m; simpl; lia. Qed.

Lemma Zdigits2_upper m : 0 <= m -> m < 2 ^ Zdigits2 m.
Proof.
  intros Hm. destruct (Z.eq_dec m 0) as [->|Hne]; [reflexivity|].
  apply Zdigits2_bounds. lia.
Qed.

Lemma Zdigits2_unique m d :
  0 < m -> 2 ^ (d - 1) <= m < 2 ^ d -> Zdigits2 m = d.
Proof.
  intros Hm [L U]. destruct (Zdigits2_bounds m Hm) as [L' U'].
  pose proof (Zdigits2_nonneg m ltac:(lia)) as Hd.
  assert (Hd0 : 0 < d).
  { destruct (Z_lt_le_dec 0 d) as [|Hle]; [assumption|]. exfalso.
    destruct (Z.eq_dec d 0) as [->|];
      [simpl in U; lia | rewrite Z.pow_neg_r in U by lia; lia]. }
  destruct (Z.lt_trichotomy (Zdigits2 m) d) as [H|[H|H]]; [|assumption|].
  - exfalso. assert (2 ^ Zdigits2 m <= 2 ^ (d - 1)) by (apply Z.pow_le_mono_r; lia). lia.
  - exfalso. assert (2 ^ d <= 2 ^ (Zdigits2 m - 1)) by (apply Z.pow_le_mono_r; lia). lia.
Qed.

Lemma represents_of_loc N D :
  represents (shr_record_of_loc (N / D) (location_of N D)) N D.
Proof.
  split; [apply shr_m_of_loc | apply loc_of_shr_record_of_loc].
Qed.

(** [binary_round_aux] on a quotient [N / D] with its location rounds
    [N / (2 ^ n * D)] to nearest even, where [n] is the shift that brings the
    exponent up to the format's, and finishes. *)
Lemma binary_round_aux_spec s e N D :
  0 <= N -> 0 < D ->
  let n := Z.max 0 (fexp64 (Zdigits2 (N / D) + e) - e) in
  binary_round_aux prec emax s (N / D) e (location_of N D)
  = finish s (rne N (2 ^ n * D)) (e + n).
Proof.
  intros HN HD n. unfold binary_round_aux, shr_fexp at 1.
  pose proof (shr_represents _ e (fexp prec emax (Zdigits2 (N / D) + e) - e)
                N D HN HD (represents_of_loc N D)) as [Hr He].
  destruct (shr (shr_record_of_loc (N / D) (location_of N D)) e
              (fexp prec emax (Zdigits2 (N / D) + e) - e)) as [mrs' e'].
  cbn [fst snd] in Hr, He. subst e'.
  change (fexp prec emax (Zdigits2 (N / D) + e)) with (fexp64 (Zdigits2 (N / D) + e)) in *.
  fold n in Hr |- *.
  assert (HD' : 0 < 2 ^ n * D).
  { pose proof (Z.pow_pos_nonneg 2 n). lia. }
  rewrite (round_nearest_even_rne _ _ _ HD' Hr). reflexivity.
Qed.

Lemma finish_canonical s z t :
  0 <= z <= 2 ^ 53 -> -1074 <= t -> (-1074 < t -> 2 ^ 52 <= z) ->
  finish s z t = pack s z t.
Proof.
  intros Hz Ht Hn. unfold finish, pack, shr_fexp.
  destruct (Z.eqb_spec z 0) as [->|Hz0].
  - cbn [Zdigits2 Z.add shr_record_of_loc].
    change (fexp prec emax t) with (fexp64 t). rewrite fexp64_eq.
    replace (Z.max (t - 53) (-1074) - t) with (- (t - Z.max (t - 53) (-1074))) by lia.
    destruct (t - Z.max (t - 53) (-1074)) eqn:E; try lia; reflexivity.
  - destruct (Z.eqb_spec z (2 ^ 53)) as [->|Hz1].
    + change (Zdigits2 (2 ^ 53)) with 54.
      change (fexp prec emax (54 + t)) with (fexp64 (54 + t)). rewrite fexp64_eq.
      replace (Z.max (54 + t - 53) (-1074) - t) with 1 by lia.
      cbn. reflexivity.
    + assert (Hd : Zdigits2 z <= 53).
      { destruct (Zdigits2_bounds z ltac:(lia)) as [L _].
        destruct (Z_le_gt_dec (Zdigits2 z) 53); [assumption|exfalso].
        assert (2 ^ 53 <= 2 ^ (Zdigits2 z - 1)) by (apply Z.pow_le_mono_r; lia).
        lia. }
      change (fexp prec emax (Zdigits2 z + t)) with (fexp64 (Zdigits2 z + t)).
      rewrite fexp64_eq.
      replace (Z.max (Zdigits2 z + t - 53) (-1074) - t)
        with (- (t - Z.max (Zdigits2 z + t - 53) (-1074))) by lia.
      destruct (t - Z.max (Zdigits2 z + t - 53) (-1074)) eqn:E; try lia;
        cbn [Z.opp shr shr_record_of_loc shr_m];
        (destruct z as [|pz|pz]; try lia; reflexivity).
Qed.

Lemma div_lower N D : 0 < D -> (N / D) * D <= N.
Proof. intros HD. pose proof (Z.mul_div_le N D HD). lia. Qed.

Lemma div_upper N D : 0 < D -> N < (N / D + 1) * D.
Proof.
  intros HD. pose proof (Z.div_mod N D ltac:(lia)).
  pose proof (Z.mod_pos_bound N D HD). lia.
Qed.

Lemma rounded_range N D e :
  0 <= N -> 0 < D ->
  let t := fexp64 (Zdigits2 (N / D) + e) in
  e <= t ->
  let z := rne N (2 ^ (t - e) * D) in
  0 <= z <= 2 ^ 53 /\ -1074 <= t /\ (-1074 < t -> 2 ^ 52 <= z).
Proof.
  intros HN HD t Het z.
  pose proof (Z.div_pos N D HN HD) as Hm.
  pose proof (Zdigits2_nonneg _ Hm) as Hd.
  pose proof (Zdigits2_upper _ Hm) as Hu.
  pose proof (div_lower N D HD) as Hlo. pose proof (div_upper N D HD) as Hup.
  assert (Ht : t = Z.max (Zdigits2 (N / D) + e - 53) (-1074)) by reflexivity.
  set (m := N / D) in *. set (d := Zdigits2 m) in *.
  set (n := t - e) in *.
  assert (Hn : 0 <= n) by (unfold n; lia).
  assert (Hp : 0 < 2 ^ n) by (apply Z.pow_pos_nonneg; lia).
  assert (HD' : 0 < 2 ^ n * D) by nia.
  assert (Hdn : 2 ^ d <= 2 ^ 53 * 2 ^ n).
  { rewrite <- Z.pow_add_r by lia. apply Z.pow_le_mono_r; lia. }
  split; [|split; [lia|]].
  - apply rne_bounds; [assumption|nia|nia].
  - intros Hsub.
    assert (Hdn' : d = n + 53) by lia.
    assert (Hmpos : 0 < m).
    { destruct (Z.eq_dec m 0) as [E|E]; [|lia].
      exfalso. unfold d in Hdn'. rewrite E in Hdn'. simpl in Hdn'. lia. }
    destruct (Zdigits2_bounds m Hmpos) as [L _]. fold d in L.
    replace (d - 1) with (52 + n) in L by lia.
    rewrite Z.pow_add_r in L by lia.
    apply (rne_bounds N (2 ^ n * D) (2 ^ 52) (2 ^ 53) HD'); nia.
Qed.

(** For a quotient whose format exponent is not below its own, rounding
    yields a canonical float. *)
Theorem binary_round_aux_canonical s e N D :
  0 <= N -> 0 < D ->
  let t := fexp64 (Zdigits2 (N / D) + e) in
  e <= t ->
  binary_round_aux prec emax s (N / D) e (location_of N D)
  = pack s (rne N (2 ^ (t - e) * D)) t.
Proof.
  intros HN HD t Het.
  rewrite (binary_round_aux_spec s e N D HN HD).
  fold t. rewrite Z.max_r by lia.
  replace (e + (t - e)) with t by lia.
  destruct (rounded_range N D e HN HD Het) as [Hz [Ht Hs]]. fold t in Hz, Ht, Hs.
  apply finish_canonical; assumption.
Qed.


(** ** The order of rounded values *)

Ltac key_le_tac :=
  unfold key_le, key_lt;
  lazymatch goal with
  | |- _ \/ (?a1, ?a2, ?a3) = (?b1, ?b2, ?b3) =>
      let H := fresh in
      assert (H : (a1 < b1 \/ (a1 = b1 /\ (a2 < b2 \/ (a2 = b2 /\ a3 < b3))))
                  \/ (a1 = b1 /\ a2 = b2 /\ a3 = b3)) by lia;
      destruct H as [H|[? [? ?]]];
      [left; exact H | right; congruence]
  end.

Lemma pack_key s z t :
  0 <= z ->
  exists k, sf_key (pack s z t) = Some k /\
    (if s then key_le (-2, 0, 0) k /\ key_le k (0, 0, 0)
     else key_le (0, 0, 0) k /\ key_le k (2, 0, 0)).
Proof.
  intros Hz. unfold pack.
  destruct (Z.eqb_spec z 0) as [->|Hz0].
  - exists (0, 0, 0). split; [reflexivity|].
    destruct s; split; key_le_tac.
  - destruct (Z.eqb_spec z (2 ^ 53)) as [->|Hz1].
    + destruct (t + 1 <=? 971); destruct s; cbn [sf_key];
        eexists; (split; [reflexivity|]); split; key_le_tac.
    + destruct (t <=? 971); destruct s; cbn [sf_key];
        eexists; (split; [reflexivity|]); split; key_le_tac.
Qed.

Lemma pack_le_pos z1 t1 z2 t2 :
  0 <= z1 <= 2 ^ 53 -> 0 <= z2 <= 2 ^ 53 ->
  (t1 = t2 /\ z1 <= z2) \/ (t1 < t2 /\ 2 ^ 52 <= z2) ->
  sf_le (pack false z1 t1) (pack false z2 t2).
Proof.
  intros H1 H2 Ho. unfold sf_le, pack.
  assert (P52 : Z.pos (2 ^ 52) = 2 ^ 52) by reflexivity.
  assert (V52 : 2 ^ 52 = 4503599627370496) by reflexivity.
  assert (V53 : 2 ^ 53 = 9007199254740992) by reflexivity.
  rewrite V52, V53 in *.
  assert (Ho' : (t1 = t2 /\ z1 = z2) \/ (t1 = t2 /\ z1 < z2)
                \/ (t1 < t2 /\ 4503599627370496 <= z2)) by lia.
  clear Ho. destruct Ho' as [Ho|[Ho|Ho]];
  (destruct (Z.eqb_spec z1 0) as [E1|E1];
    [|destruct (Z.eqb_spec z1 9007199254740992) as [F1|F1];
      [destruct (Z.leb_spec (t1 + 1) 971)|destruct (Z.leb_spec t1 971)]]);
    (destruct (Z.eqb_spec z2 0) as [E2|E2];
     [|destruct (Z.eqb_spec z2 9007199254740992) as [F2|F2];
       [destruct (Z.leb_spec (t2 + 1) 971)|destruct (Z.leb_spec t2 971)]]);
    cbn [sf_key]; do 2 eexists; (split; [reflexivity|split; [reflexivity|]]);
    rewrite ?Z2Pos.id by lia; rewrite ?P52;
    first [ exfalso; lia | key_le_tac ].
Qed.

(** Rounding is monotone: of two quotients scaled by powers of two, the
    smaller rounds to the smaller float. *)
Theorem round_le N1 D1 e1 N2 D2 e2 :
  0 <= N1 -> 0 < D1 -> 0 <= N2 -> 0 < D2 ->
  let t1 := fexp64 (Zdigits2 (N1 / D1) + e1) in
  let t2 := fexp64 (Zdigits2 (N2 / D2) + e2) in
  e1 <= t1 -> e2 <= t2 ->
  N1 * D2 * 2 ^ (e1 - Z.min e1 e2) <= N2 * D1 * 2 ^ (e2 - Z.min e1 e2) ->
  sf_le (pack false (rne N1 (2 ^ (t1 - e1) * D1)) t1)
        (pack false (rne N2 (2 ^ (t2 - e2) * D2)) t2).
Proof.
  intros HN1 HD1 HN2 HD2 t1 t2 He1 He2 Hv.
  destruct (rounded_range N1 D1 e1 HN1 HD1 He1) as [Hz1 [Ht1 Hs1]].
  destruct (rounded_range N2 D2 e2 HN2 HD2 He2) as [Hz2 [Ht2 Hs2]].
  fold t1 in Hz1, Ht1, Hs1. fold t2 in Hz2, Ht2, Hs2.
  assert (Pn1 : 0 < 2 ^ (t1 - e1)) by (apply Z.pow_pos_nonneg; lia).
  assert (Pn2 : 0 < 2 ^ (t2 - e2)) by (apply Z.pow_pos_nonneg; lia).
  destruct (Z.lt_trichotomy t1 t2) as [Hlt|[Heq|Hgt]].
  - apply pack_le_pos; [assumption|assumption|].
    right. split; [assumption|]. apply Hs2. lia.
  - apply pack_le_pos; [assumption|assumption|].
    left. split; [assumption|].
    apply rne_monotone; [nia|nia|].
    destruct (Z_le_gt_dec e1 e2) as [Hle|Hge].
    + rewrite Z.min_l, Z.sub_diag, Z.pow_0_r in Hv by lia.
      replace (t1 - e1) with ((t2 - e2) + (e2 - e1)) by lia.
      rewrite Z.pow_add_r by lia.
      assert (0 < 2 ^ (e2 - e1)) by (apply Z.pow_pos_nonneg; lia).
      nia.
    + rewrite Z.min_r, Z.sub_diag, Z.pow_0_r in Hv by lia.
      replace (t2 - e2) with ((t1 - e1) + (e1 - e2)) by lia.
      rewrite Z.pow_add_r by lia.
      assert (0 < 2 ^ (e1 - e2)) by (apply Z.pow_pos_nonneg; lia).
      nia.
  - exfalso.
    set (c := Z.min e1 e2) in *.
    assert (Ht1' : t1 = Z.max (Zdigits2 (N1 / D1) + e1 - 53) (-1074))
      by reflexivity.
    assert (Ht2' : t2 = Z.max (Zdigits2 (N2 / D2) + e2 - 53) (-1074))
      by reflexivity.
    pose proof (Z.div_pos N1 D1 HN1 HD1) as Hm1.
    pose proof (Z.div_pos N2 D2 HN2 HD2) as Hm2.
    pose proof (div_lower N1 D1 HD1) as Hlo1.
    pose proof (div_upper N2 D2 HD2) as Hup2.
    pose proof (Zdigits2_upper _ Hm2) as Hu2.
    pose proof (Zdigits2_nonneg _ Hm2) as Hd2.
    set (m1 := N1 / D1) in *. set (m2 := N2 / D2) in *.
    set (d1 := Zdigits2 m1) in *. set (d2 := Zdigits2 m2) in *.
    assert (Hm1pos : 0 < m1).
    { destruct (Z.eq_dec m1 0) as [E|E]; [|lia].
      exfalso. unfold d1 in Ht1'. rewrite E in Ht1'. simpl in Ht1'. lia. }
    destruct (Zdigits2_bounds m1 Hm1pos) as [L1 _]. fold d1 in L1.
    set (a1 := e1 - c) in *. set (a2 := e2 - c) in *.
    assert (Ha1 : 0 <= a1) by (unfold a1, c; lia).
    assert (Ha2 : 0 <= a2) by (unfold a2, c; lia).
    assert (Pa1 : 0 < 2 ^ a1) by (apply Z.pow_pos_nonneg; lia).
    assert (Pa2 : 0 < 2 ^ a2) by (apply Z.pow_pos_nonneg; lia).
    assert (Hsum : t1 - c < t2 - c -> False) by lia.
    assert (Ea1 : a1 = e1 - c) by reflexivity.
    assert (Ea2 : a2 = e2 - c) by reflexivity.
    clearbody t1 t2 d1 d2 m1 m2 a1 a2 c.
    assert (Low : 2 ^ (d1 - 1 + a1) * (D1 * D2) <= N1 * D2 * 2 ^ a1).
    { rewrite Z.pow_add_r by lia.
      assert (B : 2 ^ (d1 - 1) * D1 <= N1) by nia.
      assert (P : 0 < D2 * 2 ^ a1) by nia.
      replace (2 ^ (d1 - 1) * 2 ^ a1 * (D1 * D2))
        with (2 ^ (d1 - 1) * D1 * (D2 * 2 ^ a1)) by ring.
      replace (N1 * D2 * 2 ^ a1) with (N1 * (D2 * 2 ^ a1)) by ring.
      apply Z.mul_le_mono_nonneg_r; lia. }
    assert (Up : N2 * D1 * 2 ^ a2 < 2 ^ (d2 + a2) * (D1 * D2)).
    { rewrite Z.pow_add_r by lia.
      assert (B : N2 < 2 ^ d2 * D2) by nia.
      assert (P : 0 < D1 * 2 ^ a2) by nia.
      replace (2 ^ d2 * 2 ^ a2 * (D1 * D2))
        with (2 ^ d2 * D2 * (D1 * 2 ^ a2)) by ring.
      replace (N2 * D1 * 2 ^ a2) with (N2 * (D1 * 2 ^ a2)) by ring.
      apply Z.mul_lt_mono_pos_r; lia. }
    assert (Hpow : 2 ^ (d1 - 1 + a1) < 2 ^ (d2 + a2)) by nia.
    apply Z.pow_lt_mono_r_iff in Hpow; [|lia|lia].
    lia.
Qed.

(** ** Valid floats *)

Lemma valid_finite s m e :
  valid_binary (S754_finite s m e) = true ->
  fexp64 (Zdigits2 (Z.pos m) + e) = e /\ e <= 971.
Proof.
  cbn [SpecFloat.valid_binary]. unfold bounded, canonical_mantissa.
  intros H. apply andb_prop in H. destruct H as [H1 H2].
  apply Z.eqb_eq in H1. apply Z.leb_le in H2.
  split; [exact H1 | exact H2].
Qed.

Lemma valid_finite_range s m e :
  valid_binary (S754_finite s m e) = true ->
  -1074 <= e <= 971 /\ Zdigits2 (Z.pos m) <= 53 /\
  (-1074 < e -> Zdigits2 (Z.pos m) = 53).
Proof.
  intros H. destruct (valid_finite s m e H) as [Hc He].
  rewrite fexp64_eq in Hc. lia.
Qed.

Lemma pack_opp s z t : pack (negb s) z t = SFopp (pack s z t).
Proof.
  unfold pack.
  destruct (z =? 0); [reflexivity|].
  destruct (z =? 2 ^ 53); [destruct (t + 1 <=? 971); reflexivity|].
  destruct (t <=? 971); reflexivity.
Qed.

Lemma round_quot_opp s N D e :
  round_quot (negb s) N D e = SFopp (round_quot s N D e).
Proof. apply pack_opp. Qed.

Lemma Zdigits2_mul a b :
  0 < a -> 0 < b -> Zdigits2 a + Zdigits2 b - 1 <= Zdigits2 (a * b).
Proof.
  intros Ha Hb.
  destruct (Zdigits2_bounds a Ha) as [La _].
  destruct (Zdigits2_bounds b Hb) as [Lb _].
  assert (Hab : 0 < a * b) by nia.
  destruct (Zdigits2_bounds (a * b) Hab) as [_ U].
  pose proof (Zdigits2_nonneg a ltac:(lia)) as Na.
  pose proof (Zdigits2_nonneg b ltac:(lia)) as Nb.
  assert (Pa : 0 < Zdigits2 a).
  { destruct a; simpl in *; lia. }
  assert (Pb : 0 < Zdigits2 b).
  { destruct b; simpl in *; lia. }
  assert (L : 2 ^ (Zdigits2 a - 1 + (Zdigits2 b - 1)) <= a * b).
  { rewrite Z.pow_add_r by lia.
    assert (0 < 2 ^ (Zdigits2 a - 1)) by (apply Z.pow_pos_nonneg; lia).
    assert (0 < 2 ^ (Zdigits2 b - 1)) by (apply Z.pow_pos_nonneg; lia).
    nia. }
  assert (Hlt : 2 ^ (Zdigits2 a - 1 + (Zdigits2 b - 1)) < 2 ^ Zdigits2 (a * b))
    by lia.
  apply Z.pow_lt_mono_r_iff in Hlt; [lia|lia|].
  apply Zdigits2_nonneg. lia.
Qed.

(** The product of two valid finite floats. *)
Lemma SFmul_finite sx mx ex sy my ey :
  valid_binary (S754_finite sx mx ex) = true ->
  valid_binary (S754_finite sy my ey) = true ->
  SF64mul (S754_finite sx mx ex) (S754_finite sy my ey)
  = round_quot (xorb sx sy) (Z.pos mx * Z.pos my) 1 (ex + ey)
  /\ ex + ey <= fexp64 (Zdigits2 (Z.pos mx * Z.pos my / 1) + (ex + ey)).
Proof.
  intros Vx Vy.
  destruct (valid_finite_range _ _ _ Vx) as [Rx [Dx Nx]].
  destruct (valid_finite_range _ _ _ Vy) as [Ry [Dy Ny]].
  pose proof (Zdigits2_mul (Z.pos mx) (Z.pos my) ltac:(lia) ltac:(lia)) as Hd.
  assert (Px : 0 < Zdigits2 (Z.pos mx)) by (simpl; lia).
  assert (Py : 0 < Zdigits2 (Z.pos my)) by (simpl; lia).
  assert (Het : ex + ey
                <= fexp64 (Zdigits2 (Z.pos mx * Z.pos my / 1) + (ex + ey))).
  { rewrite Z.div_1_r, fexp64_eq.
    destruct (Z_le_gt_dec (ex + ey) (-1074)); [lia|].
    destruct (Z_le_gt_dec ex (-1074)); destruct (Z_le_gt_dec ey (-1074)); lia. }
  split; [|exact Het].
  unfold SF64mul, SFmul, round_quot.
  pose proof (binary_round_aux_canonical (xorb sx sy) (ex + ey)
                (Z.pos mx * Z.pos my) 1 ltac:(lia) ltac:(lia) Het) as H.
  rewrite Z.div_1_r in H.
  replace (location_of (Z.pos mx * Z.pos my) 1) with loc_Exact in H
    by (unfold location_of; rewrite Z.mod_1_r; reflexivity).
  rewrite Z.div_1_r. exact H.
Qed.

(** ** Order facts *)

Lemma sf_le_intro x y a b :
  sf_key x = Some a -> sf_key y = Some b -> key_le a b -> sf_le x y.
Proof. intros Hx Hy Hab. exists a, b. auto. Qed.

Lemma sf_le_trans x y z : sf_le x y -> sf_le y z -> sf_le x z.
Proof.
  intros [a [b [Ha [Hb Hab]]]] [b' [c [Hb' [Hc Hbc]]]].
  assert (b' = b) by congruence. subst b'.
  exists a, c. split; [assumption|split; [assumption|]].
  destruct Hab as [Hab| ->]; destruct Hbc as [Hbc| ->]; unfold key_le; auto.
  left. eapply key_lt_trans; eassumption.
Qed.

Lemma sf_le_opp x y : sf_le x y -> sf_le (SFopp y) (SFopp x).
Proof.
  intros [a [b [Ha [Hb Hab]]]].
  destruct x as [[|]|[|]| |[|] mx ex], y as [[|]|[|]| |[|] my ey];
    cbn [sf_key] in Ha, Hb; try discriminate;
    injection Ha as <-; injection Hb as <-;
    (eapply sf_le_intro; [reflexivity|reflexivity|]);
    (destruct Hab as [Hab|Hab];
     [unfold key_lt in Hab | inversion Hab; subst]);
    key_le_tac.
Qed.

Lemma leb_sf_le (x y : float) :
  (x <=? y)%float = true <-> sf_le (Prim2SF x) (Prim2SF y).
Proof.
  split.
  - intros H. destruct (float_cmp x y) as [? ? Hn|a b Ha Hb Hab|a Ha Hb|? ? ? ? ? ? Hn];
      try congruence.
    + exact (sf_le_intro _ _ _ _ Ha Hb (or_introl Hab)).
    + exact (sf_le_intro _ _ _ _ Ha Hb (or_intror eq_refl)).
  - intros [a [b [Ha [Hb Hab]]]].
    destruct (float_cmp x y) as [Hn|a' b' Ha' Hb' Hab'|a' Ha' Hb'|a' b' Ha' Hb' Hab'];
      unfold fkey in *; try assumption.
    + destruct Hn; congruence.
    + assert (a' = a) by congruence. assert (b' = b) by congruence. subst.
      exfalso. destruct Hab as [Hab| ->].
      * exact (key_lt_asym _ _ Hab Hab').
      * exact (key_lt_irrefl _ Hab').
Qed.

Lemma is_nan_spec (x : float) :
  is_nan x = true <-> Prim2SF x = S754_nan.
Proof.
  rewrite is_nan_key. unfold fkey.
  destruct (Prim2SF x) as [[|]|[|]| |[|] m e]; simpl; split; congruence.
Qed.

(** The value of a canonical float grows with its key. *)
Lemma canonical_value_le s1 m1 e1 s2 m2 e2 :
  valid_binary (S754_finite s1 m1 e1) = true ->
  valid_binary (S754_finite s2 m2 e2) = true ->
  key_le (1, e1, Z.pos m1) (1, e2, Z.pos m2) ->
  Z.pos m1 * 2 ^ (e1 - Z.min e1 e2) <= Z.pos m2 * 2 ^ (e2 - Z.min e1 e2).
Proof.
  intros V1 V2 Hk.
  destruct (valid_finite_range _ _ _ V1) as [R1 [D1 N1]].
  destruct (valid_finite_range _ _ _ V2) as [R2 [D2 N2]].
  assert (Hc : e1 < e2 \/ (e1 = e2 /\ Z.pos m1 <= Z.pos m2)).
  { destruct Hk as [Hk|Hk]; [unfold key_lt in Hk; lia|].
    inversion Hk; subst. right. split; lia. }
  destruct Hc as [Hlt|[-> Hm]].
  - rewrite Z.min_l, Z.sub_diag, Z.pow_0_r by lia.
    destruct (Zdigits2_bounds (Z.pos m1) ltac:(lia)) as [_ U1].
    destruct (Zdigits2_bounds (Z.pos m2) ltac:(lia)) as [L2 _].
    rewrite N2 in L2 by lia. change (2 ^ (53 - 1)) with 4503599627370496 in L2.
    assert (U1' : Z.pos m1 < 2 ^ 53).
    { eapply Z.lt_le_trans; [exact U1|]. apply Z.pow_le_mono_r; lia. }
    change (2 ^ 53) with 9007199254740992 in U1'.
    assert (P : 2 ^ 1 <= 2 ^ (e2 - e1)) by (apply Z.pow_le_mono_r; lia).
    change (2 ^ 1) with 2 in P. nia.
  - rewrite Z.min_id, Z.sub_diag, Z.pow_0_r. lia.
Qed.

(** ** Multiplication is monotone *)

Lemma round_quot_key s N D e :
  0 <= N -> 0 < D -> e <= fexp64 (Zdigits2 (N / D) + e) ->
  exists k, sf_key (round_quot s N D e) = Some k /\
    (if s then key_le (-2, 0, 0) k /\ key_le k (0, 0, 0)
     else key_le (0, 0, 0) k /\ key_le k (2, 0, 0)).
Proof.
  intros HN HD He. unfold round_quot. apply pack_key.
  destruct (rounded_range N D e HN HD He) as [Hz _]. lia.
Qed.

(** Two positive products with a common first factor, in the order of the
    second factors. *)
Lemma round_quot_mul_le mx ex s1 m1 e1 s2 m2 e2 :
  valid_binary (S754_finite false mx ex) = true ->
  valid_binary (S754_finite s1 m1 e1) = true ->
  valid_binary (S754_finite s2 m2 e2) = true ->
  key_le (1, e1, Z.pos m1) (1, e2, Z.pos m2) ->
  sf_le (round_quot false (Z.pos mx * Z.pos m1) 1 (ex + e1))
        (round_quot false (Z.pos mx * Z.pos m2) 1 (ex + e2)).
Proof.
  intros Vx V1 V2 Hk.
  destruct (SFmul_finite false mx ex s1 m1 e1 Vx V1) as [_ H1].
  destruct (SFmul_finite false mx ex s2 m2 e2 Vx V2) as [_ H2].
  pose proof (canonical_value_le _ _ _ _ _ _ V1 V2 Hk) as Hv.
  unfold round_quot.
  apply round_le; try lia; try assumption.
  rewrite Z.add_min_distr_l.
  replace (ex + e1 - (ex + Z.min e1 e2)) with (e1 - Z.min e1 e2) by lia.
  replace (ex + e2 - (ex + Z.min e1 e2)) with (e2 - Z.min e1 e2) by lia.
  rewrite !Z.mul_1_r.
  assert (0 < 2 ^ (e1 - Z.min e1 e2)) by (apply Z.pow_pos_nonneg; lia).
  assert (0 < 2 ^ (e2 - Z.min e1 e2)) by (apply Z.pow_pos_nonneg; lia).
  nia.
Qed.

Lemma SFmul_key_pos mx ex y :
  valid_binary (S754_finite false mx ex) = true ->
  valid_binary y = true ->
  match y with
  | S754_nan => True
  | S754_zero _ => sf_key (SF64mul (S754_finite false mx ex) y) = Some (0, 0, 0)
  | S754_infinity false =>
      sf_key (SF64mul (S754_finite false mx ex) y) = Some (2, 0, 0)
  | S754_infinity true =>
      sf_key (SF64mul (S754_finite false mx ex) y) = Some (-2, 0, 0)
  | S754_finite s _ _ =>
      exists k, sf_key (SF64mul (S754_finite false mx ex) y) = Some k /\
        (if s then key_le (-2, 0, 0) k /\ key_le k (0, 0, 0)
         else key_le (0, 0, 0) k /\ key_le k (2, 0, 0))
  end.
Proof.
  intros Vx Vy. destruct y as [s|[|]| |s my ey]; try reflexivity; try exact I.
  destruct (SFmul_finite false mx ex s my ey Vx Vy) as [E He].
  rewrite E. cbn [xorb]. apply round_quot_key; [lia|lia|exact He].
Qed.

Lemma SFmul_le_pos mx ex y1 y2 :
  valid_binary (S754_finite false mx ex) = true ->
  valid_binary y1 = true -> valid_binary y2 = true ->
  sf_le y1 y2 ->
  sf_le (SF64mul (S754_finite false mx ex) y1)
        (SF64mul (S754_finite false mx ex) y2).
Proof.
  intros Vx V1 V2 Hle.
  pose proof (SFmul_key_pos mx ex y1 Vx V1) as K1.
  pose proof (SFmul_key_pos mx ex y2 Vx V2) as K2.
  destruct Hle as [a [b [Ha [Hb Hab]]]].
  destruct y1 as [s1|[|]| |[|] m1 e1]; cbn [sf_key] in Ha; try discriminate;
    destruct y2 as [s2|[|]| |[|] m2 e2]; cbn [sf_key] in Hb; try discriminate;
    injection Ha as <-; injection Hb as <-;
    try (exfalso; destruct Hab as [Hab|Hab];
         [unfold key_lt in Hab; lia | discriminate Hab]).
  all: lazymatch goal with
       | |- sf_le (SF64mul _ (S754_finite true _ _))
                  (SF64mul _ (S754_finite true _ _)) => idtac
       | |- sf_le (SF64mul _ (S754_finite false _ _))
                  (SF64mul _ (S754_finite false _ _)) => idtac
       | |- _ =>
           repeat match goal with
                  | K : exists _, _ |- _ => destruct K as [? [? [? ?]]]
                  end;
           (eapply sf_le_intro; [eassumption|eassumption|]);
           repeat match goal with
                  | k : (Z * Z * Z)%type |- _ => destruct k as [[? ?] ?]
                  end;
           unfold key_le, key_lt in *;
           repeat match goal with
                  | H : _ \/ (_, _, _) = (_, _, _) |- _ =>
                      destruct H as [H|H]; [|inversion H; subst; clear H]
                  end;
           first [ left; lia | right; reflexivity ]
       end.
  - (* both negative *)
    destruct (SFmul_finite false mx ex true m1 e1 Vx V1) as [E1 _].
    destruct (SFmul_finite false mx ex true m2 e2 Vx V2) as [E2 _].
    rewrite E1, E2. cbn [xorb].
    change true with (negb false). rewrite !round_quot_opp.
    apply sf_le_opp.
    apply (round_quot_mul_le mx ex true m2 e2 true m1 e1 Vx V2 V1).
    destruct Hab as [Hab|Hab];
      [unfold key_lt in Hab | inversion Hab; subst]; key_le_tac.
  - (* both positive *)
    destruct (SFmul_finite false mx ex false m1 e1 Vx V1) as [E1 _].
    destruct (SFmul_finite false mx ex false m2 e2 Vx V2) as [E2 _].
    rewrite E1, E2. cbn [xorb].
    apply (round_quot_mul_le mx ex false m1 e1 false m2 e2 Vx V1 V2).
    exact Hab.
Qed.

Lemma Prim2SF_zero : Prim2SF 0%float = S754_zero false.
Proof. reflexivity. Qed.

Lemma SFmul_le_nonneg x y1 y2 :
  valid_binary x = true -> valid_binary y1 = true -> valid_binary y2 = true ->
  sf_le (S754_zero false) x -> sf_le y1 y2 ->
  SF64mul x y1 <> S754_nan -> SF64mul x y2 <> S754_nan ->
  sf_le (SF64mul x y1) (SF64mul x y2).
Proof.
  intros Vx V1 V2 Hx Hle N1 N2.
  destruct x as [sx|[|]| |[|] mx ex];
    try (exfalso; destruct Hx as [a [b [Ha [Hb Hab]]]];
         cbn [sf_key] in Ha, Hb;
         first [ discriminate Hb
               | injection Ha as <-; injection Hb as <-;
                 destruct Hab as [Hab|Hab];
                 [unfold key_lt in Hab; lia | discriminate Hab] ]).
  - (* a zero *)
    destruct y1 as [s1|s1| |s1 m1 e1], y2 as [s2|s2| |s2 m2 e2];
      cbn [SF64mul SFmul] in *; try congruence;
      (eapply sf_le_intro; [reflexivity|reflexivity|right; reflexivity]).
  - (* plus infinity *)
    destruct Hle as [a [b [Ha [Hb Hab]]]].
    destruct y1 as [s1|[|]| |[|] m1 e1], y2 as [s2|[|]| |[|] m2 e2];
      cbn [SF64mul SFmul xorb] in *; try congruence;
      cbn [sf_key] in Ha, Hb; injection Ha as <-; injection Hb as <-;
      try (exfalso; destruct Hab as [Hab|Hab];
           [unfold key_lt in Hab; lia | discriminate Hab]);
      (eapply sf_le_intro; [reflexivity|reflexivity|]); key_le_tac.
  - (* finite and positive *)
    apply SFmul_le_pos; assumption.
Qed.

(** Multiplying by a factor that is not negative keeps the order, as long
    as both products are numbers. *)
Theorem mul_le_mono (v f1 f2 : float) :
  (0 <=? v)%float = true -> (f1 <=? f2)%float = true ->
  is_nan (v * f1)%float = false -> is_nan (v * f2)%float = false ->
  (v * f1 <=? v * f2)%float = true.
Proof.
  intros Hv Hf N1 N2.
  apply leb_sf_le in Hv. apply leb_sf_le in Hf. apply leb_sf_le.
  rewrite Prim2SF_zero in Hv. rewrite !mul_spec.
  apply SFmul_le_nonneg; try apply Prim2SF_valid; try assumption.
  - rewrite <- mul_spec. intros E. apply is_nan_spec in E. congruence.
  - rewrite <- mul_spec. intros E. apply is_nan_spec in E. congruence.
Qed.

(** ** Division *)

Lemma new_location_spec D r :
  0 < D -> 0 <= r < D ->
  new_location D r
  = if r =? 0 then loc_Exact else loc_Inexact (2 * r ?= D).
Proof.
  intros HD Hr. unfold new_location, new_location_even, new_location_odd.
  destruct (Z.even D) eqn:Ev; [reflexivity|].
  destruct (r =? 0); [reflexivity|]. f_equal.
  assert (Hodd : Z.odd D = true) by (rewrite <- Z.negb_even, Ev; reflexivity).
  apply Z.odd_spec in Hodd. destruct Hodd as [k Hk].
  destruct (Z.compare_spec (2 * r + 1) D);
    destruct (Z.compare_spec (2 * r) D); try reflexivity; lia.
Qed.

Lemma Zdigits2_lower q k : 0 <= k -> 2 ^ k <= q -> k + 1 <= Zdigits2 q.
Proof.
  intros Hk Hq.
  assert (Hpos : 0 < q) by (pose proof (Z.pow_pos_nonneg 2 k); lia).
  destruct (Zdigits2_bounds q Hpos) as [_ U].
  assert (Hlt : 2 ^ k < 2 ^ Zdigits2 q) by lia.
  apply Z.pow_lt_mono_r_iff in Hlt; [lia|lia|].
  apply Zdigits2_nonneg. lia.
Qed.

Lemma SFdiv_finite sx mx ex sy my ey :
  valid_binary (S754_finite sx mx ex) = true ->
  valid_binary (S754_finite sy my ey) = true ->
  let e' := div_exp (Zdigits2 (Z.pos mx)) ex (Zdigits2 (Z.pos my)) ey in
  let N := Z.pos mx * 2 ^ (ex - ey - e') in
  0 <= ex - ey - e' /\
  e' <= fexp64 (Zdigits2 (N / Z.pos my) + e') /\
  SF64div (S754_finite sx mx ex) (S754_finite sy my ey)
  = round_quot (xorb sx sy) N (Z.pos my) e'.
Proof.
  intros Vx Vy e' N.
  destruct (valid_finite_range _ _ _ Vx) as [Rx [Dx Nx]].
  destruct (valid_finite_range _ _ _ Vy) as [Ry [Dy Ny]].
  set (dx := Zdigits2 (Z.pos mx)) in *. set (dy := Zdigits2 (Z.pos my)) in *.
  assert (Pdx : 0 < dx) by (unfold dx; simpl; lia).
  assert (Pdy : 0 < dy) by (unfold dy; simpl; lia).
  assert (He' : e' = Z.min (Z.max (dx + ex - (dy + ey) - 53) (-1074)) (ex - ey))
    by reflexivity.
  assert (Hs : 0 <= ex - ey - e') by lia.
  assert (P2 : 0 < 2 ^ (ex - ey - e')) by (apply Z.pow_pos_nonneg; lia).
  assert (HN : 0 <= N) by (unfold N; nia).
  assert (Hcan : e' <= fexp64 (Zdigits2 (N / Z.pos my) + e')).
  { rewrite fexp64_eq.
    destruct (Z_le_gt_dec e' (-1074)) as [|Hbig]; [lia|].
    assert (Hk : 53 <= dx + (ex - ey - e') - dy) by lia.
    assert (Hq : 2 ^ (dx + (ex - ey - e') - dy - 1) <= N / Z.pos my).
    { apply Z.div_le_lower_bound; [lia|].
      destruct (Zdigits2_bounds (Z.pos mx) ltac:(lia)) as [Lx _].
      destruct (Zdigits2_bounds (Z.pos my) ltac:(lia)) as [_ Uy].
      fold dx in Lx. fold dy in Uy. unfold N.
      assert (E : 2 ^ (dx - 1) * 2 ^ (ex - ey - e')
                  = 2 ^ dy * 2 ^ (dx + (ex - ey - e') - dy - 1)).
      { rewrite <- !Z.pow_add_r by lia. f_equal. lia. }
      assert (0 < 2 ^ (dx + (ex - ey - e') - dy - 1))
        by (apply Z.pow_pos_nonneg; lia).
      nia. }
    pose proof (Zdigits2_lower (N / Z.pos my)
                  (dx + (ex - ey - e') - dy - 1) ltac:(lia) Hq). lia. }
  split; [exact Hs|]. split; [exact Hcan|].
  pose proof (binary_round_aux_canonical (xorb sx sy) e' N (Z.pos my)
                HN ltac:(lia) Hcan) as H.
  unfold round_quot. rewrite <- H. clear H.
  unfold SF64div, SFdiv, SFdiv_core_binary.
  change (Z.min (fexp prec emax
                   (Zdigits2 (Z.pos mx) + ex - (Zdigits2 (Z.pos my) + ey)))
                (ex - ey)) with e'.
  assert (Hm' : match ex - ey - e' with
                | Z.pos _ => Z.shiftl (Z.pos mx) (ex - ey - e')
                | 0 => Z.pos mx
                | Z.neg _ => 0
                end = N).
  { unfold N. clear Hcan HN. destruct (ex - ey - e') eqn:E; try lia.
    apply Z.shiftl_mul_pow2. lia. }
  rewrite Hm'.
  change (Z.div_eucl N (Z.pos my)) with (Z.div_eucl N (Z.pos my)).
  assert (Hde : Z.div_eucl N (Z.pos my) = (N / Z.pos my, N mod Z.pos my)).
  { unfold Z.div, Z.modulo. destruct (Z.div_eucl N (Z.pos my)). reflexivity. }
  rewrite Hde.
  rewrite new_location_spec by (try apply Z.mod_pos_bound; lia).
  reflexivity.
Qed.

Lemma SFone_eq : Prim2SF 1%float = S754_finite false (2 ^ 52)%positive (-52).
Proof. reflexivity. Qed.

(** A finite float divided by itself is one. *)
Lemma SFdiv_self s m e :
  valid_binary (S754_finite s m e) = true ->
  SF64div (S754_finite s m e) (S754_finite s m e)
  = S754_finite false (2 ^ 52)%positive (-52).
Proof.
  intros V.
  destruct (SFdiv_finite s m e s m e V V) as [_ [_ E]]. rewrite E. clear E.
  rewrite xorb_nilpotent.
  unfold div_exp.
  replace (Zdigits2 (Z.pos m) + e - (Zdigits2 (Z.pos m) + e)) with 0 by lia.
  rewrite Z.sub_diag. change (Z.min (fexp64 0) 0) with (-53).
  replace (0 - -53) with 53 by lia.
  unfold round_quot.
  replace (Z.pos m * 2 ^ 53 / Z.pos m) with (2 ^ 53)
    by (symmetry; rewrite Z.mul_comm; apply Z.div_mul; lia).
  change (fexp64 (Zdigits2 (2 ^ 53) + -53)) with (-52).
  change (-52 - -53) with 1. change (2 ^ 1) with 2.
  replace (Z.pos m * 2 ^ 53) with (2 ^ 52 * (2 * Z.pos m))
    by (change (2 ^ 53) with (2 ^ 52 * 2); ring).
  rewrite rne_exact by lia. reflexivity.
Qed.

(** Dividing by one changes nothing. *)
Lemma SFdiv_one x :
  valid_binary x = true ->
  SF64div x (S754_finite false (2 ^ 52)%positive (-52)) = x.
Proof.
  intros V. destruct x as [s|s| |s m e]; try reflexivity;
    try (destruct s; reflexivity).
  assert (V1 : valid_binary (S754_finite false (2 ^ 52)%positive (-52)) = true)
    by reflexivity.
  destruct (SFdiv_finite s m e false _ _ V V1) as [Hs [Hc E]]. rewrite E.
  clear E. rewrite xorb_false_r.
  destruct (valid_finite_range _ _ _ V) as [R [Dd Nn]].
  pose proof (valid_finite _ _ _ V) as [Hcan _].
  change (Zdigits2 (Z.pos (2 ^ 52))) with 53 in *.
  set (d := Zdigits2 (Z.pos m)) in *.
  assert (Pd : 0 < d) by (unfold d; simpl; lia).
  set (e' := div_exp d e 53 (-52)) in *.
  assert (He' : e' = Z.min (Z.max (d + e - (53 + -52) - 53) (-1074)) (e - -52))
    by reflexivity.
  rewrite fexp64_eq in Hcan. fold d in Hcan.
  set (sh := e - -52 - e') in *.
  assert (P : 0 < 2 ^ sh) by (apply Z.pow_pos_nonneg; lia).
  unfold round_quot.
  assert (Hq : Z.pos m * 2 ^ sh / Z.pos (2 ^ 52) = Z.pos m * 2 ^ (sh - 52)).
  { change (Z.pos (2 ^ 52)) with (2 ^ 52).
    replace sh with ((sh - 52) + 52) at 1 by lia.
    rewrite Z.pow_add_r by lia. rewrite Z.mul_assoc. apply Z.div_mul. lia. }
  rewrite Hq.
  assert (Hdig : Zdigits2 (Z.pos m * 2 ^ (sh - 52)) = d + (sh - 52)).
  { assert (0 < 2 ^ (sh - 52)) by (apply Z.pow_pos_nonneg; lia).
    apply Zdigits2_unique; [nia|].
    destruct (Zdigits2_bounds (Z.pos m) ltac:(lia)) as [L U]. fold d in L, U.
    replace (d + (sh - 52) - 1) with ((d - 1) + (sh - 52)) by lia.
    rewrite !Z.pow_add_r by lia. nia. }
  rewrite Hdig. rewrite fexp64_eq.
  replace (Z.max (d + (sh - 52) + e' - 53) (-1074)) with e by lia.
  replace (2 ^ (e - e') * Z.pos (2 ^ 52)) with (2 ^ sh).
  2:{ change (Z.pos (2 ^ 52)) with (2 ^ 52). rewrite <- Z.pow_add_r by lia.
      f_equal. lia. }
  rewrite rne_exact by lia.
  unfold pack.
  destruct (Zdigits2_bounds (Z.pos m) ltac:(lia)) as [_ U]. fold d in U.
  assert (U' : Z.pos m < 2 ^ 53).
  { eapply Z.lt_le_trans; [exact U|]. apply Z.pow_le_mono_r; lia. }
  replace (Z.pos m =? 0) with false by (symmetry; apply Z.eqb_neq; lia).
  replace (Z.pos m =? 2 ^ 53) with false by (symmetry; apply Z.eqb_neq; lia).
  replace (e <=? 971) with true by (symmetry; apply Z.leb_le; lia).
  reflexivity.
Qed.

(** Division of positive finite floats is monotone in the numerator ... *)
Lemma SFdiv_le_num m1 e1 m2 e2 mu eu :
  valid_binary (S754_finite false m1 e1) = true ->
  valid_binary (S754_finite false m2 e2) = true ->
  valid_binary (S754_finite false mu eu) = true ->
  key_le (1, e1, Z.pos m1) (1, e2, Z.pos m2) ->
  sf_le (SF64div (S754_finite false m1 e1) (S754_finite false mu eu))
        (SF64div (S754_finite false m2 e2) (S754_finite false mu eu)).
Proof.
  intros V1 V2 Vu Hk.
  destruct (SFdiv_finite false m1 e1 false mu eu V1 Vu) as [S1 [C1 E1]].
  destruct (SFdiv_finite false m2 e2 false mu eu V2 Vu) as [S2 [C2 E2]].
  rewrite E1, E2. clear E1 E2. cbn [xorb].
  pose proof (canonical_value_le _ _ _ _ _ _ V1 V2 Hk) as Hv.
  set (e1' := div_exp (Zdigits2 (Z.pos m1)) e1 (Zdigits2 (Z.pos mu)) eu) in *.
  set (e2' := div_exp (Zdigits2 (Z.pos m2)) e2 (Zdigits2 (Z.pos mu)) eu) in *.
  assert (B1 : e1' <= e1 - eu) by (unfold e1', div_exp; lia).
  assert (B2 : e2' <= e2 - eu) by (unfold e2', div_exp; lia).
  clearbody e1' e2'.
  unfold round_quot.
  apply round_le; try assumption; try lia;
    try (assert (0 < 2 ^ (e1 - eu - e1')) by (apply Z.pow_pos_nonneg; lia);
         assert (0 < 2 ^ (e2 - eu - e2')) by (apply Z.pow_pos_nonneg; lia);
         nia).
  set (c := Z.min e1' e2'). set (c0 := Z.min e1 e2) in *.
  set (K := c0 - eu - c).
  assert (HK : 0 <= K) by (unfold K, c, c0; lia).
  assert (X1 : Z.pos m1 * 2 ^ (e1 - eu - e1') * 2 ^ (e1' - c)
               = Z.pos m1 * 2 ^ (e1 - c0) * 2 ^ K).
  { rewrite <- !Z.mul_assoc, <- !Z.pow_add_r by (unfold K, c, c0; lia).
    do 2 f_equal. unfold K. lia. }
  assert (X2 : Z.pos m2 * 2 ^ (e2 - eu - e2') * 2 ^ (e2' - c)
               = Z.pos m2 * 2 ^ (e2 - c0) * 2 ^ K).
  { rewrite <- !Z.mul_assoc, <- !Z.pow_add_r by (unfold K, c, c0; lia).
    do 2 f_equal. unfold K. lia. }
  assert (PK : 0 < 2 ^ K) by (apply Z.pow_pos_nonneg; lia).
  replace (Z.pos m1 * 2 ^ (e1 - eu - e1') * Z.pos mu * 2 ^ (e1' - c))
    with (Z.pos m1 * 2 ^ (e1 - eu - e1') * 2 ^ (e1' - c) * Z.pos mu) by ring.
  replace (Z.pos m2 * 2 ^ (e2 - eu - e2') * Z.pos mu * 2 ^ (e2' - c))
    with (Z.pos m2 * 2 ^ (e2 - eu - e2') * 2 ^ (e2' - c) * Z.pos mu) by ring.
  rewrite X1, X2. nia.
Qed.

(** ... and antitone in the denominator. *)
Lemma SFdiv_le_den ma ea m1 e1 m2 e2 :
  valid_binary (S754_finite false ma ea) = true ->
  valid_binary (S754_finite false m1 e1) = true ->
  valid_binary (S754_finite false m2 e2) = true ->
  key_le (1, e1, Z.pos m1) (1, e2, Z.pos m2) ->
  sf_le (SF64div (S754_finite false ma ea) (S754_finite false m2 e2))
        (SF64div (S754_finite false ma ea) (S754_finite false m1 e1)).
Proof.
  intros Va V1 V2 Hk.
  destruct (SFdiv_finite false ma ea false m1 e1 Va V1) as [S1 [C1 E1]].
  destruct (SFdiv_finite false ma ea false m2 e2 Va V2) as [S2 [C2 E2]].
  rewrite E1, E2. clear E1 E2. cbn [xorb].
  pose proof (canonical_value_le _ _ _ _ _ _ V1 V2 Hk) as Hv.
  set (e1' := div_exp (Zdigits2 (Z.pos ma)) ea (Zdigits2 (Z.pos m1)) e1) in *.
  set (e2' := div_exp (Zdigits2 (Z.pos ma)) ea (Zdigits2 (Z.pos m2)) e2) in *.
  assert (B1 : e1' <= ea - e1) by (unfold e1', div_exp; lia).
  assert (B2 : e2' <= ea - e2) by (unfold e2', div_exp; lia).
  clearbody e1' e2'.
  unfold round_quot.
  apply round_le; try assumption; try lia;
    try (assert (0 < 2 ^ (ea - e1 - e1')) by (apply Z.pow_pos_nonneg; lia);
         assert (0 < 2 ^ (ea - e2 - e2')) by (apply Z.pow_pos_nonneg; lia);
         nia).
  set (c := Z.min e2' e1'). set (c0 := Z.min e1 e2) in *.
  set (K := ea - e1 - e2 - c + c0).
  assert (HK : 0 <= K) by (unfold K, c, c0; lia).
  assert (X2 : 2 ^ (ea - e2 - e2') * 2 ^ (e2' - c) = 2 ^ (e1 - c0) * 2 ^ K).
  { rewrite <- !Z.pow_add_r by (unfold K, c, c0; lia).
    f_equal. unfold K. lia. }
  assert (X1 : 2 ^ (ea - e1 - e1') * 2 ^ (e1' - c) = 2 ^ (e2 - c0) * 2 ^ K).
  { rewrite <- !Z.pow_add_r by (unfold K, c, c0; lia).
    f_equal. unfold K. lia. }
  assert (PK : 0 < 2 ^ K) by (apply Z.pow_pos_nonneg; lia).
  replace (Z.pos ma * 2 ^ (ea - e2 - e2') * Z.pos m1 * 2 ^ (e2' - c))
    with (Z.pos ma * (Z.pos m1 * (2 ^ (ea - e2 - e2') * 2 ^ (e2' - c))))
    by ring.
  replace (Z.pos ma * 2 ^ (ea - e1 - e1') * Z.pos m2 * 2 ^ (e1' - c))
    with (Z.pos ma * (Z.pos m2 * (2 ^ (ea - e1 - e1') * 2 ^ (e1' - c))))
    by ring.
  rewrite X1, X2.
  apply Z.mul_le_mono_nonneg_l; [lia|]. nia.
Qed.

(** ** A difference is zero only between equal floats *)

Lemma iter_xO_pow m d : Z.pos (Pos.iter xO m d) = Z.pos m * 2 ^ Z.pos d.
Proof.
  rewrite <- Z.shiftl_mul_pow2 by lia. cbn [Z.shiftl].
  apply (Pos.iter_swap_gen _ _ Z.pos xO (Z.mul 2)). reflexivity.
Qed.

Lemma shl_align_spec m e e' :
  e' <= e ->
  Z.pos (fst (shl_align m e e')) = Z.pos m * 2 ^ (e - e') /\
  snd (shl_align m e e') = e'.
Proof.
  intros H. unfold shl_align.
  destruct (e' - e) as [|d|d] eqn:E; try lia; cbn [fst snd].
  - replace (e - e') with 0 by lia. rewrite Z.pow_0_r. lia.
  - rewrite iter_xO_pow. replace (e - e') with (Z.pos d) by lia. lia.
Qed.

Lemma shl_align_keep m e e' : e <= e' -> shl_align m e e' = (m, e).
Proof.
  intros H. unfold shl_align. destruct (e' - e) eqn:E; try lia; reflexivity.
Qed.

Lemma pack_nonzero s z t :
  0 < z -> SFeqb (pack s z t) (S754_zero false) = false.
Proof.
  intros Hz. unfold pack.
  replace (z =? 0) with false by (symmetry; apply Z.eqb_neq; lia).
  destruct (z =? 2 ^ 53); [destruct (t + 1 <=? 971)|destruct (t <=? 971)];
    destruct s; reflexivity.
Qed.

(** Rounding a positive integer at an exponent of the format never gives
    zero. *)
Lemma binary_round_nonzero s m e :
  -1074 <= e ->
  SFeqb (binary_round prec emax s m e) (S754_zero false) = false.
Proof.
  intros He. unfold binary_round.
  change (Z.pos (digits2_pos m)) with (Zdigits2 (Z.pos m)).
  change (fexp prec emax (Zdigits2 (Z.pos m) + e))
    with (fexp64 (Zdigits2 (Z.pos m) + e)).
  set (t := fexp64 (Zdigits2 (Z.pos m) + e)).
  assert (Ht : t = Z.max (Zdigits2 (Z.pos m) + e - 53) (-1074)) by reflexivity.
  destruct (Z_le_gt_dec e t) as [Hle|Hgt].
  - rewrite shl_align_keep by exact Hle.
    pose proof (binary_round_aux_canonical s e (Z.pos m) 1
                  ltac:(lia) ltac:(lia)) as H.
    rewrite Z.div_1_r in H. fold t in H. specialize (H Hle).
    replace (location_of (Z.pos m) 1) with loc_Exact in H
      by (unfold location_of; rewrite Z.mod_1_r; reflexivity).
    rewrite H. apply pack_nonzero.
    pose proof (rounded_range (Z.pos m) 1 e ltac:(lia) ltac:(lia)) as R.
    rewrite Z.div_1_r in R. fold t in R. specialize (R Hle).
    destruct R as [Rz [_ Rn]].
    destruct (Z.eq_dec t e) as [E|E].
    + rewrite E, Z.sub_diag, Z.pow_0_r, Z.mul_1_l.
      rewrite <- (Z.mul_1_r (Z.pos m)). rewrite rne_exact by lia. lia.
    + specialize (Rn ltac:(lia)). lia.
  - destruct (shl_align_spec m e t ltac:(lia)) as [Hm Hs].
    destruct (shl_align m e t) as [mz ez]. cbn [fst snd] in Hm, Hs. subst ez.
    assert (P : 0 < 2 ^ (e - t)) by (apply Z.pow_pos_nonneg; lia).
    assert (Hd : Zdigits2 (Z.pos mz) = Zdigits2 (Z.pos m) + (e - t)).
    { apply Zdigits2_unique; [lia|]. rewrite Hm.
      destruct (Zdigits2_bounds (Z.pos m) ltac:(lia)) as [L U].
      assert (0 < Zdigits2 (Z.pos m)) by (simpl; lia).
      replace (Zdigits2 (Z.pos m) + (e - t) - 1)
        with ((Zdigits2 (Z.pos m) - 1) + (e - t)) by lia.
      rewrite !Z.pow_add_r by lia. nia. }
    assert (Hc : t <= fexp64 (Zdigits2 (Z.pos mz / 1) + t)).
    { rewrite Z.div_1_r, Hd, fexp64_eq. lia. }
    pose proof (binary_round_aux_canonical s t (Z.pos mz) 1
                  ltac:(lia) ltac:(lia) Hc) as H.
    rewrite Z.div_1_r in H.
    replace (location_of (Z.pos mz) 1) with loc_Exact in H
      by (unfold location_of; rewrite Z.mod_1_r; reflexivity).
    rewrite H. apply pack_nonzero.
    assert (Hf : fexp64 (Zdigits2 (Z.pos mz) + t) = t)
      by (rewrite Hd, fexp64_eq; lia).
    rewrite Hf, Z.sub_diag, Z.pow_0_r, Z.mul_1_l.
    rewrite <- (Z.mul_1_r (Z.pos mz)). rewrite rne_exact by lia. lia.
Qed.

Lemma binary_normalize_zero m e :
  -1074 <= e ->
  SFeqb (binary_normalize prec emax m e false) (S754_zero false) = true ->
  m = 0.
Proof.
  intros He H. destruct m as [|p|p]; [reflexivity| |];
    cbn [binary_normalize] in H;
    rewrite binary_round_nonzero in H by exact He; discriminate H.
Qed.

(** Canonical floats with the same value are the same. *)
Lemma canonical_aligned_eq s1 m1 e1 s2 m2 e2 :
  valid_binary (S754_finite s1 m1 e1) = true ->
  valid_binary (S754_finite s2 m2 e2) = true ->
  Z.pos m1 * 2 ^ (e1 - Z.min e1 e2) = Z.pos m2 * 2 ^ (e2 - Z.min e1 e2) ->
  e1 = e2 /\ m1 = m2.
Proof.
  intros V1 V2 H.
  destruct (valid_finite_range _ _ _ V1) as [R1 [D1 N1]].
  destruct (valid_finite_range _ _ _ V2) as [R2 [D2 N2]].
  destruct (Zdigits2_bounds (Z.pos m1) ltac:(lia)) as [L1 U1].
  destruct (Zdigits2_bounds (Z.pos m2) ltac:(lia)) as [L2 U2].
  assert (U1' : Z.pos m1 < 2 ^ 53).
  { eapply Z.lt_le_trans; [exact U1|]. apply Z.pow_le_mono_r; lia. }
  assert (U2' : Z.pos m2 < 2 ^ 53).
  { eapply Z.lt_le_trans; [exact U2|]. apply Z.pow_le_mono_r; lia. }
  change (2 ^ 53) with 9007199254740992 in *.
  destruct (Z.lt_trichotomy e1 e2) as [Hlt|[Heq|Hgt]].
  - exfalso. rewrite Z.min_l, Z.sub_diag, Z.pow_0_r in H by lia.
    rewrite N2 in L2 by lia. change (2 ^ (53 - 1)) with 4503599627370496 in L2.
    assert (P : 2 ^ 1 <= 2 ^ (e2 - e1)) by (apply Z.pow_le_mono_r; lia).
    change (2 ^ 1) with 2 in P. nia.
  - subst e2. rewrite Z.min_id, Z.sub_diag, Z.pow_0_r in H.
    split; [reflexivity|]. lia.
  - exfalso. rewrite Z.min_r, Z.sub_diag, Z.pow_0_r in H by lia.
    rewrite N1 in L1 by lia. change (2 ^ (53 - 1)) with 4503599627370496 in L1.
    assert (P : 2 ^ 1 <= 2 ^ (e1 - e2)) by (apply Z.pow_le_mono_r; lia).
    change (2 ^ 1) with 2 in P. nia.
Qed.

Lemma SFsub_zero_eq x y :
  valid_binary x = true -> valid_binary y = true ->
  SFeqb (SF64sub x y) (S754_zero false) = true -> SFeqb x y = true.
Proof.
  intros Vx Vy H.
  destruct x as [sx|sx| |sx mx ex], y as [sy|sy| |sy my ey];
    try reflexivity;
    try (destruct sx, sy; discriminate H);
    try (destruct sx; discriminate H);
    try (destruct sy; discriminate H);
    try discriminate H.
  unfold SF64sub, SFsub in H.
  destruct (valid_finite_range _ _ _ Vx) as [Rx _].
  destruct (valid_finite_range _ _ _ Vy) as [Ry _].
  apply binary_normalize_zero in H; [|lia].
  destruct (shl_align_spec mx ex (Z.min ex ey) ltac:(lia)) as [Hx _].
  destruct (shl_align_spec my ey (Z.min ex ey) ltac:(lia)) as [Hy _].
  assert (Hs : sx = sy).
  { destruct sx, sy; try reflexivity; cbn [cond_Zopp] in H; lia. }
  subst sy.
  assert (Hv : Z.pos mx * 2 ^ (ex - Z.min ex ey)
               = Z.pos my * 2 ^ (ey - Z.min ex ey)).
  { rewrite <- Hx, <- Hy. destruct sx; cbn [cond_Zopp] in H; lia. }
  destruct (canonical_aligned_eq _ _ _ _ _ _ Vx Vy Hv) as [-> ->].
  unfold SFeqb. cbn [SFcompare]. rewrite Z.compare_refl, compare_cont_Eq.
  rewrite Pos.compare_refl. destruct sx; reflexivity.
Qed.

End Rounding.

(* ================================================================== *)
(** * Facts on primitive floats *)
(* ================================================================== *)

Section FloatFacts.

Lemma leb_refl (x : float) : is_nan x = false -> (x <=? x) = true.
Proof.
  intros Hn. fcmp x x; try assumption.
  destruct H as [H|H]; apply is_nan_key in H; congruence.
Qed.

(** A float that is positive and finite is a finite specification. *)
Lemma pos_finite_spec (x : float) :
  (0 <? x) = true -> (x <? infinity) = true ->
  exists m e, Prim2SF x = S754_finite false m e.
Proof.
  intros H0 Hi. rewrite ltb_spec in H0, Hi.
  change (Prim2SF 0) with (S754_zero false) in H0.
  change (Prim2SF infinity) with (S754_infinity false) in Hi.
  destruct (Prim2SF x) as [s|[|]| |[|] m e]; try discriminate.
  exists m, e. reflexivity.
Qed.

Lemma finite_key_le (m1 m2 : positive) (e1 e2 : Z) (x y : float) :
  Prim2SF x = S754_finite false m1 e1 ->
  Prim2SF y = S754_finite false m2 e2 ->
  (x <=? y) = true ->
  key_le (1, e1, Z.pos m1)%Z (1, e2, Z.pos m2)%Z.
Proof.
  intros Hx Hy H. apply leb_sf_le in H. rewrite Hx, Hy in H.
  destruct H as [a [b [Ha [Hb Hab]]]].
  cbn [sf_key] in Ha, Hb. congruence.
Qed.

Lemma div_self (x : float) :
  (0 <? x) = true -> (x <? infinity) = true -> x / x = 1.
Proof.
  intros H0 Hi. destruct (pos_finite_spec x H0 Hi) as [m [e E]].
  apply Prim2SF_inj. rewrite div_spec, E.
  rewrite SFdiv_self by (rewrite <- E; apply Prim2SF_valid).
  reflexivity.
Qed.

Lemma div_one (x : float) : x / 1 = x.
Proof.
  apply Prim2SF_inj. rewrite div_spec.
  change (Prim2SF 1) with (S754_finite false (2 ^ 52)%positive (-52)).
  apply SFdiv_one. apply Prim2SF_valid.
Qed.

Lemma div_le_num (a1 a2 u : float) :
  (0 <? a1) = true -> (a2 <? infinity) = true ->
  (0 <? u) = true -> (u <? infinity) = true ->
  (a1 <=? a2) = true -> (a1 / u <=? a2 / u) = true.
Proof.
  intros P1 F2 Pu Fu Hle.
  assert (F1 : (a1 <? infinity) = true) by exact (leb_ltb_trans _ _ _ Hle F2).
  assert (P2 : (0 <? a2) = true) by exact (ltb_leb_trans _ _ _ P1 Hle).
  destruct (pos_finite_spec a1 P1 F1) as [m1 [e1 E1]].
  destruct (pos_finite_spec a2 P2 F2) as [m2 [e2 E2]].
  destruct (pos_finite_spec u Pu Fu) as [mu [eu Eu]].
  apply leb_sf_le. rewrite !div_spec, E1, E2, Eu.
  apply SFdiv_le_num;
    try (rewrite <- E1; apply Prim2SF_valid);
    try (rewrite <- E2; apply Prim2SF_valid);
    try (rewrite <- Eu; apply Prim2SF_valid).
  exact (finite_key_le _ _ _ _ _ _ E1 E2 Hle).
Qed.

Lemma div_le_den (a u1 u2 : float) :
  (0 <? a) = true -> (a <? infinity) = true ->
  (0 <? u1) = true -> (u2 <? infinity) = true ->
  (u1 <=? u2) = true -> (a / u2 <=? a / u1) = true.
Proof.
  intros Pa Fa P1 F2 Hle.
  assert (F1 : (u1 <? infinity) = true) by exact (leb_ltb_trans _ _ _ Hle F2).
  assert (P2 : (0 <? u2) = true) by exact (ltb_leb_trans _ _ _ P1 Hle).
  destruct (pos_finite_spec a Pa Fa) as [ma [ea Ea]].
  destruct (pos_finite_spec u1 P1 F1) as [m1 [e1 E1]].
  destruct (pos_finite_spec u2 P2 F2) as [m2 [e2 E2]].
  apply leb_sf_le. rewrite !div_spec, E1, E2, Ea.
  apply SFdiv_le_den;
    try (rewrite <- E1; apply Prim2SF_valid);
    try (rewrite <- E2; apply Prim2SF_valid);
    try (rewrite <- Ea; apply Prim2SF_valid).
  exact (finite_key_le _ _ _ _ _ _ E1 E2 Hle).
Qed.

(** Two floats that compare equal and are not zero are the same float. *)
Lemma eqb_eq_nonzero (x y : float) :
  (x =? y) = true -> (y =? 0) = false -> x = y.
Proof.
  intros He Hz. apply Prim2SF_inj.
  rewrite eqb_spec in He, Hz. unfold SFeqb in He, Hz.
  change (Prim2SF 0) with (S754_zero false) in Hz.
  destruct (Prim2SF x) as [[|]|[|]| |[|] mx ex],
           (Prim2SF y) as [[|]|[|]| |[|] my ey];
    cbn [SFcompare] in He, Hz; try discriminate; try reflexivity.
  - destruct (Z.compare_spec ex ey); try discriminate. subst.
    rewrite compare_cont_Eq in He.
    destruct (Pos.compare_spec mx my); try discriminate. subst. reflexivity.
  - destruct (Z.compare_spec ex ey); try discriminate. subst.
    rewrite compare_cont_Eq in He.
    destruct (Pos.compare_spec mx my); try discriminate. subst. reflexivity.
Qed.

Lemma leb_antisym_eqb (x y : float) :
  (x <=? y) = true -> (y <=? x) = true -> (x =? y) = true.
Proof. intros H1 H2. fcmp x y; congruence. Qed.

(** A finite float is at most the largest one. *)
Lemma finite_le_max (x : float) :
  (x <? infinity) = true -> (x <=? 0x1.fffffffffffffp+1023) = true.
Proof.
  intros H. apply leb_sf_le.
  pose proof (Prim2SF_valid x) as V.
  rewrite ltb_spec in H.
  change (Prim2SF infinity) with (S754_infinity false) in H.
  change (Prim2SF 0x1.fffffffffffffp+1023)
    with (S754_finite false 9007199254740991 971).
  destruct (Prim2SF x) as [[|]|[|]| |[|] m e]; try discriminate;
    try (eapply sf_le_intro; [reflexivity|reflexivity|];
         left; unfold key_lt; lia).
  destruct (valid_finite_range _ _ _ V) as [R [D _]].
  destruct (Zdigits2_bounds (Z.pos m) ltac:(lia)) as [_ U].
  assert (U' : (Z.pos m < 2 ^ 53)%Z).
  { eapply Z.lt_le_trans; [exact U|]. apply Z.pow_le_mono_r; lia. }
  change (2 ^ 53)%Z with 9007199254740992%Z in U'.
  eapply sf_le_intro; [reflexivity|reflexivity|].
  unfold key_le, key_lt.
  assert (C : (e < 971 \/ (e = 971 /\ Z.pos m < 9007199254740991)
               \/ (e = 971 /\ Z.pos m = 9007199254740991))%Z) by lia.
  destruct C as [C|[C|[C1 C2]]]; [left; lia|left; lia|right; congruence].
Qed.

(** What [is_finite] means on the specification. *)
Lemma is_finite_spec (x : float) :
  is_finite x = true ->
  match Prim2SF x with
  | S754_zero _ | S754_finite _ _ _ => True
  | _ => False
  end.
Proof.
  unfold is_finite, is_infinity. intros H.
  apply negb_true_iff, orb_false_iff in H. destruct H as [Hn Hi].
  rewrite eqb_spec, abs_spec in Hi.
  change (Prim2SF infinity) with (S754_infinity false) in Hi.
  assert (Hnn : Prim2SF x <> S754_nan).
  { intros E. apply is_nan_spec in E. congruence. }
  destruct (Prim2SF x) as [s|s| |s m e]; try exact I; try congruence.
  destruct s; discriminate Hi.
Qed.

(** The product of two finite floats is a number. *)
Lemma mul_finite_not_nan (v f : float) :
  is_finite v = true -> is_finite f = true -> is_nan (v * f) = false.
Proof.
  intros Hv Hf. apply not_true_is_false. intros Hn.
  apply is_nan_spec in Hn. rewrite mul_spec in Hn.
  pose proof (Prim2SF_valid v) as Vv. pose proof (Prim2SF_valid f) as Vf.
  apply is_finite_spec in Hv. apply is_finite_spec in Hf.
  destruct (Prim2SF v) as [sv|sv| |sv mv ev]; try contradiction;
    destruct (Prim2SF f) as [sf|sf| |sf mf ef]; try contradiction;
    try discriminate Hn.
  destruct (SFmul_finite sv mv ev sf mf ef Vv Vf) as [E He].
  rewrite E in Hn.
  destruct (round_quot_key (xorb sv sf) (Z.pos mv * Z.pos mf) 1 (ev + ef)
              ltac:(lia) ltac:(lia) He) as [k [Hk _]].
  rewrite Hn in Hk. discriminate Hk.
Qed.

(** A difference of floats is zero only if they compare equal. *)
Lemma sub_eq_zero (a b : float) : (a - b =? 0) = true -> (a =? b) = true.
Proof.
  rewrite !eqb_spec, sub_spec.
  change (Prim2SF 0) with (S754_zero false).
  apply SFsub_zero_eq; apply Prim2SF_valid.
Qed.

End FloatFacts.

(* ================================================================== *)
(** * Colour temperature *)
(* ================================================================== *)

Section CctFacts.

Variable cpow : float -> float -> float.

Lemma truediv_np (a b : float) : truediv NpFloat64 a b = Ok (a / b).
Proof. reflexivity. Qed.

Lemma truediv_nonzero (k : scalar_kind) (a b : float) :
  (b =? 0) = false -> truediv k a b = Ok (a / b).
Proof. intros H. destruct k; simpl; [rewrite H|]; reflexivity. Qed.

Lemma truediv_zero_py (a b : float) :
  (b =? 0) = true -> truediv PyFloat a b = Raise ZeroDivisionError.
Proof. intros H. simpl. rewrite H. reflexivity. Qed.

(** numpy's power never raises. *)
Lemma power_np (a b : float) : power cpow NpFloat64 a b = Ok (cpow a b).
Proof. reflexivity. Qed.

(** CPython's power raises for the exponents 2 and 3 only when libm
    overflows. *)
Lemma power_py_integer (a b : float) :
  is_integer b = true ->
  is_infinity (cpow (abs a) b) = false ->
  exists v, power cpow PyFloat a b = Ok v.
Proof.
  intros Hb Hfin. unfold power. rewrite Hb, Hfin. simpl.
  rewrite andb_false_r.
  repeat match goal with
         | |- context [if ?c then _ else _] => destruct c
         end; eexists; reflexivity.
Qed.

(** The zero-sum guard is the only way to the absent result. *)
Lemma xyz_to_cct_none (k : scalar_kind) (x y z : float) :
  xyz_to_cct cpow k (x, y, z) = Ok None <-> (x + y + z =? 0) = true.
Proof.
  unfold xyz_to_cct. destruct (x + y + z =? 0) eqn:Hs.
  - split; reflexivity.
  - split; [|discriminate].
    rewrite !(truediv_nonzero k _ _ Hs). cbn [bind].
    destruct (truediv k (x / (x + y + z) - 0.3320) (0.1858 - y / (x + y + z)))
      as [n|e]; cbn [bind]; [|discriminate].
    destruct (power cpow k n 3) as [n3|e]; cbn [bind]; [|discriminate].
    destruct (power cpow k n 2) as [n2|e]; cbn [bind]; discriminate.
Qed.

Lemma xyz_to_cct_value (k : scalar_kind) (x y z n3 n2 : float) :
  (x + y + z =? 0) = false ->
  (0.1858 - y / (x + y + z) =? 0) = false ->
  power cpow k (mccamy_n x y z) 3 = Ok n3 ->
  power cpow k (mccamy_n x y z) 2 = Ok n2 ->
  xyz_to_cct cpow k (x, y, z)
  = Ok (Some (449 * n3 + 3525 * n2 + 6823.3 * mccamy_n x y z + 5520.33)).
Proof.
  intros Hs Hd H3 H2. unfold xyz_to_cct, mccamy_n in *. rewrite Hs.
  rewrite !(truediv_nonzero k _ _ Hs). cbn [bind].
  rewrite (truediv_nonzero k _ _ Hd). cbn [bind].
  rewrite H3. cbn [bind]. rewrite H2. reflexivity.
Qed.

Lemma xyz_to_cct_np (x y z : float) :
  (x + y + z =? 0) = false ->
  xyz_to_cct cpow NpFloat64 (x, y, z)
  = Ok (Some (449 * cpow (mccamy_n x y z) 3 + 3525 * cpow (mccamy_n x y z) 2
              + 6823.3 * mccamy_n x y z + 5520.33)).
Proof.
  intros Hs. unfold xyz_to_cct, mccamy_n. rewrite Hs. reflexivity.
Qed.

(** With numpy scalars the function never raises. *)
Lemma xyz_to_cct_np_total (xyz : triple) :
  exists r, xyz_to_cct cpow NpFloat64 xyz = Ok r.
Proof.
  destruct xyz as [[x y] z]. unfold xyz_to_cct.
  destruct (x + y + z =? 0); eexists; reflexivity.
Qed.

End CctFacts.

(** C1: [xyz_to_cct] returns the absent result exactly when X + Y + Z is
    zero; otherwise, when the chromaticity y is not 0.1858, it returns
    449 n^3 + 3525 n^2 + 6823.3 n + 5520.33 for McCamy's ratio n, the powers
    being those the arithmetic takes: with numpy scalars always, with builtin
    floats whenever the two powers do not overflow. *)
Theorem xyz_to_cct_mccamy (cpow : float -> float -> float) (k : scalar_kind)
    (x y z : float) :
  (xyz_to_cct cpow k (x, y, z) = Ok None <-> (x + y + z =? 0) = true) /\
  ((x + y + z =? 0) = false ->
   (y / (x + y + z) =? 0.1858) = false ->
   forall n3 n2,
     power cpow k (mccamy_n x y z) 3 = Ok n3 ->
     power cpow k (mccamy_n x y z) 2 = Ok n2 ->
     xyz_to_cct cpow k (x, y, z)
     = Ok (Some (449 * n3 + 3525 * n2 + 6823.3 * mccamy_n x y z + 5520.33))) /\
  ((x + y + z =? 0) = false ->
   xyz_to_cct cpow NpFloat64 (x, y, z)
   = Ok (Some (449 * cpow (mccamy_n x y z) 3 + 3525 * cpow (mccamy_n x y z) 2
               + 6823.3 * mccamy_n x y z + 5520.33))) /\
  ((x + y + z =? 0) = false ->
   (y / (x + y + z) =? 0.1858) = false ->
   is_infinity (cpow (abs (mccamy_n x y z)) 3) = false ->
   is_infinity (cpow (abs (mccamy_n x y z)) 2) = false ->
   exists n3 n2,
     xyz_to_cct cpow PyFloat (x, y, z)
     = Ok (Some (449 * n3 + 3525 * n2 + 6823.3 * mccamy_n x y z + 5520.33))).
Proof.
  assert (Hden : (y / (x + y + z) =? 0.1858) = false ->
                 (0.1858 - y / (x + y + z) =? 0) = false).
  { intros Hy. apply not_true_is_false. intros Hz.
    apply sub_eq_zero in Hz. rewrite eqb_sym in Hz. congruence. }
  split; [apply xyz_to_cct_none|].
  split.
  { intros Hs Hy n3 n2 H3 H2.
    apply xyz_to_cct_value; auto. }
  split; [apply xyz_to_cct_np|].
  intros Hs Hy I3 I2.
  destruct (power_py_integer cpow (mccamy_n x y z) 3 eq_refl I3) as [n3 H3].
  destruct (power_py_integer cpow (mccamy_n x y z) 2 eq_refl I2) as [n2 H2].
  exists n3, n2. apply xyz_to_cct_value; auto.
Qed.

(** The value at the white point, with powers taken by multiplying. *)
Example xyz_to_cct_white :
  xyz_to_cct product_pow NpFloat64 white_xyz = Ok (Some 6503.4623518696671) /\
  xyz_to_cct product_pow PyFloat white_xyz = Ok (Some 6503.4623518696671) /\
  xyz_to_cct product_pow PyFloat (0, 0, 0) = Ok None.
Proof. repeat split; reflexivity. Qed.

(** C4: [xyz_to_cct] is not total on builtin floats with a nonzero sum.  At
    X, Y, Z = 0.8142, 0.1858, 0.0 the sum is
    1.0, the chromaticity y is the double 0.1858 itself, the denominator of
    McCamy's ratio is 0.0, and the division raises [ZeroDivisionError].  With
    numpy scalars the function never raises; there the division gives an
    infinity, which the polynomial is then evaluated at. *)
Theorem xyz_to_cct_singular_denominator (cpow : float -> float -> float) :
  (0.8142 + 0.1858 + 0 =? 0) = false /\
  0.1858 / (0.8142 + 0.1858 + 0) = 0.1858 /\
  0.1858 - 0.1858 / (0.8142 + 0.1858 + 0) = 0 /\
  xyz_to_cct cpow PyFloat (0.8142, 0.1858, 0) = Raise ZeroDivisionError /\
  xyz_to_cct cpow NpFloat64 (0.8142, 0.1858, 0)
  = Ok (Some (449 * cpow infinity 3 + 3525 * cpow infinity 2
              + 6823.3 * infinity + 5520.33)) /\
  (forall xyz, exists r, xyz_to_cct cpow NpFloat64 xyz = Ok r).
Proof.
  repeat split; try reflexivity. apply xyz_to_cct_np_total.
Qed.

(** ** The white point *)

Lemma product_pow_faithful : libm_pow_faithful product_pow.
Proof.
  unfold libm_pow_faithful, product_pow. split; [|split].
  - intros y. reflexivity.
  - intros x. destruct (Leibniz.eqb x 1) eqn:E.
    + apply Leibniz.eqb_spec in E. subst x. left. reflexivity.
    + left. reflexivity.
  - intros x. destruct (Leibniz.eqb x 1) eqn:E.
    + apply Leibniz.eqb_spec in E. subst x. left. reflexivity.
    + left. reflexivity.
Qed.

Lemma gamma_correct_one (cpow : float -> float -> float) (k : scalar_kind) :
  (forall y, cpow 1 y = 1) -> gamma_correct cpow k 1 = Ok 1.
Proof.
  intros H1. destruct k; [reflexivity|].
  unfold gamma_correct. change (1 <=? 0.04045) with false. cbv iota.
  rewrite truediv_np. cbn [bind]. rewrite power_np.
  change ((1 + 0.055) / 1.055) with 1. rewrite H1. reflexivity.
Qed.

Lemma rgb_to_xyz_white (cpow : float -> float -> float) (k : scalar_kind) :
  (forall y, cpow 1 y = 1) -> rgb_to_xyz cpow k (1, 1, 1) = Ok white_xyz.
Proof.
  intros H1. unfold rgb_to_xyz.
  rewrite (gamma_correct_one cpow k H1). reflexivity.
Qed.

(** Whatever the library's cube and square of the ratio are, within the
    assumed accuracy, the polynomial stays within 100 K of 6500 K. *)
Lemma mccamy_white_bounds (n3 n2 : float) :
  In n3 (ulp_ball 4 (white_n * white_n * white_n)) ->
  In n2 (ulp_ball 2 (white_n * white_n)) ->
  is_infinity n3 = false /\ is_infinity n2 = false /\
  (6400 <=? mccamy n3 n2 white_n) = true /\
  (mccamy n3 n2 white_n <=? 6600) = true.
Proof.
  intros B3 B2. vm_compute in B3, B2.
  repeat match goal with
         | H : _ \/ _ |- _ => destruct H as [H|H]
         | H : False |- _ => destruct H
         end; subst n3 n2; vm_compute; repeat split; reflexivity.
Qed.

(** The ratio of the white point is a positive number other than one, so
    the builtin power goes to the library and raises only on overflow. *)
Lemma power_py_white (cpow : float -> float -> float) (b : float) :
  is_infinity (cpow white_n b) = false ->
  power cpow PyFloat white_n b = Ok (cpow white_n b).
Proof.
  intros Hfin. unfold power.
  change (is_nan white_n) with false.
  change (is_infinity white_n) with false.
  change (white_n =? 0) with false.
  change (white_n <? 0) with false.
  change (abs white_n) with white_n.
  change (white_n =? 1) with false.
  cbn [andb]. cbv iota zeta. rewrite Hfin. reflexivity.
Qed.

(** C5: for RGB = (1.0, 1.0, 1.0), [rgb_to_xyz] followed by [xyz_to_cct]
    gives a temperature, and it is within 100 K of 6500 K. *)
Theorem white_point_temperature (cpow : float -> float -> float)
    (k : scalar_kind) :
  libm_pow_faithful cpow ->
  exists xyz t,
    rgb_to_xyz cpow k (1, 1, 1) = Ok xyz /\
    xyz_to_cct cpow k xyz = Ok (Some t) /\
    (6400 <=? t) = true /\ (t <=? 6600) = true.
Proof.
  intros [H1 [H2 H3]].
  exists white_xyz.
  pose proof (mccamy_white_bounds _ _ (H3 white_n) (H2 white_n))
    as [I3 [I2 [Lo Hi]]].
  exists (mccamy (cpow white_n 3) (cpow white_n 2) white_n).
  split; [apply rgb_to_xyz_white; exact H1|].
  split; [|split; assumption].
  destruct k.
  - apply (xyz_to_cct_value cpow PyFloat
             (1 * 0.4124564 + 1 * 0.3575761 + 1 * 0.1804375)
             (1 * 0.2126729 + 1 * 0.7151522 + 1 * 0.0721750)
             (1 * 0.0193339 + 1 * 0.1191920 + 1 * 0.9503041)).
    + reflexivity.
    + reflexivity.
    + exact (power_py_white cpow 3 I3).
    + exact (power_py_white cpow 2 I2).
  - apply (xyz_to_cct_np cpow). reflexivity.
Qed.

Lemma white_point_temperature_witness :
  libm_pow_faithful product_pow /\
  exists xyz t,
    rgb_to_xyz product_pow NpFloat64 (1, 1, 1) = Ok xyz /\
    xyz_to_cct product_pow NpFloat64 xyz = Ok (Some t) /\
    (6400 <=? t) = true /\ (t <=? 6600) = true.
Proof.
  split.
  - exact product_pow_faithful.
  - apply (white_point_temperature product_pow NpFloat64).
    exact product_pow_faithful.
Defined.

(** With exact products for the powers the value is 6503.46... *)
Example white_point_value :
  (r <- rgb_to_xyz product_pow PyFloat (1, 1, 1) ;;
   xyz_to_cct product_pow PyFloat r)%py
  = Ok (Some 6503.4623518696671).
Proof. vm_compute. reflexivity. Qed.

(* ================================================================== *)
(** * White balance *)
(* ================================================================== *)

Section WhiteBalance.

(** ** Minimum and clip *)

Lemma np_minimum_spec (a b : float) :
  is_nan a = false -> is_nan b = false ->
  (np_minimum a b = a \/ np_minimum a b = b) /\
  (np_minimum a b <=? a) = true /\ (np_minimum a b <=? b) = true.
Proof.
  intros Ha Hb. unfold np_minimum. rewrite Ha.
  destruct (a <? b) eqn:E.
  - split; [left; reflexivity|]. split; [apply leb_refl; assumption|].
    apply ltb_leb_incl. assumption.
  - split; [right; reflexivity|]. split; [|apply leb_refl; assumption].
    destruct (not_nan_total _ _ Ha Hb) as [H|H]; [congruence|assumption].
Qed.

Lemma np_min_spec (t : triple) :
  is_nan (chan Red t) = false -> is_nan (chan Green t) = false ->
  is_nan (chan Blue t) = false ->
  (exists c, np_min t = chan c t) /\
  (forall c, (np_min t <=? chan c t) = true).
Proof.
  destruct t as [[a b] c]. cbn [chan np_min]. intros Ha Hb Hc.
  destruct (np_minimum_spec a b Ha Hb) as [E1 [La Lb]].
  assert (Hm : is_nan (np_minimum a b) = false)
    by (destruct E1 as [-> | ->]; assumption).
  destruct (np_minimum_spec (np_minimum a b) c Hm Hc) as [E2 [Lm Lc]].
  split.
  - destruct E2 as [E2|E2].
    + destruct E1 as [E1|E1].
      * exists Red. cbn [chan]. congruence.
      * exists Green. cbn [chan]. congruence.
    + exists Blue. cbn [chan]. assumption.
  - intros [| |]; cbn [chan].
    + exact (leb_trans _ _ _ Lm La).
    + exact (leb_trans _ _ _ Lm Lb).
    + exact Lc.
Qed.

Lemma np_clip_nan (x : float) : is_nan x = true -> np_clip x 0 1 = x.
Proof.
  intros Hx. unfold np_clip.
  destruct (x <? 0) eqn:E0.
  { apply ltb_leb_incl, leb_not_nan in E0. destruct E0; congruence. }
  destruct (1 <? x) eqn:E1; [|reflexivity].
  apply ltb_leb_incl, leb_not_nan in E1. destruct E1; congruence.
Qed.

Lemma np_clip_range (x : float) :
  is_nan x = false ->
  (0 <=? np_clip x 0 1) = true /\ (np_clip x 0 1 <=? 1) = true.
Proof.
  intros Hx. unfold np_clip.
  destruct (x <? 0) eqn:E0; [split; reflexivity|].
  destruct (1 <? x) eqn:E1; [split; reflexivity|].
  split.
  - destruct (not_nan_total x 0 Hx eq_refl) as [H|H]; [congruence|exact H].
  - destruct (not_nan_total 1 x eq_refl Hx) as [H|H]; [congruence|exact H].
Qed.

Lemma np_clip_mono (x y : float) :
  (x <=? y) = true -> (np_clip x 0 1 <=? np_clip y 0 1) = true.
Proof.
  intros H. destruct (leb_not_nan _ _ H) as [Hx Hy].
  destruct (np_clip_range y Hy) as [Ly Uy].
  destruct (np_clip_range x Hx) as [Lx Ux].
  unfold np_clip in *.
  destruct (x <? 0) eqn:X0; [exact Ly|].
  destruct (y <? 0) eqn:Y0.
  { rewrite (leb_ltb_trans _ _ _ H Y0) in X0. discriminate. }
  destruct (1 <? x) eqn:X1.
  - rewrite (ltb_leb_trans _ _ _ X1 H). reflexivity.
  - destruct (1 <? y) eqn:Y1; [exact Ux|exact H].
Qed.

(** ** Calibration *)

Lemma chan_map3 (f : float -> float) (c : channel) (t : triple) :
  chan c (map3 f t) = f (chan c t).
Proof. destruct t as [[x y] z], c; reflexivity. Qed.

Lemma chan_zip3 (f : float -> float -> float) (c : channel) (t u : triple) :
  chan c (zip3 f t u) = f (chan c t) (chan c u).
Proof. destruct t as [[x y] z], u as [[x' y'] z'], c; reflexivity. Qed.

Lemma triple_ext (t u : triple) : (forall c, chan c t = chan c u) -> t = u.
Proof.
  destruct t as [[x y] z], u as [[x' y'] z']. intros H.
  pose proof (H Red) as Hr. pose proof (H Green) as Hg.
  pose proof (H Blue) as Hb. cbn [chan] in Hr, Hg, Hb. congruence.
Qed.

(** The reciprocal of an invertible channel is positive and finite. *)
Lemma invertible_reciprocal (c : float) :
  invertible c = true -> (0 <? 1 / c) = true /\ (1 / c <? infinity) = true.
Proof.
  unfold invertible. intros H.
  apply andb_prop in H. destruct H as [H Hfin].
  apply andb_prop in H. destruct H as [Hpos Hc].
  split; [|exact Hfin].
  pose proof (finite_le_max c Hc) as Hmax.
  pose proof (div_le_den 1 c 0x1.fffffffffffffp+1023
                eq_refl eq_refl Hpos eq_refl Hmax) as Hd.
  exact (ltb_leb_trans 0 (1 / 0x1.fffffffffffffp+1023) (1 / c) eq_refl Hd).
Qed.

Lemma ltb_not_nan (x y : float) :
  (x <? y) = true -> is_nan x = false /\ is_nan y = false.
Proof. intros H. apply leb_not_nan. apply ltb_leb_incl. exact H. Qed.

(** C6: for a reference colour whose three channels are invertible (strictly
    positive with a finite reciprocal), each correction factor is the
    reciprocal of its channel divided by the smallest reciprocal, the
    smallest factor is exactly 1.0, every factor is at least 1.0, and
    dividing the factors by their minimum once more changes nothing. *)
Theorem calibrate_minimum_one (rgb : triple) :
  invertible (chan Red rgb) = true ->
  invertible (chan Green rgb) = true ->
  invertible (chan Blue rgb) = true ->
  (forall c, chan c (calibrate rgb)
             = (1 / chan c rgb) / np_min (map3 (fun x => 1 / x) rgb)) /\
  np_min (calibrate rgb) = 1 /\
  (forall c, (1 <=? chan c (calibrate rgb)) = true) /\
  map3 (fun f => f / np_min (calibrate rgb)) (calibrate rgb) = calibrate rgb.
Proof.
  intros Hr Hg Hb.
  assert (Hinv : forall c, invertible (chan c rgb) = true)
    by (intros [| |]; assumption).
  set (U := map3 (fun x => 1 / x) rgb).
  assert (HU : forall c, (0 <? chan c U) = true /\ (chan c U <? infinity) = true).
  { intros c. unfold U. rewrite chan_map3. apply invertible_reciprocal, Hinv. }
  assert (HUn : forall c, is_nan (chan c U) = false).
  { intros c. destruct (HU c) as [H _]. apply (ltb_not_nan _ _ H). }
  destruct (np_min_spec U (HUn Red) (HUn Green) (HUn Blue)) as [[c0 Hm] Hle].
  set (m := np_min U) in *.
  assert (Hmpos : (0 <? m) = true /\ (m <? infinity) = true)
    by (rewrite Hm; apply HU).
  destruct Hmpos as [Pm Fm].
  assert (Hform : forall c, chan c (calibrate rgb) = chan c U / m).
  { intros c. unfold calibrate. fold U. fold m. apply chan_map3. }
  assert (Hge : forall c, (1 <=? chan c (calibrate rgb)) = true).
  { intros c. rewrite Hform. rewrite <- (div_self m Pm Fm) at 1.
    destruct (HU c) as [_ Fc].
    apply div_le_num; try assumption. apply Hle. }
  assert (Hone : chan c0 (calibrate rgb) = 1).
  { rewrite Hform, <- Hm. apply div_self; assumption. }
  assert (HFn : forall c, is_nan (chan c (calibrate rgb)) = false).
  { intros c. apply (leb_not_nan _ _ (Hge c)). }
  destruct (np_min_spec (calibrate rgb) (HFn Red) (HFn Green) (HFn Blue))
    as [[c1 Hn] Hnle].
  assert (Hmin : np_min (calibrate rgb) = 1).
  { apply eqb_eq_nonzero; [|reflexivity].
    apply leb_antisym_eqb.
    - rewrite <- Hone. apply Hnle.
    - rewrite Hn. apply Hge. }
  split.
  { intros c. rewrite Hform. unfold U. rewrite chan_map3. reflexivity. }
  split; [exact Hmin|]. split; [exact Hge|].
  apply triple_ext. intros c. rewrite chan_map3, Hmin. apply div_one.
Qed.

(** A reference averaged from a two-pixel image. *)
Lemma calibrate_minimum_one_witness :
  let rgb := average_reference [(x10, x80, xff); (x15, x80, xf0)] in
  invertible (chan Red rgb) = true /\
  np_min (calibrate rgb) = 1 /\
  (forall c, (1 <=? chan c (calibrate rgb)) = true) /\
  map3 (fun f => f / np_min (calibrate rgb)) (calibrate rgb) = calibrate rgb.
Proof.
  intros rgb. split; [reflexivity|].
  apply (calibrate_minimum_one rgb); reflexivity.
Defined.

(** ** Applying the correction *)

Lemma apply_white_balance_chan (self : analyzer) (factors rgb : triple)
    (c : channel) :
  white_balance_factors self = Some factors ->
  chan c (apply_white_balance self rgb)
  = np_clip (chan c rgb * chan c factors) 0 1.
Proof.
  intros H. unfold apply_white_balance. rewrite H.
  rewrite chan_map3, chan_zip3. reflexivity.
Qed.

(** C7: with correction factors loaded, each channel of the result is
    [clip(rgb[c] * factor[c], 0, 1)].  It lies in [0, 1] whenever that
    product is a number, which it is for finite operands.  The code does not
    keep the range for every triple of factors: a product that is NaN (zero
    times the infinite factor of a reference with an empty channel) passes
    the clip. *)
Theorem apply_white_balance_clipped (self : analyzer) (factors rgb : triple) :
  white_balance_factors self = Some factors ->
  (forall c, chan c (apply_white_balance self rgb)
             = np_clip (chan c rgb * chan c factors) 0 1) /\
  (forall c, is_nan (chan c rgb * chan c factors) = false ->
             (0 <=? chan c (apply_white_balance self rgb)) = true /\
             (chan c (apply_white_balance self rgb) <=? 1) = true) /\
  (forall c, is_finite (chan c rgb) = true ->
             is_finite (chan c factors) = true ->
             is_nan (chan c rgb * chan c factors) = false) /\
  (forall c, is_nan (chan c rgb * chan c factors) = true ->
             is_nan (chan c (apply_white_balance self rgb)) = true).
Proof.
  intros H.
  split; [intros c; apply apply_white_balance_chan; exact H|].
  split.
  { intros c Hn. rewrite (apply_white_balance_chan self factors rgb c H).
    apply np_clip_range. exact Hn. }
  split; [intros c; apply mul_finite_not_nan|].
  intros c Hn. rewrite (apply_white_balance_chan self factors rgb c H).
  rewrite np_clip_nan by exact Hn. exact Hn.
Qed.

Lemma apply_white_balance_clipped_witness :
  let self := set_white_reference "white.png" (0.5, 0.25, 1) (2, 4, 1) init in
  let out := apply_white_balance self (0.3, 0.2, 0.9) in
  white_balance_factors self = Some (2, 4, 1) /\
  out = (0.6, 0.8, 0.9) /\
  (forall c, chan c out = np_clip (chan c (0.3, 0.2, 0.9) * chan c (2, 4, 1)) 0 1).
Proof.
  intros self out. split; [reflexivity|]. split; [reflexivity|].
  apply (apply_white_balance_clipped self (2, 4, 1) (0.3, 0.2, 0.9)).
  reflexivity.
Defined.

(** The failing input of C7.  A reference without red is accepted and gives
    an infinite red factor; an image without red then gets a red channel
    that is not a number, outside [0, 1]. *)
Lemma apply_white_balance_counterexample :
  let w := world_of [("cyan.png", [(x00, xff, xff)])] in
  let self := snd (load_white_reference w "cyan.png" init) in
  let out := apply_white_balance self (0, 0.5, 0.5) in
  fst (load_white_reference w "cyan.png" init) = true /\
  white_balance_factors self = Some (infinity, 1, 1) /\
  out = (nan, 0.5, 0.5) /\
  (0 <=? chan Red out) = false /\ (chan Red out <=? 1) = false.
Proof. vm_compute. repeat split; reflexivity. Qed.

(** C8: for a channel value that is not negative and two correction factors
    in order, the corrected and clipped outputs are in the same order,
    provided both products are numbers, as they are for finite operands.
    The code loses the order where a product is NaN (the failing input
    below). *)
Theorem apply_white_balance_monotone (self1 self2 : analyzer)
    (factors1 factors2 rgb : triple) (c : channel) :
  white_balance_factors self1 = Some factors1 ->
  white_balance_factors self2 = Some factors2 ->
  (0 <=? chan c rgb) = true ->
  (chan c factors1 <=? chan c factors2) = true ->
  is_nan (chan c rgb * chan c factors1) = false ->
  is_nan (chan c rgb * chan c factors2) = false ->
  (chan c (apply_white_balance self1 rgb)
   <=? chan c (apply_white_balance self2 rgb)) = true.
Proof.
  intros H1 H2 Hv Hf N1 N2.
  rewrite (apply_white_balance_chan self1 factors1 rgb c H1).
  rewrite (apply_white_balance_chan self2 factors2 rgb c H2).
  apply np_clip_mono. apply mul_le_mono; assumption.
Qed.

Lemma apply_white_balance_monotone_witness :
  let self1 := set_white_reference "a.png" (1, 0.5, 1) (1, 2, 1) init in
  let self2 := set_white_reference "b.png" (0.25, 0.5, 1) (4, 2, 1) init in
  (chan Red (1, 2, 1) <=? chan Red (4, 2, 1)) = true /\
  apply_white_balance self1 (0.2, 0.3, 0.4) = (0.2, 0.6, 0.4) /\
  apply_white_balance self2 (0.2, 0.3, 0.4) = (0.8, 0.6, 0.4) /\
  (chan Red (apply_white_balance self1 (0.2, 0.3, 0.4))
   <=? chan Red (apply_white_balance self2 (0.2, 0.3, 0.4))) = true.
Proof.
  intros self1 self2. split; [reflexivity|]. split; [reflexivity|].
  split; [reflexivity|].
  apply (apply_white_balance_monotone self1 self2 (1, 2, 1) (4, 2, 1)
           (0.2, 0.3, 0.4) Red); reflexivity.
Defined.

(** The failing input of C8.  With a zero channel value the order is lost
    between the factor 1 of a white reference and the infinite factor of a
    reference without red, which the code accepts. *)
Lemma apply_white_balance_monotone_counterexample :
  let w := world_of [("white.png", [(xff, xff, xff)]);
                     ("cyan.png", [(x00, xff, xff)])] in
  let self1 := snd (load_white_reference w "white.png" init) in
  let self2 := snd (load_white_reference w "cyan.png" init) in
  let rgb := (0, 0.5, 0.5) in
  white_balance_factors self1 = Some (1, 1, 1) /\
  white_balance_factors self2 = Some (infinity, 1, 1) /\
  (0 <=? chan Red rgb) = true /\
  (chan Red (1, 1, 1) <=? chan Red (infinity, 1, 1)) = true /\
  (chan Red (apply_white_balance self1 rgb)
   <=? chan Red (apply_white_balance self2 rgb)) = false.
Proof. vm_compute. repeat split; reflexivity. Qed.

End WhiteBalance.

(* ================================================================== *)
(** * The classifier *)
(* ================================================================== *)

(** Below a bound [lo <= t], every comparison [t <? c] with [c <= lo]
    answers no. *)
Lemma ltb_below (c lo t : float) :
  (c <=? lo) = true -> (lo <=? t) = true -> (t <? c) = false.
Proof.
  intros Hc Ht. apply leb_ltb_false. exact (leb_trans _ _ _ Hc Ht).
Qed.

Lemma leb_below (c lo t : float) :
  (c <=? lo) = true -> (lo <? t) = true -> (t <=? c) = false.
Proof.
  intros Hc Ht. apply ltb_leb_false. exact (leb_ltb_trans _ _ _ Hc Ht).
Qed.

Lemma light_band_sound (t : float) (b : band string) :
  In b light_bands -> in_band b t = true ->
  get_physical_light_description t = band_value b.
Proof.
  intros Hb Ht. unfold get_physical_light_description.
  simpl in Hb.
  repeat (destruct Hb as [<-|Hb]; [| ]); try contradiction;
    apply andb_prop in Ht; destruct Ht as [Hlo Hhi];
    cbn [band_lo band_hi mk_band] in Hlo, Hhi;
    repeat match goal with
           | |- context [PrimFloat.ltb t ?c] =>
               first [ rewrite Hhi
                     | match type of Hlo with
                       | (?lo <=? _) = true =>
                           rewrite (ltb_below c lo t eq_refl Hlo)
                       end ]
           end; reflexivity.
Qed.

Lemma light_band_total (t : float) :
  is_nan t = false -> exists b, In b light_bands /\ in_band b t = true.
Proof.
  intros Hn.
  assert (step : forall c, is_nan c = false ->
                           (t <? c) = true \/ (c <=? t) = true)
    by (intros c Hc; apply not_nan_total; assumption).
  unfold light_bands, in_band.
  destruct (step 2000 eq_refl) as [H2|H2];
    [eexists; split; [left; reflexivity|simpl; exact H2]|].
  destruct (step 3000 eq_refl) as [H3|H3];
    [eexists; split; [right; left; reflexivity|simpl; rewrite H2, H3; reflexivity]|].
  destruct (step 4000 eq_refl) as [H4|H4];
    [eexists; split; [do 2 right; left; reflexivity
                     |simpl; rewrite H3, H4; reflexivity]|].
  destruct (step 5000 eq_refl) as [H5|H5];
    [eexists; split; [do 3 right; left; reflexivity
                     |simpl; rewrite H4, H5; reflexivity]|].
  destruct (step 6000 eq_refl) as [H6|H6];
    [eexists; split; [do 4 right; left; reflexivity
                     |simpl; rewrite H5, H6; reflexivity]|].
  destruct (step 7000 eq_refl) as [H7|H7];
    [eexists; split; [do 5 right; left; reflexivity
                     |simpl; rewrite H6, H7; reflexivity]|].
  destruct (step 8000 eq_refl) as [H8|H8];
    [eexists; split; [do 6 right; left; reflexivity
                     |simpl; rewrite H7, H8; reflexivity]|].
  eexists; split; [do 7 right; left; reflexivity|simpl; rewrite H8; reflexivity].
Qed.

Lemma light_labels_distinct : NoDup (map band_value light_bands).
Proof.
  simpl. repeat (constructor; [simpl; intuition discriminate|]). constructor.
Qed.

(** A temperature equal to a boundary lies in the band that starts there. *)
Lemma at_boundary_in_upper (t c : float) (b : band string) :
  (t =? c) = true -> band_lo b = Some c ->
  in_band b c = true -> in_band b t = true.
Proof.
  intros He Hlo Hc. unfold in_band in *. rewrite Hlo in *.
  apply andb_prop in Hc. destruct Hc as [_ Hhi].
  apply andb_true_intro. split.
  - apply eqb_leb_incl. rewrite eqb_sym. exact He.
  - destruct (band_hi b) as [hi|]; [|reflexivity].
    exact (leb_ltb_trans _ _ _ (eqb_leb_incl _ _ He) Hhi).
Qed.

(** C9: [get_physical_light_description] sorts the temperatures into
    exactly eight bands with distinct labels, bounded by 2000, 3000, ...,
    8000, each closed below and open above, the last unbounded: a
    temperature in a band gets that band's label, every temperature that is
    a number is in a band, and at each boundary the label is that of the band
    above, which differs from the label of the band that ends there. *)
Theorem physical_light_description_bands :
  List.length light_bands = 8%nat /\
  NoDup (map band_value light_bands) /\
  (forall t b, In b light_bands -> in_band b t = true ->
               get_physical_light_description t = band_value b) /\
  (forall t, is_nan t = false ->
             exists b, In b light_bands /\ in_band b t = true) /\
  (forall c, In c light_boundaries ->
     exists lower upper,
       band_upto c = Some lower /\ band_from c = Some upper /\
       band_hi lower = Some c /\ band_lo upper = Some c /\
       band_value lower <> band_value upper /\
       (forall t, (t =? c) = true ->
                  get_physical_light_description t = band_value upper) /\
       (forall t, in_band lower t = true ->
                  (t <? c) = true /\
                  get_physical_light_description t = band_value lower)).
Proof.
  split; [reflexivity|].
  split; [exact light_labels_distinct|].
  split; [intros t b; apply light_band_sound|].
  split; [exact light_band_total|].
  intros c Hc. simpl in Hc.
  repeat (destruct Hc as [<-|Hc]; [| ]); try contradiction;
    (eexists; eexists;
     split; [vm_compute; reflexivity|];
     split; [vm_compute; reflexivity|];
     split; [reflexivity|];
     split; [reflexivity|];
     split; [simpl; discriminate|];
     split;
     [ intros t He; apply light_band_sound;
       [simpl; tauto
       |eapply at_boundary_in_upper; [exact He|reflexivity|reflexivity]]
     | intros t Ht; split;
       [ apply andb_prop in Ht; exact (proj2 Ht)
       | apply light_band_sound; [simpl; tauto|exact Ht] ] ]).
Qed.

(** Probes on both sides of a boundary and at it. *)
Example light_probe_2000 :
  get_physical_light_description 1999.9999999999998
    = "Sehr warm - Kerzenlicht, Petroleum-/Gaslampe" /\
  get_physical_light_description 2000
    = "Warm - Glühlampe, warmes LED-Licht" /\
  get_physical_light_description 7999.999999999999
    = "Kalt - Schatten im Freien, Nordfenster" /\
  get_physical_light_description 8000
    = "Sehr kalt - klarer blauer Himmel, Hochgebirge".
Proof. repeat split; reflexivity. Qed.

Lemma wb_bucket_sound (t : float) (b : band Z) :
  In b wb_buckets -> in_bucket b t = true ->
  calculate_inverse_wb_setting t = band_value b.
Proof.
  intros Hb Ht. unfold calculate_inverse_wb_setting.
  simpl in Hb.
  repeat (destruct Hb as [<-|Hb]; [| ]); try contradiction;
    apply andb_prop in Ht; destruct Ht as [Hlo Hhi];
    cbn [band_lo band_hi mk_band] in Hlo, Hhi;
    repeat match goal with
           | |- context [PrimFloat.leb t ?c] =>
               first [ rewrite Hhi
                     | match type of Hlo with
                       | (?lo <? _) = true =>
                           rewrite (leb_below c lo t eq_refl Hlo)
                       end ]
           end; reflexivity.
Qed.

(** A temperature in none of the six bounded buckets is above none of the
    upper bounds. *)
Lemma wb_bucket_none (t : float) :
  (forall b, In b wb_buckets -> in_bucket b t = false) ->
  (t <=? 8500) = false.
Proof.
  intros Hnone.
  assert (step : forall lo hi v,
             In (mk_band (Some lo) (Some hi) v) wb_buckets ->
             is_nan lo = false ->
             (t <=? lo) = false -> (t <=? hi) = false).
  { intros lo hi v Hin Hlo Hle.
    apply not_true_is_false. intros Hhi.
    destruct (leb_not_nan _ _ Hhi) as [Ht _].
    destruct (not_nan_total lo t Hlo Ht) as [Hlt|Hge]; [|congruence].
    specialize (Hnone _ Hin). unfold in_bucket in Hnone. simpl in Hnone.
    rewrite Hlt, Hhi in Hnone. discriminate Hnone. }
  assert (H2 : (t <=? 2000) = false).
  { specialize (Hnone (mk_band None (Some 2000) 9000%Z)).
    apply Hnone. simpl. tauto. }
  assert (H3 : (t <=? 3000) = false)
    by (apply (step 2000 3000 7000%Z); [simpl; tauto|reflexivity|exact H2]).
  assert (H4 : (t <=? 4000) = false)
    by (apply (step 3000 4000 5500%Z); [simpl; tauto|reflexivity|exact H3]).
  assert (H5 : (t <=? 5500) = false)
    by (apply (step 4000 5500 4000%Z); [simpl; tauto|reflexivity|exact H4]).
  assert (H7 : (t <=? 7000) = false)
    by (apply (step 5500 7000 3200%Z); [simpl; tauto|reflexivity|exact H5]).
  apply (step 7000 8500 2800%Z); [simpl; tauto|reflexivity|exact H7].
Qed.

Lemma wb_otherwise_sound (t : float) :
  (forall b, In b wb_buckets -> in_bucket b t = false) ->
  calculate_inverse_wb_setting t = wb_otherwise.
Proof.
  intros Hnone. pose proof (wb_bucket_none t Hnone) as H8.
  unfold calculate_inverse_wb_setting.
  assert (down : forall c, (c <=? 8500) = true -> (t <=? c) = false).
  { intros c Hc. apply not_true_is_false. intros Ht.
    rewrite (leb_trans _ _ _ Ht Hc) in H8. discriminate H8. }
  rewrite (down 2000 eq_refl), (down 3000 eq_refl), (down 4000 eq_refl),
    (down 5500 eq_refl), (down 7000 eq_refl), H8.
  reflexivity.
Qed.

Lemma wb_setting_range (t : float) :
  In (calculate_inverse_wb_setting t) wb_settings.
Proof.
  unfold calculate_inverse_wb_setting, wb_settings.
  repeat match goal with
         | |- context [PrimFloat.leb t ?c] => destruct (PrimFloat.leb t c)
         end; simpl; tauto.
Qed.

(** C10: [calculate_inverse_wb_setting] is the seven-bucket table: 9000 up
    to 2000, 7000 above 2000 up to 3000, 5500 up to 4000, 4000 up to 5500,
    3200 up to 7000, 2800 up to 8500 and 2300 otherwise, and it takes
    exactly these seven values. *)
Theorem inverse_wb_setting_table :
  (forall t b, In b wb_buckets -> in_bucket b t = true ->
               calculate_inverse_wb_setting t = band_value b) /\
  (forall t, (forall b, In b wb_buckets -> in_bucket b t = false) ->
             calculate_inverse_wb_setting t = wb_otherwise) /\
  (forall t, In (calculate_inverse_wb_setting t) wb_settings) /\
  (forall v, In v wb_settings ->
             exists t, calculate_inverse_wb_setting t = v) /\
  wb_settings = (map band_value wb_buckets ++ [wb_otherwise])%list.
Proof.
  split; [intros t b; apply wb_bucket_sound|].
  split; [exact wb_otherwise_sound|].
  split; [exact wb_setting_range|].
  split; [|reflexivity].
  intros v Hv. simpl in Hv.
  destruct Hv as [<-|[<-|[<-|[<-|[<-|[<-|[<-|[]]]]]]]].
  - exists 2000. reflexivity.
  - exists 3000. reflexivity.
  - exists 4000. reflexivity.
  - exists 5500. reflexivity.
  - exists 7000. reflexivity.
  - exists 8500. reflexivity.
  - exists 8500.000000000002. reflexivity.
Qed.

(** Probes at the lower edge and in the middle of each bucket. *)
Example inverse_wb_probes :
  map calculate_inverse_wb_setting
      [0; 1000; 2000; 2000.0000000000002; 2500; 3000; 3000.0000000000005;
       3500; 4000.000000000001; 4750; 5500.000000000001; 6250;
       7000.000000000001; 7750; 8500; 8500.000000000002; 10000]
  = [9000; 9000; 9000; 7000; 7000; 7000; 5500; 5500; 4000; 4000; 3200; 3200;
     2800; 2800; 2800; 2300; 2300]%Z.
Proof. reflexivity. Qed.


(** * The analyzer object *)

(** ** Loading a white reference *)

(** With numpy in its default error state no division raises, and the
    statements of [load_white_reference] come to one update of the three
    white-reference attributes. *)
Lemma divide3_default (t : triple) (d : float) :
  divide3 np_default t d = Some (map3 (fun c => c / d) t).
Proof. destruct t as [[a b] c]. reflexivity. Qed.

Lemma rdivide3_default (n : float) (t : triple) :
  rdivide3 np_default n t = Some (map3 (fun c => n / c) t).
Proof. destruct t as [[a b] c]. reflexivity. Qed.

Lemma average_reference_default (img : image) :
  average_reference_under np_default img = Some (average_reference img).
Proof.
  unfold average_reference_under, average_reference, mean_axis0.
  rewrite divide3_default, divide3_default. reflexivity.
Qed.

Lemma load_white_reference_eq (w : world) (p : string) (a : analyzer) :
  load_white_reference w p a
  = if negb (path_exists w p) then (false, a)
    else if negb (supported_format (lower (splitext_ext p))) then (false, a)
    else match image_open w p with
         | None => (false, a)
         | Some img =>
             (true, set_white_reference p (average_reference img)
                      (calibrate (average_reference img)) a)
         end.
Proof.
  unfold load_white_reference, load_white_reference_under.
  destruct (negb (path_exists w p)); [reflexivity|].
  destruct (negb (supported_format (lower (splitext_ext p)))); [reflexivity|].
  destruct (image_open w p) as [img|]; [|reflexivity].
  rewrite average_reference_default, rdivide3_default, divide3_default.
  reflexivity.
Qed.

(** The call either returns [False] and leaves the object alone, or the file
    decoded and all three white-reference attributes are replaced. *)
Lemma load_white_reference_cases (w : world) (p : string) (a : analyzer) :
  load_white_reference w p a = (false, a) \/
  exists img,
    image_open w p = Some img /\
    load_white_reference w p a
    = (true, set_white_reference p (average_reference img)
               (calibrate (average_reference img)) a).
Proof.
  rewrite load_white_reference_eq.
  destruct (negb (path_exists w p)); [left; reflexivity|].
  destruct (negb (supported_format (lower (splitext_ext p))));
    [left; reflexivity|].
  destruct (image_open w p) as [img|]; [|left; reflexivity].
  right. exists img. split; reflexivity.
Qed.

Lemma load_white_reference_success (w : world) (p : string) (a : analyzer)
    (img : image) :
  path_exists w p = true ->
  supported_format (lower (splitext_ext p)) = true ->
  image_open w p = Some img ->
  load_white_reference w p a
  = (true, set_white_reference p (average_reference img)
             (calibrate (average_reference img)) a).
Proof.
  intros He Hf Ho. rewrite load_white_reference_eq.
  rewrite He, Hf, Ho. reflexivity.
Qed.

Lemma load_white_reference_failed (w : world) (p : string) (a : analyzer) :
  fst (load_white_reference w p a) = false ->
  snd (load_white_reference w p a) = a.
Proof.
  intros H. destruct (load_white_reference_cases w p a) as [E|[img [_ E]]];
    rewrite E in *; [reflexivity|discriminate H].
Qed.

(** ** Calls that never touch the calibration *)

Lemma load_image_calibration (w : world) (p : string) (a : analyzer) :
  calibration (snd (load_image w p a)) = calibration a.
Proof.
  unfold load_image.
  destruct (negb (path_exists w p)); [reflexivity|].
  destruct (negb (supported_format (lower (splitext_ext p)))); [reflexivity|].
  destruct (image_open w p); [reflexivity|].
  destruct (fails_in_array w p); reflexivity.
Qed.

Lemma calculate_average_rgb_calibration (wb : bool) (a : analyzer) :
  calibration (snd (calculate_average_rgb wb a)) = calibration a.
Proof.
  unfold calculate_average_rgb.
  destruct (image_array a); [|reflexivity].
  match goal with
  | |- context [if ?c then _ else _] => destruct c; reflexivity
  end.
Qed.

Lemma analyze_color_temperature_calibration
    (cpow : float -> float -> float) (wb : bool) (a : analyzer) :
  calibration (snd (analyze_color_temperature cpow wb a)) = calibration a.
Proof.
  unfold analyze_color_temperature.
  destruct (image_array a) eqn:Hi; [|reflexivity].
  pose proof (calculate_average_rgb_calibration wb a) as Hc.
  destruct (calculate_average_rgb wb a) as [avg a1]. cbn [snd] in Hc.
  destruct avg as [rgb|]; [|exact Hc].
  destruct (rgb_to_xyz cpow NpFloat64 rgb) as [xyz|e]; [|exact Hc].
  destruct (xyz_to_cct cpow NpFloat64 xyz) as [t|e]; exact Hc.
Qed.

Lemma finish_analysis_state (r : result (option float)) (a : analyzer) :
  snd (finish_analysis r a) = a.
Proof. destruct r as [[t|]|e]; reflexivity. Qed.

Lemma analyze_image_calibration (cpow : float -> float -> float) (w : world)
    (p : string) (wb : bool) (a : analyzer) :
  calibration (snd (analyze_image cpow w p wb a)) = calibration a.
Proof.
  unfold analyze_image.
  pose proof (load_image_calibration w p a) as Hl.
  destruct (load_image w p a) as [b a1]. cbn [snd] in Hl.
  destruct (negb b); [exact Hl|].
  pose proof (analyze_color_temperature_calibration cpow wb a1) as Ht.
  destruct (analyze_color_temperature cpow wb a1) as [t a2]. cbn [snd] in Ht.
  rewrite finish_analysis_state. congruence.
Qed.

(** The combined call keeps whatever [load_white_reference] left. *)
Lemma analyze_image_with_white_balance_calibration
    (cpow : float -> float -> float) (w : world) (p q : string)
    (a : analyzer) :
  calibration (snd (analyze_image_with_white_balance cpow w p q a))
  = calibration (snd (load_white_reference w q a)).
Proof.
  unfold analyze_image_with_white_balance.
  destruct (load_white_reference w q a) as [b a0]. cbn [snd].
  destruct (negb b); [reflexivity|].
  pose proof (load_image_calibration w p a0) as Hl.
  destruct (load_image w p a0) as [b1 a1]. cbn [snd] in Hl.
  destruct (negb b1); [exact Hl|].
  pose proof (analyze_color_temperature_calibration cpow true a1) as Ht.
  destruct (analyze_color_temperature cpow true a1) as [t a2]. cbn [snd] in Ht.
  rewrite finish_analysis_state. congruence.
Qed.

(** C2: a reference with a zero channel is not rejected.  Whenever the file
    exists, has a supported extension and decodes, [load_white_reference]
    returns [True] and stores the factors; for the one-pixel reference
    (0, 128, 255) the stored red factor is infinite, and for a black
    reference all three factors are NaN. *)
Theorem load_white_reference_zero_channel :
  (forall (w : world) (p : string) (a : analyzer) (img : image),
      path_exists w p = true ->
      supported_format (lower (splitext_ext p)) = true ->
      image_open w p = Some img ->
      load_white_reference w p a
      = (true, set_white_reference p (average_reference img)
                 (calibrate (average_reference img)) a)) /\
  average_reference [(x00, x80, xff)] = (0, 128 / 255, 1) /\
  load_white_reference (world_of [("ref.png", [(x00, x80, xff)])])
    "ref.png" init
  = (true, set_white_reference "ref.png" (0, 128 / 255, 1)
             (infinity, 1.9921875, 1) init) /\
  load_white_reference (world_of [("black.png", [(x00, x00, x00)])])
    "black.png" init
  = (true, set_white_reference "black.png" (0, 0, 0) (nan, nan, nan) init).
Proof.
  split; [exact load_white_reference_success|].
  split; [vm_compute; reflexivity|].
  split; vm_compute; reflexivity.
Qed.

(** ** Failed calls and the calibration *)

(** C3: with numpy in its default error state, a call that fails leaves the
    three white-reference attributes as they were, with one exception:
    [analyze_image_with_white_balance] fails after [load_white_reference]
    returned [True] for its reference (the file exists, has a supported
    extension and decodes).  The attributes then hold the calibration of
    that reference, all three of them.  So after a failed call the three
    attributes are all old or all new. *)
Theorem failed_call_calibration (cpow : float -> float -> float) (w : world)
    (op : operation) (a : analyzer) :
  fst (run cpow w op a) = Failed ->
  match op with
  | AnalyzeImageWithWhiteBalance _ q =>
      if fst (load_white_reference w q a)
      then (exists img,
              path_exists w q = true /\
              supported_format (lower (splitext_ext q)) = true /\
              image_open w q = Some img /\
              calibration (snd (run cpow w op a))
              = (Some q, Some (average_reference img),
                 Some (calibrate (average_reference img))))
      else (calibration (snd (run cpow w op a)) = calibration a)
  | _ => calibration (snd (run cpow w op a)) = calibration a
  end.
Proof.
  intros Hf. destruct op as [p|p|wb|wb|inc|p q|p wb]; cbn [run] in *.
  - destruct (load_white_reference_cases w p a) as [E|[img [_ E]]];
      rewrite E in *; [reflexivity|discriminate Hf].
  - pose proof (load_image_calibration w p a) as H.
    destruct (load_image w p a); exact H.
  - pose proof (calculate_average_rgb_calibration wb a) as H.
    destruct (calculate_average_rgb wb a); exact H.
  - pose proof (analyze_color_temperature_calibration cpow wb a) as H.
    destruct (analyze_color_temperature cpow wb a); exact H.
  - reflexivity.
  - pose proof (analyze_image_with_white_balance_calibration cpow w p q a)
      as H.
    destruct (analyze_image_with_white_balance cpow w p q a) as [r a'].
    cbn [snd] in *. clear Hf.
    rewrite load_white_reference_eq in *.
    destruct (path_exists w q); cbn [negb fst snd] in *; [|exact H].
    destruct (supported_format (lower (splitext_ext q)));
      cbn [negb fst snd] in *; [|exact H].
    destruct (image_open w q) as [img|]; cbn [fst snd] in *; [|exact H].
    exists img. repeat split. exact H.
  - pose proof (analyze_image_calibration cpow w p wb a) as H.
    destruct (analyze_image cpow w p wb a); exact H.
Qed.

Lemma failed_call_calibration_witness :
  (fst (run product_pow session_world (LoadWhiteReference "missing.png")
          calibrated) = Failed /\
   calibration
     (snd (run product_pow session_world (LoadWhiteReference "missing.png")
             calibrated))
   = calibration calibrated) /\
  (fst (run product_pow session_world
          (AnalyzeImageWithWhiteBalance "missing.png" "grey.png") calibrated)
   = Failed /\
   exists img,
     path_exists session_world "grey.png" = true /\
     supported_format (lower (splitext_ext "grey.png")) = true /\
     image_open session_world "grey.png" = Some img /\
     calibration
       (snd (run product_pow session_world
               (AnalyzeImageWithWhiteBalance "missing.png" "grey.png")
               calibrated))
     = (Some "grey.png", Some (average_reference img),
        Some (calibrate (average_reference img)))).
Proof.
  split; (split; [reflexivity|]).
  - exact (failed_call_calibration product_pow session_world
             (LoadWhiteReference "missing.png") calibrated eq_refl).
  - exact (failed_call_calibration product_pow session_world
             (AnalyzeImageWithWhiteBalance "missing.png" "grey.png")
             calibrated eq_refl).
Defined.

(** The combined call on a missing image and a second reference fails, and
    the calibration it leaves is that of the second reference. *)
Lemma failed_call_calibration_counterexample :
  fst (run product_pow session_world
         (AnalyzeImageWithWhiteBalance "missing.png" "grey.png") calibrated)
  = Failed /\
  calibration calibrated
  = (Some "white.png", Some (1, 1, 1), Some (1, 1, 1)) /\
  calibration
    (snd (run product_pow session_world
            (AnalyzeImageWithWhiteBalance "missing.png" "grey.png")
            calibrated))
  = (Some "grey.png", Some (128 / 255, 128 / 255, 1),
     Some (1.9921875, 1.9921875, 1)) /\
  String.eqb "grey.png" "white.png" = false.
Proof. vm_compute. repeat split; reflexivity. Qed.

(** Why the error state matters: line 56 assigns the reference colour
    before lines 60 to 64 divide.  Under [np.seterr(divide='raise')] a
    reference without red makes line 60 raise, and the call returns [False]
    with the new colour beside the old factors and path. *)
Example load_white_reference_raising_divide :
  let w := world_of [("white.png", [(xff, xff, xff)]);
                     ("cyan.png", [(x00, xff, xff)])] in
  let a := snd (load_white_reference w "white.png" init) in
  calibration a = (Some "white.png", Some (1, 1, 1), Some (1, 1, 1)) /\
  load_white_reference_under np_raise_divide w "cyan.png" a
  = (false, set_white_reference_rgb (0, 1, 1) a) /\
  calibration (snd (load_white_reference_under np_raise_divide w "cyan.png" a))
  = (Some "white.png", Some (0, 1, 1), Some (1, 1, 1)) /\
  fst (load_white_reference w "cyan.png" a) = true.
Proof. vm_compute. repeat split; reflexivity. Qed.

(** [load_image] assigns the path before the pixels are decoded: a file in
    mode RGB that does not decode leaves its path beside the old array. *)
Example load_image_fails_in_array :
  let w := {| path_exists := fun _ => true;
              image_open := fun _ => None;
              fails_in_array := fun _ => true;
              image_save := fun _ _ => false |} in
  let a := set_image "old.png" [(x10, x20, x30)] init in
  load_image w "cut.png" a = (false, set_image_path "cut.png" a) /\
  image_path (snd (load_image w "cut.png" a)) = Some "cut.png" /\
  image_array (snd (load_image w "cut.png" a)) = Some [(x10, x20, x30)].
Proof. vm_compute. repeat split; reflexivity. Qed.


(* ================================================================== *)
(** * More on the classifier *)
(* ================================================================== *)

(** X1: The warmer the image, the higher the setting:
    [calculate_inverse_wb_setting] never increases with the temperature. *)
Theorem inverse_wb_setting_antitone (t1 t2 : float) :
  (t1 <=? t2) = true ->
  (calculate_inverse_wb_setting t2 <= calculate_inverse_wb_setting t1)%Z.
Proof.
  intros H.
  assert (step : forall c, (t2 <=? c) = true -> (t1 <=? c) = true)
    by (intros c Hc; exact (leb_trans _ _ _ H Hc)).
  unfold calculate_inverse_wb_setting.
  repeat match goal with
         | |- context [PrimFloat.leb t2 ?c] =>
             let E := fresh "E" in
             destruct (PrimFloat.leb t2 c) eqn:E;
             [rewrite ?(step c E)|]
         end;
  repeat match goal with
         | |- context [PrimFloat.leb t1 ?c] => destruct (PrimFloat.leb t1 c)
         end; lia.
Qed.

Lemma inverse_wb_setting_antitone_witness :
  (2500 <=? 6000) = true /\
  (calculate_inverse_wb_setting 6000 <= calculate_inverse_wb_setting 2500)%Z.
Proof.
  split; [reflexivity|].
  apply (inverse_wb_setting_antitone 2500 6000). reflexivity.
Defined.

Local Ltac light_cascade t :=
  destruct (PrimFloat.ltb t 2000);
  [|destruct (PrimFloat.ltb t 3000);
    [|destruct (PrimFloat.ltb t 4000);
      [|destruct (PrimFloat.ltb t 5000);
        [|destruct (PrimFloat.ltb t 6000);
          [|destruct (PrimFloat.ltb t 7000);
            [|destruct (PrimFloat.ltb t 8000)]]]]]].

Lemma description_pair (t : float) :
  In (get_physical_light_description t, get_camera_wb_setting_description t)
     description_pairs.
Proof.
  unfold get_physical_light_description, get_camera_wb_setting_description,
    description_pairs.
  light_cascade t; simpl; tauto.
Qed.

(** X2: The light source and the camera setting described for a temperature
    always come from the same one of the eight bands: the pair of labels is
    one of eight, no label occurs in two pairs, and so two temperatures share
    one description exactly when they share the other. *)
Theorem descriptions_from_same_band :
  (forall t, In (get_physical_light_description t,
                 get_camera_wb_setting_description t) description_pairs) /\
  List.length description_pairs = 8%nat /\
  NoDup (map fst description_pairs) /\
  NoDup (map snd description_pairs) /\
  (forall t1 t2,
      get_physical_light_description t1 = get_physical_light_description t2
      <-> get_camera_wb_setting_description t1
          = get_camera_wb_setting_description t2).
Proof.
  split; [exact description_pair|].
  split; [reflexivity|].
  split; [simpl; repeat (constructor; [simpl; intuition discriminate|]);
          constructor|].
  split; [simpl; repeat (constructor; [simpl; intuition discriminate|]);
          constructor|].
  intros t1 t2.
  unfold get_physical_light_description, get_camera_wb_setting_description.
  light_cascade t1; light_cascade t2;
    (split; intros H; first [reflexivity | discriminate H]).
Qed.

(** How a temperature compares with a constant, through the keys. *)
Local Ltac key_facts t :=
  repeat match goal with
         | H : fkey t = None \/ _ |- _ => destruct H as [H|H]
         | H1 : fkey t = Some _, H2 : fkey t = None |- _ =>
             exfalso; rewrite H1 in H2; discriminate H2
         | H : fkey t = Some ?a |- _ =>
             is_var a; destruct a as [[? ?] ?]
         | H1 : fkey t = Some (_, _, _), H2 : fkey t = Some (_, _, _) |- _ =>
             rewrite H1 in H2; injection H2; intros; clear H2
         | H : fkey ?c = None |- _ =>
             lazymatch c with
             | t => fail
             | _ => exfalso; vm_compute in H; discriminate H
             end
         | H : fkey ?c = Some _ |- _ =>
             lazymatch c with
             | t => fail
             | _ => vm_compute in H; injection H as H; subst
             end
         end.

Local Ltac cmp_const t c :=
  let V := fresh "V" in
  pose proof (float_cmp t c) as V; destruct V;
  key_facts t;
  try (exfalso; unfold key_lt in *; lia);
  repeat match goal with
         | H : PrimFloat.ltb _ _ = _ |- _ => rewrite ?H in *; clear H
         | H : PrimFloat.leb _ _ = _ |- _ => rewrite ?H in *; clear H
         | H : PrimFloat.eqb _ _ = _ |- _ => rewrite ?H in *; clear H
         end.

(** X3: The estimated setting is inside the range that the camera description
    names, except at the temperatures between the two cascades: at 2000,
    3000, 4000 and 7000, above 5500 and below 6000, and from 8000 to 8500
    the dictionary's estimate contradicts its description. *)
Theorem estimate_and_description (t : float) :
  estimate_within_description t = negb (between_the_cascades t).
Proof.
  unfold estimate_within_description, between_the_cascades,
    calculate_inverse_wb_setting, get_camera_wb_setting_description.
  cmp_const t 2000; cmp_const t 3000; cmp_const t 4000; cmp_const t 5000;
    cmp_const t 5500; cmp_const t 6000; cmp_const t 7000; cmp_const t 8000;
    cmp_const t 8500; reflexivity.
Qed.

Example estimate_and_description_probes :
  map (fun t => (calculate_inverse_wb_setting t,
                 get_camera_wb_setting_description t))
      [8200; 5750; 6500]
  = [ (2800%Z, "Kamera WB: ~2000-2500K (Starke Kaltton-Korrektur)");
      (3200%Z, "Kamera WB: ~3500-4000K (Nahezu neutral)");
      (3200%Z, "Kamera WB: ~3000-3500K (Leichte Kaltton-Korrektur)") ].
Proof. reflexivity. Qed.

(* ================================================================== *)
(** * Sequences of calls *)
(* ================================================================== *)

Lemma coherent_spec (a : analyzer) :
  coherent a = true <->
  (is_some (color_temperature a) = true ->
   is_some (avg_rgb a) = true /\ is_some (corrected_rgb a) = true) /\
  (is_some (white_balance_factors a) = true ->
   is_some (white_reference_rgb a) = true).
Proof.
  unfold coherent.
  destruct (color_temperature a), (avg_rgb a), (corrected_rgb a),
    (white_balance_factors a), (white_reference_rgb a); cbn;
    intuition congruence.
Qed.

Lemma load_white_reference_coherent (w : world) (p : string) (a : analyzer) :
  coherent a = true -> coherent (snd (load_white_reference w p a)) = true.
Proof.
  intros H.
  destruct (load_white_reference_cases w p a) as [E|[img [_ E]]]; rewrite E;
    [exact H|].
  cbn [snd]. unfold coherent in *. cbn.
  rewrite andb_true_r. apply andb_prop in H. exact (proj1 H).
Qed.

Lemma load_image_coherent (w : world) (p : string) (a : analyzer) :
  coherent a = true -> coherent (snd (load_image w p a)) = true.
Proof.
  intros H. unfold load_image.
  destruct (negb (path_exists w p)); [exact H|].
  destruct (negb (supported_format (lower (splitext_ext p)))); [exact H|].
  destruct (image_open w p); [exact H|].
  destruct (fails_in_array w p); exact H.
Qed.

Lemma calculate_average_rgb_coherent (wb : bool) (a : analyzer) :
  coherent a = true ->
  coherent (snd (calculate_average_rgb wb a)) = true /\
  (fst (calculate_average_rgb wb a) <> None ->
   is_some (avg_rgb (snd (calculate_average_rgb wb a))) = true /\
   is_some (corrected_rgb (snd (calculate_average_rgb wb a))) = true).
Proof.
  intros H. unfold calculate_average_rgb.
  destruct (image_array a) as [arr|]; [|split; [exact H|intros C; exfalso; apply C; reflexivity]].
  apply andb_prop in H. destruct H as [_ H2].
  match goal with
  | |- context [if ?c then _ else _] => destruct c
  end; cbn [fst snd]; unfold coherent; cbn; rewrite implb_true_r;
    (split; [exact H2|intros _; split; reflexivity]).
Qed.

Lemma get_analysis_results_coherent (inc : bool) (a : analyzer) :
  coherent a = true -> exists d, get_analysis_results inc a = Ok d.
Proof.
  intros H. apply coherent_spec in H. destruct H as [H1 H2].
  unfold get_analysis_results.
  destruct (color_temperature a) as [t|]; [|eexists; reflexivity].
  destruct (H1 eq_refl) as [Ha Hc].
  destruct (avg_rgb a) as [avg|]; [|discriminate Ha].
  destruct (corrected_rgb a) as [cor|]; [|discriminate Hc].
  cbn [subscript bind].
  destruct inc; cbn [andb]; [|eexists; reflexivity].
  destruct (white_balance_factors a) as [f|]; cbn [is_some];
    [|eexists; reflexivity].
  specialize (H2 eq_refl).
  destruct (white_reference_rgb a) as [r|]; [|discriminate H2].
  eexists; reflexivity.
Qed.

Section Calls.

Variable cpow : float -> float -> float.

(** With numpy scalars the conversion to XYZ never raises. *)
Lemma rgb_to_xyz_np_total (rgb : triple) :
  exists xyz, rgb_to_xyz cpow NpFloat64 rgb = Ok xyz.
Proof.
  destruct rgb as [[r g] b]. unfold rgb_to_xyz, gamma_correct.
  destruct (r <=? 0.04045), (g <=? 0.04045), (b <=? 0.04045);
    cbn [truediv bind power]; eexists; reflexivity.
Qed.

Lemma analyze_color_temperature_coherent (wb : bool) (a : analyzer) :
  coherent a = true ->
  coherent (snd (analyze_color_temperature cpow wb a)) = true /\
  exists t, fst (analyze_color_temperature cpow wb a) = Ok t /\
            color_temperature (snd (analyze_color_temperature cpow wb a))
            = match image_array a with Some _ => t | None => color_temperature a end.
Proof.
  intros H. unfold analyze_color_temperature.
  destruct (image_array a) as [arr|] eqn:Hi;
    [|split; [exact H|exists None; split; reflexivity]].
  destruct (calculate_average_rgb_coherent wb a H) as [Hc Hs].
  assert (Hsome : fst (calculate_average_rgb wb a) <> None).
  { unfold calculate_average_rgb. rewrite Hi.
    match goal with
    | |- context [if ?c then _ else _] => destruct c
    end; discriminate. }
  specialize (Hs Hsome).
  destruct (calculate_average_rgb wb a) as [[rgb|] a1]; cbn [fst snd] in *;
    [|congruence].
  destruct (rgb_to_xyz_np_total rgb) as [xyz Ex]. rewrite Ex.
  destruct (xyz_to_cct_np_total cpow xyz) as [t Et]. rewrite Et.
  cbn [fst snd set_color_temperature color_temperature].
  split; [|exists t; split; reflexivity].
  apply andb_prop in Hc. destruct Hc as [_ H2].
  unfold coherent. cbn. destruct Hs as [-> ->]. rewrite implb_true_r.
  exact H2.
Qed.

Lemma finish_analysis_coherent (r : result (option float)) (a : analyzer) :
  coherent a = true -> (forall e, r <> Raise e) ->
  exists d, fst (finish_analysis r a) = Ok d.
Proof.
  intros H Hr. destruct r as [[t|]|e]; cbn [finish_analysis fst].
  - destruct (get_analysis_results_coherent true a H) as [d ->].
    eexists; reflexivity.
  - eexists; reflexivity.
  - exfalso. exact (Hr e eq_refl).
Qed.

Lemma analyze_then_finish (wb : bool) (a : analyzer) :
  coherent a = true ->
  let '(temp, a') := analyze_color_temperature cpow wb a in
  exists d, fst (finish_analysis temp a') = Ok d.
Proof.
  intros H.
  destruct (analyze_color_temperature_coherent wb a H) as [Hc [t [Et _]]].
  destruct (analyze_color_temperature cpow wb a) as [temp a'].
  cbn [fst snd] in *. subst temp.
  apply finish_analysis_coherent; [exact Hc|discriminate].
Qed.

Lemma analyze_image_ok (w : world) (p : string) (wb : bool) (a : analyzer) :
  coherent a = true -> exists r, fst (analyze_image cpow w p wb a) = Ok r.
Proof.
  intros H. unfold analyze_image.
  pose proof (load_image_coherent w p a H) as Hl.
  destruct (load_image w p a) as [b a1]. cbn [snd] in Hl.
  destruct (negb b); [eexists; reflexivity|].
  pose proof (analyze_then_finish wb a1 Hl) as Hf.
  destruct (analyze_color_temperature cpow wb a1) as [temp a2]. exact Hf.
Qed.

Lemma analyze_image_with_white_balance_ok (w : world) (p q : string)
    (a : analyzer) :
  coherent a = true ->
  exists r, fst (analyze_image_with_white_balance cpow w p q a) = Ok r.
Proof.
  intros H. unfold analyze_image_with_white_balance.
  pose proof (load_white_reference_coherent w q a H) as Hr.
  destruct (load_white_reference w q a) as [b0 a0]. cbn [snd] in Hr.
  destruct (negb b0); [eexists; reflexivity|].
  pose proof (load_image_coherent w p a0 Hr) as Hl.
  destruct (load_image w p a0) as [b a1]. cbn [snd] in Hl.
  destruct (negb b); [eexists; reflexivity|].
  pose proof (analyze_then_finish true a1 Hl) as Hf.
  destruct (analyze_color_temperature cpow true a1) as [temp a2]. exact Hf.
Qed.

Lemma run_coherent (w : world) (op : operation) (a : analyzer) :
  coherent a = true -> coherent (snd (run cpow w op a)) = true.
Proof.
  intros H. destruct op as [p|p|wb|wb|inc|p q|p wb]; cbn [run].
  - pose proof (load_white_reference_coherent w p a H) as Hc.
    destruct (load_white_reference w p a); exact Hc.
  - pose proof (load_image_coherent w p a H) as Hc.
    destruct (load_image w p a); exact Hc.
  - pose proof (calculate_average_rgb_coherent wb a H) as [Hc _].
    destruct (calculate_average_rgb wb a); exact Hc.
  - pose proof (analyze_color_temperature_coherent wb a H) as [Hc _].
    destruct (analyze_color_temperature cpow wb a); exact Hc.
  - exact H.
  - unfold analyze_image_with_white_balance.
    pose proof (load_white_reference_coherent w q a H) as Hr.
    destruct (load_white_reference w q a) as [b0 a0]. cbn [snd] in Hr.
    destruct (negb b0); [exact Hr|].
    pose proof (load_image_coherent w p a0 Hr) as Hl.
    destruct (load_image w p a0) as [b a1]. cbn [snd] in Hl.
    destruct (negb b); [exact Hl|].
    pose proof (analyze_color_temperature_coherent true a1 Hl) as [Hc _].
    destruct (analyze_color_temperature cpow true a1) as [temp a2].
    cbn [snd] in Hc.
    pose proof (finish_analysis_state temp a2) as Hs.
    destruct (finish_analysis temp a2) as [r a3]. cbn [snd] in *.
    subst a3. exact Hc.
  - unfold analyze_image.
    pose proof (load_image_coherent w p a H) as Hl.
    destruct (load_image w p a) as [b a1]. cbn [snd] in Hl.
    destruct (negb b); [exact Hl|].
    pose proof (analyze_color_temperature_coherent wb a1 Hl) as [Hc _].
    destruct (analyze_color_temperature cpow wb a1) as [temp a2].
    cbn [snd] in Hc.
    pose proof (finish_analysis_state temp a2) as Hs.
    destruct (finish_analysis temp a2) as [r a3]. cbn [snd] in *.
    subst a3. exact Hc.
Qed.

Lemma run_all_coherent (steps : list (world * operation)) :
  forall a, coherent a = true -> coherent (run_all cpow steps a) = true.
Proof.
  induction steps as [|[w op] rest IH]; intros a H; cbn [run_all];
    [exact H|].
  apply IH. apply run_coherent. exact H.
Qed.

End Calls.

(** X4: From a fresh analyzer, no order of calls makes a method raise: after any
    sequence of the seven calls, in whatever worlds, a temperature is only
    stored together with both averages and factors only together with their
    reference colour, so [get_analysis_results] finds every attribute it
    subscripts, and the three analysing methods return a value or [None]. *)
Theorem calls_never_raise (cpow : float -> float -> float)
    (steps : list (world * operation)) :
  coherent (run_all cpow steps init) = true /\
  (forall inc, exists d,
      get_analysis_results inc (run_all cpow steps init) = Ok d) /\
  (forall wb, exists t,
      fst (analyze_color_temperature cpow wb (run_all cpow steps init))
      = Ok t) /\
  (forall w p wb, exists r,
      fst (analyze_image cpow w p wb (run_all cpow steps init)) = Ok r) /\
  (forall w p q, exists r,
      fst (analyze_image_with_white_balance cpow w p q
             (run_all cpow steps init)) = Ok r).
Proof.
  pose proof (run_all_coherent cpow steps init eq_refl) as H.
  split; [exact H|].
  split; [intros inc; apply get_analysis_results_coherent; exact H|].
  split.
  { intros wb.
    destruct (analyze_color_temperature_coherent cpow wb _ H) as [_ [t [E _]]].
    exists t. exact E. }
  split; [intros w p wb; apply analyze_image_ok; exact H|].
  intros w p q. apply analyze_image_with_white_balance_ok. exact H.
Qed.

(** An object put together by hand can make [get_analysis_results] raise:
    a temperature without averages. *)
Example get_analysis_results_type_error :
  get_analysis_results true (set_color_temperature (Some 6500) init)
  = Raise TypeError.
Proof. reflexivity. Qed.

(** ** Results that outlive their image *)

(** X5: Loading another image does not reset the analysis: once an image is
    loaded, [get_analysis_results] returns what it returned before, the
    previous image's colours and temperature, under the new image's path. *)
Theorem results_after_load_image (w : world) (p : string) (inc : bool)
    (a : analyzer) :
  fst (load_image w p a) = true ->
  get_analysis_results inc (snd (load_image w p a))
  = with_image_path (Some p) (get_analysis_results inc a).
Proof.
  intros H. unfold load_image in *.
  destruct (negb (path_exists w p)); [discriminate H|].
  destruct (negb (supported_format (lower (splitext_ext p))));
    [discriminate H|].
  destruct (image_open w p) as [img|];
    [|destruct (fails_in_array w p); discriminate H].
  cbn [snd]. unfold get_analysis_results. cbn.
  destruct (color_temperature a) as [t|]; [|reflexivity].
  destruct (avg_rgb a) as [avg|]; [|reflexivity].
  destruct (corrected_rgb a) as [cor|]; [|reflexivity].
  cbn [subscript bind].
  destruct (inc && is_some (white_balance_factors a)); [|reflexivity].
  destruct (white_reference_rgb a) as [r|]; [|reflexivity].
  destruct (white_balance_factors a) as [f|]; reflexivity.
Qed.

Lemma results_after_load_image_witness :
  fst (load_image session_world "grey.png"
         (snd (analyze_image product_pow session_world "white.png" false init)))
  = true /\
  get_analysis_results true
    (snd (load_image session_world "grey.png"
            (snd (analyze_image product_pow session_world "white.png" false
                    init))))
  = with_image_path (Some "grey.png")
      (get_analysis_results true
         (snd (analyze_image product_pow session_world "white.png" false
                 init))).
Proof.
  split; [reflexivity|].
  apply (results_after_load_image session_world "grey.png" true
           (snd (analyze_image product_pow session_world "white.png" false
                   init))).
  reflexivity.
Defined.

(** X6: Loading another white reference does not reset the analysis either:
    [get_analysis_results] then reports the new reference and its correction
    factors beside the colours and the temperature of the earlier analysis,
    which were corrected with the old factors or with none. *)
Theorem results_after_load_white_reference (w : world) (q : string)
    (a : analyzer) (img : image) :
  image_open w q = Some img ->
  fst (load_white_reference w q a) = true ->
  get_analysis_results true (snd (load_white_reference w q a))
  = with_white_balance
      (Some {| reference_path := Some q;
               reference_rgb := average_reference img;
               correction_factors := calibrate (average_reference img) |})
      (get_analysis_results false a).
Proof.
  intros Ho H. rewrite load_white_reference_eq in *.
  destruct (negb (path_exists w q)); [discriminate H|].
  destruct (negb (supported_format (lower (splitext_ext q))));
    [discriminate H|].
  rewrite Ho. cbn [snd]. unfold get_analysis_results. cbn.
  destruct (color_temperature a) as [t|]; [|reflexivity].
  destruct (avg_rgb a) as [avg|]; [|reflexivity].
  destruct (corrected_rgb a) as [cor|]; reflexivity.
Qed.

Lemma results_after_load_white_reference_witness :
  image_open session_world "grey.png" = Some [(x80, x80, xff)] /\
  fst (load_white_reference session_world "grey.png"
         (snd (analyze_image product_pow session_world "white.png" false init)))
  = true /\
  get_analysis_results true
    (snd (load_white_reference session_world "grey.png"
            (snd (analyze_image product_pow session_world "white.png" false
                    init))))
  = with_white_balance
      (Some {| reference_path := Some "grey.png";
               reference_rgb := average_reference [(x80, x80, xff)];
               correction_factors :=
                 calibrate (average_reference [(x80, x80, xff)]) |})
      (get_analysis_results false
         (snd (analyze_image product_pow session_world "white.png" false
                 init))).
Proof.
  split; [reflexivity|]. split; [reflexivity|].
  apply (results_after_load_white_reference session_world "grey.png"
           (snd (analyze_image product_pow session_world "white.png" false
                   init)) [(x80, x80, xff)]); reflexivity.
Defined.

(** After white.png was analysed without white balance and grey.png was
    then loaded as image and as reference, the dictionary carries the
    temperature and colours of white.png under the path and with the
    factors of grey.png. *)
Example results_outlive_their_image :
  let a := snd (analyze_image product_pow session_world "white.png" false
                  init) in
  let a := snd (load_image session_world "grey.png" a) in
  let a := snd (load_white_reference session_world "grey.png" a) in
  exists d,
    get_analysis_results true a = Ok (ResultsDict d) /\
    res_image_path d = Some "grey.png" /\
    original_rgb d = (1, 1, 1) /\
    analyzed_rgb d = (1, 1, 1) /\
    measured_kelvin d = 6503 /\
    option_map correction_factors (white_balance d)
    = Some (1.9921875, 1.9921875, 1).
Proof.
  vm_compute. eexists. split; [reflexivity|]. repeat split; reflexivity.
Qed.

(* ================================================================== *)
(** * Sums and quotients of floats *)
(* ================================================================== *)

Section Sums.

Local Open Scope Z_scope.

Lemma Zdigits2_shift m k :
  0 < m -> 0 <= k -> Zdigits2 (m * 2 ^ k) = Zdigits2 m + k.
Proof.
  intros Hm Hk.
  assert (P : 0 < 2 ^ k) by (apply Z.pow_pos_nonneg; lia).
  apply Zdigits2_unique; [nia|].
  destruct (Zdigits2_bounds m Hm) as [L U].
  assert (0 < Zdigits2 m) by (destruct m; simpl in *; lia).
  replace (Zdigits2 m + k - 1) with ((Zdigits2 m - 1) + k) by lia.
  rewrite !Z.pow_add_r by lia. nia.
Qed.

Lemma pow2_split a b : 0 <= a -> 0 <= b -> 2 ^ (a + b) = 2 ^ a * 2 ^ b.
Proof. intros. apply Z.pow_add_r; assumption. Qed.

(** A quotient that is the value of a canonical float rounds to it. *)
Lemma round_quot_exact s N D e M E :
  0 < D -> 0 < M -> e <= E -> N = M * 2 ^ (E - e) * D ->
  fexp64 (Zdigits2 M + E) = E -> E <= 971 ->
  round_quot s N D e = S754_finite s (Z.to_pos M) E.
Proof.
  intros HD HM HeE HN Hcan HE. unfold round_quot.
  assert (Hq : N / D = M * 2 ^ (E - e)) by (subst N; apply Z.div_mul; lia).
  rewrite Hq, Zdigits2_shift by lia.
  replace (Zdigits2 M + (E - e) + e) with (Zdigits2 M + E) by lia.
  rewrite Hcan.
  replace N with (M * (2 ^ (E - e) * D)) by (subst N; ring).
  assert (P : 0 < 2 ^ (E - e)) by (apply Z.pow_pos_nonneg; lia).
  rewrite rne_exact by nia.
  rewrite fexp64_eq in Hcan.
  assert (Hd : Zdigits2 M <= 53) by lia.
  destruct (Zdigits2_bounds M HM) as [_ U].
  assert (U' : M < 2 ^ 53).
  { eapply Z.lt_le_trans; [exact U|]. apply Z.pow_le_mono_r; lia. }
  unfold pack.
  replace (M =? 0) with false by (symmetry; apply Z.eqb_neq; lia).
  replace (M =? 2 ^ 53) with false by (symmetry; apply Z.eqb_neq; lia).
  replace (E <=? 971) with true by (symmetry; apply Z.leb_le; lia).
  reflexivity.
Qed.

Lemma rne_scale N D k : 0 < D -> 0 < k -> rne (k * N) (k * D) = rne N D.
Proof.
  intros HD Hk. unfold rne.
  rewrite Z.div_mul_cancel_l by lia.
  rewrite Z.mul_mod_distr_l by lia.
  destruct (Z.compare_spec (2 * (k * (N mod D))) (k * D));
    destruct (Z.compare_spec (2 * (N mod D)) D); try reflexivity; nia.
Qed.

Lemma rne_zero D : 0 < D -> rne 0 D = 0.
Proof.
  intros HD. unfold rne. rewrite Z.div_0_l, Z.mod_0_l by lia.
  replace (2 * 0 ?= D) with Lt by (symmetry; apply Z.compare_lt_iff; lia).
  reflexivity.
Qed.

(** Rounding an integer does not depend on how its value is split between
    the integer and the power of two. *)
Lemma round_quot_rescale s N e k :
  0 <= N -> 0 <= k -> e <= fexp64 (Zdigits2 N + e) ->
  round_quot s (N * 2 ^ k) 1 (e - k) = round_quot s N 1 e.
Proof.
  intros HN Hk Hc. unfold round_quot. rewrite !Z.div_1_r, !Z.mul_1_r.
  assert (P : 0 < 2 ^ k) by (apply Z.pow_pos_nonneg; lia).
  destruct (Z.eq_dec N 0) as [->|Hnz].
  - rewrite Z.mul_0_l, !rne_zero.
    + reflexivity.
    + apply Z.pow_pos_nonneg; lia.
    + apply Z.pow_pos_nonneg; [lia|].
      rewrite fexp64_eq in *. cbn [Zdigits2] in *. lia.
  - rewrite Zdigits2_shift by lia.
    replace (Zdigits2 N + k + (e - k)) with (Zdigits2 N + e) by lia.
    set (t := fexp64 (Zdigits2 N + e)) in *.
    replace (t - (e - k)) with (k + (t - e)) by lia.
    rewrite pow2_split by lia. rewrite (Z.mul_comm N (2 ^ k)).
    rewrite rne_scale; [reflexivity| |assumption].
    apply Z.pow_pos_nonneg; lia.
Qed.

(** [binary_round] rounds [m * 2 ^ e]. *)
Lemma binary_round_quot s m e :
  -1074 <= e ->
  binary_round prec emax s m e
  = round_quot s (Z.pos m * 2 ^ (e + 1074)) 1 (-1074).
Proof.
  intros He. unfold binary_round.
  change (Z.pos (digits2_pos m)) with (Zdigits2 (Z.pos m)).
  change (fexp prec emax (Zdigits2 (Z.pos m) + e))
    with (fexp64 (Zdigits2 (Z.pos m) + e)).
  set (t := fexp64 (Zdigits2 (Z.pos m) + e)).
  assert (Ht : t = Z.max (Zdigits2 (Z.pos m) + e - 53) (-1074)) by reflexivity.
  assert (Hloc : forall n, location_of n 1 = loc_Exact)
    by (intros n; unfold location_of; rewrite Z.mod_1_r; reflexivity).
  destruct (Z_le_gt_dec e t) as [Hle|Hgt].
  - rewrite shl_align_keep by exact Hle.
    pose proof (binary_round_aux_canonical s e (Z.pos m) 1
                  ltac:(lia) ltac:(lia)) as H.
    rewrite Z.div_1_r, Hloc in H. fold t in H. specialize (H Hle).
    rewrite H.
    transitivity (round_quot s (Z.pos m) 1 e);
      [unfold round_quot; rewrite Z.div_1_r; reflexivity|].
    rewrite <- (round_quot_rescale s (Z.pos m) e (e + 1074))
      by (fold t; lia).
    replace (e - (e + 1074)) with (-1074) by lia. reflexivity.
  - destruct (shl_align_spec m e t ltac:(lia)) as [Hm Hs].
    destruct (shl_align m e t) as [mz ez]. cbn [fst snd] in Hm, Hs. subst ez.
    assert (Hd : Zdigits2 (Z.pos mz) = Zdigits2 (Z.pos m) + (e - t))
      by (rewrite Hm; apply Zdigits2_shift; lia).
    assert (Hf : fexp64 (Zdigits2 (Z.pos mz) + t) = t)
      by (rewrite Hd, fexp64_eq; lia).
    pose proof (binary_round_aux_canonical s t (Z.pos mz) 1
                  ltac:(lia) ltac:(lia)) as H.
    rewrite Z.div_1_r, Hloc in H. cbv zeta in H. rewrite Hf in H.
    specialize (H (Z.le_refl t)). rewrite H.
    replace (Z.pos m * 2 ^ (e + 1074)) with (Z.pos mz * 2 ^ (t + 1074)).
    2:{ rewrite Hm. replace (e + 1074) with ((e - t) + (t + 1074)) by lia.
        rewrite (pow2_split (e - t) (t + 1074)) by lia. ring. }
    transitivity (round_quot s (Z.pos mz) 1 t);
      [unfold round_quot; rewrite Z.div_1_r, Hf; reflexivity|].
    rewrite <- (round_quot_rescale s (Z.pos mz) t (t + 1074))
      by (rewrite ?Hf; lia).
    replace (t - (t + 1074)) with (-1074) by lia. reflexivity.
Qed.

(** ** Values in units of the smallest double *)

Lemma fexp64_floor d : -1074 <= fexp64 d.
Proof. rewrite fexp64_eq. lia. Qed.

Lemma round_scaled_le V1 V2 :
  0 <= V1 <= V2 -> sf_le (round_scaled V1) (round_scaled V2).
Proof.
  intros H. unfold round_scaled, round_quot.
  apply round_le; try lia; try apply fexp64_floor.
  change (Z.min (-1074) (-1074)) with (-1074).
  rewrite Z.sub_diag, Z.pow_0_r. lia.
Qed.

Lemma round_scaled_zero : round_scaled 0 = S754_zero false.
Proof. reflexivity. Qed.

Lemma scaled_finite m e : scaled (S754_finite false m e) = Z.pos m * 2 ^ (e + 1074).
Proof. reflexivity. Qed.

Lemma scaled_pos m e : -1074 <= e -> 0 < scaled (S754_finite false m e).
Proof.
  intros He. rewrite scaled_finite.
  assert (0 < 2 ^ (e + 1074)) by (apply Z.pow_pos_nonneg; lia). nia.
Qed.

Lemma scaled_nonneg x : 0 <= scaled x.
Proof.
  destruct x as [s|s| |[|] m e]; cbn [scaled]; lia.
Qed.

(** Rounding the value of a float gives the float back. *)
Lemma round_scaled_exact x :
  valid_binary x = true -> nonneg x = true -> round_scaled (scaled x) = x.
Proof.
  intros V Hn. destruct x as [[|]|s| |[|] m e]; try discriminate Hn.
  - reflexivity.
  - destruct (valid_finite _ _ _ V) as [Hc He].
    destruct (valid_finite_range _ _ _ V) as [R _].
    rewrite scaled_finite. unfold round_scaled.
    rewrite (round_quot_exact false _ 1 (-1074) (Z.pos m) e);
      try lia; try assumption.
    + reflexivity.
    + replace (e - -1074) with (e + 1074) by lia. ring.
Qed.

(** The sum of two floats that are [+0] or positive and finite is their
    exact sum, rounded. *)
Lemma SFadd_scaled x y :
  valid_binary x = true -> valid_binary y = true ->
  nonneg x = true -> nonneg y = true ->
  SF64add x y = round_scaled (scaled x + scaled y).
Proof.
  intros Vx Vy Nx Ny.
  destruct x as [[|]|sx| |[|] mx ex]; try discriminate Nx;
    destruct y as [[|]|sy| |[|] my ey]; try discriminate Ny.
  - reflexivity.
  - cbn [scaled]. rewrite Z.add_0_l.
    rewrite <- scaled_finite, round_scaled_exact by (assumption || reflexivity).
    reflexivity.
  - cbn [scaled]. rewrite Z.add_0_r.
    rewrite <- scaled_finite, round_scaled_exact by (assumption || reflexivity).
    reflexivity.
  - destruct (valid_finite_range _ _ _ Vx) as [Rx _].
    destruct (valid_finite_range _ _ _ Vy) as [Ry _].
    unfold SF64add, SFadd. cbn [cond_Zopp].
    destruct (shl_align_spec mx ex (Z.min ex ey) ltac:(lia)) as [Hx _].
    destruct (shl_align_spec my ey (Z.min ex ey) ltac:(lia)) as [Hy _].
    set (ez := Z.min ex ey) in *.
    set (S := Z.pos (fst (shl_align mx ex ez))
              + Z.pos (fst (shl_align my ey ez))).
    assert (HS : S = Z.pos mx * 2 ^ (ex - ez) + Z.pos my * 2 ^ (ey - ez))
      by (unfold S; rewrite Hx, Hy; reflexivity).
    assert (Spos : 0 < S) by (unfold S; lia).
    destruct S as [|pS|pS] eqn:ES; try lia.
    cbn [binary_normalize].
    rewrite binary_round_quot by (unfold ez; lia).
    unfold round_scaled. f_equal.
    rewrite HS, !scaled_finite.
    rewrite Z.mul_add_distr_r, <- !Z.mul_assoc.
    rewrite <- !pow2_split by (unfold ez; lia).
    f_equal; f_equal; f_equal; lia.
Qed.

(** The order of two such floats is the order of their values. *)
Lemma scaled_le x y :
  valid_binary x = true -> valid_binary y = true ->
  nonneg x = true -> nonneg y = true ->
  sf_le x y <-> scaled x <= scaled y.
Proof.
  intros Vx Vy Nx Ny. split.
  - intros [a [b [Ha [Hb Hab]]]].
    destruct x as [[|]|sx| |[|] mx ex]; try discriminate Nx;
      destruct y as [[|]|sy| |[|] my ey]; try discriminate Ny;
      cbn [sf_key] in Ha, Hb;
      injection Ha as <-; injection Hb as <-.
    + cbn [scaled]. lia.
    + apply scaled_nonneg.
    + exfalso. destruct Hab as [Hab|Hab]; [unfold key_lt in Hab; lia|].
      discriminate Hab.
    + pose proof (canonical_value_le _ _ _ _ _ _ Vx Vy Hab) as Hv.
      destruct (valid_finite_range _ _ _ Vx) as [Rx _].
      destruct (valid_finite_range _ _ _ Vy) as [Ry _].
      rewrite !scaled_finite.
      set (c := Z.min ex ey) in *.
      replace (ex + 1074) with ((ex - c) + (c + 1074)) by lia.
      replace (ey + 1074) with ((ey - c) + (c + 1074)) by lia.
      rewrite (pow2_split (ex - c) (c + 1074)),
        (pow2_split (ey - c) (c + 1074)) by (unfold c; lia).
      assert (0 < 2 ^ (c + 1074)) by (apply Z.pow_pos_nonneg; unfold c; lia).
      rewrite !Z.mul_assoc. apply Z.mul_le_mono_nonneg_r; [lia|exact Hv].
  - intros H.
    rewrite <- (round_scaled_exact x Vx Nx), <- (round_scaled_exact y Vy Ny).
    apply round_scaled_le. split; [apply scaled_nonneg|exact H].
Qed.

(** ** Natural numbers as floats *)

Lemma SFnat_pos n :
  0 < n < 2 ^ 53 ->
  0 < n * 2 ^ (53 - Zdigits2 n) /\
  Zdigits2 (n * 2 ^ (53 - Zdigits2 n)) = 53 /\
  0 < Zdigits2 n <= 53.
Proof.
  intros [Hn Hu].
  destruct (Zdigits2_bounds n Hn) as [L U].
  assert (Hd : 0 < Zdigits2 n) by (destruct n; simpl in *; lia).
  assert (Hd' : Zdigits2 n <= 53).
  { destruct (Z_le_gt_dec (Zdigits2 n) 53); [assumption|exfalso].
    assert (2 ^ 53 <= 2 ^ (Zdigits2 n - 1)) by (apply Z.pow_le_mono_r; lia).
    lia. }
  assert (P : 0 < 2 ^ (53 - Zdigits2 n)) by (apply Z.pow_pos_nonneg; lia).
  split; [nia|]. split; [|lia].
  rewrite Zdigits2_shift by lia. lia.
Qed.

Lemma SFnat_valid n : 0 <= n < 2 ^ 53 -> valid_binary (SFnat n) = true.
Proof.
  intros [Hn Hu]. unfold SFnat.
  destruct (Z.eqb_spec n 0) as [->|Hz]; [reflexivity|].
  destruct (SFnat_pos n ltac:(lia)) as [Hm [Hd Hr]].
  cbn [SpecFloat.valid_binary]. unfold bounded, canonical_mantissa.
  change (Z.pos (digits2_pos (Z.to_pos (n * 2 ^ (53 - Zdigits2 n)))))
    with (Zdigits2 (Z.pos (Z.to_pos (n * 2 ^ (53 - Zdigits2 n))))).
  rewrite Z2Pos.id by exact Hm. rewrite Hd.
  change (fexp prec emax (53 + (Zdigits2 n - 53)))
    with (fexp64 (53 + (Zdigits2 n - 53))).
  rewrite fexp64_eq.
  apply andb_true_intro. split; [apply Z.eqb_eq|apply Z.leb_le];
    change (emax - prec) with 971; lia.
Qed.

Lemma SFnat_nonneg n : nonneg (SFnat n) = true.
Proof. unfold SFnat. destruct (n =? 0); reflexivity. Qed.

Lemma SFnat_scaled n : 0 <= n < 2 ^ 53 -> scaled (SFnat n) = n * 2 ^ 1074.
Proof.
  intros [Hn Hu]. unfold SFnat.
  destruct (Z.eqb_spec n 0) as [->|Hz]; [reflexivity|].
  destruct (SFnat_pos n ltac:(lia)) as [Hm [Hd Hr]].
  rewrite scaled_finite, Z2Pos.id by exact Hm.
  rewrite <- Z.mul_assoc, <- pow2_split by lia.
  do 2 f_equal. lia.
Qed.

(** Rounding a natural number below [2 ^ 53] is exact. *)
Lemma round_scaled_nat n :
  0 <= n < 2 ^ 53 -> round_scaled (n * 2 ^ 1074) = SFnat n.
Proof.
  intros H. rewrite <- (SFnat_scaled n H).
  apply round_scaled_exact; [apply SFnat_valid; exact H|apply SFnat_nonneg].
Qed.

(** The sum of two natural numbers is exact as long as it is below
    [2 ^ 53]. *)
Lemma SFadd_nat a b :
  0 <= a -> 0 <= b -> a + b < 2 ^ 53 ->
  SF64add (SFnat a) (SFnat b) = SFnat (a + b).
Proof.
  intros Ha Hb Hs.
  rewrite SFadd_scaled;
    try (apply SFnat_valid; lia); try apply SFnat_nonneg.
  rewrite !SFnat_scaled by lia.
  rewrite <- Z.mul_add_distr_r. apply round_scaled_nat. lia.
Qed.

Lemma binary_normalize_nat n :
  0 <= n < 2 ^ 53 -> binary_normalize prec emax n 0 false = SFnat n.
Proof.
  intros [Hn Hu]. destruct n as [|p|p]; [reflexivity| |lia].
  cbn [binary_normalize]. rewrite binary_round_quot by lia.
  change (0 + 1074) with 1074. apply (round_scaled_nat (Z.pos p)). lia.
Qed.

(** The order of natural numbers is that of their floats. *)
Lemma SFnat_le a b :
  0 <= a <= b -> b < 2 ^ 53 -> sf_le (SFnat a) (SFnat b).
Proof.
  intros Hab Hb.
  apply scaled_le; try (apply SFnat_valid; lia); try apply SFnat_nonneg.
  rewrite !SFnat_scaled by lia.
  apply Z.mul_le_mono_nonneg_r; [apply Z.pow_nonneg|]; lia.
Qed.

(** A product of natural numbers divided by one of the factors gives the
    other. *)
Lemma SFdiv_nat a b :
  0 < a -> 0 < b -> a * b < 2 ^ 53 ->
  SF64div (SFnat (a * b)) (SFnat b) = SFnat a.
Proof.
  intros Ha Hb Hab.
  assert (Hb' : b < 2 ^ 53) by nia.
  assert (Ha' : a < 2 ^ 53) by nia.
  pose proof (SFnat_valid (a * b) ltac:(nia)) as Vab.
  pose proof (SFnat_valid b ltac:(lia)) as Vb.
  unfold SFnat in *.
  replace (a * b =? 0) with false in * by (symmetry; apply Z.eqb_neq; nia).
  replace (b =? 0) with false in * by (symmetry; apply Z.eqb_neq; lia).
  replace (a =? 0) with false by (symmetry; apply Z.eqb_neq; lia).
  destruct (SFnat_pos (a * b) ltac:(nia)) as [Pab [Dab Rab]].
  destruct (SFnat_pos b ltac:(lia)) as [Pb [Db Rb]].
  destruct (SFnat_pos a ltac:(lia)) as [Pa [Da Ra]].
  set (dab := Zdigits2 (a * b)) in *.
  set (db := Zdigits2 b) in *. set (da := Zdigits2 a) in *.
  assert (Hdig : dab <= da + db).
  { destruct (Zdigits2_bounds a Ha) as [_ Ua].
    destruct (Zdigits2_bounds b Hb) as [_ Ub].
    destruct (Zdigits2_bounds (a * b) ltac:(nia)) as [Lab _].
    fold da in Ua. fold db in Ub. fold dab in Lab.
    assert (Hlt : 2 ^ (dab - 1) < 2 ^ (da + db)).
    { rewrite pow2_split by lia. nia. }
    apply Z.pow_lt_mono_r_iff in Hlt; lia. }
  destruct (SFdiv_finite _ _ _ _ _ _ Vab Vb) as [Hs [Hc E]].
  rewrite E. clear E. cbn [xorb].
  rewrite !Z2Pos.id in * by assumption.
  rewrite Dab, Db in *.
  set (e' := div_exp 53 (dab - 53) 53 (db - 53)) in *.
  assert (He' : e' = dab - db - 53).
  { unfold e', div_exp. rewrite fexp64_eq. lia. }
  apply round_quot_exact; try lia.
  - replace (dab - 53 - (db - 53) - e') with 53 by lia.
    replace (da - 53 - e') with (da + db - dab) by lia.
    assert (E1 : 2 ^ (53 - da) * 2 ^ (da + db - dab) * 2 ^ (53 - db)
                 = 2 ^ (53 - dab) * 2 ^ 53).
    { rewrite <- (pow2_split (53 - da) (da + db - dab)),
        <- (pow2_split (53 - da + (da + db - dab)) (53 - db)),
        <- (pow2_split (53 - dab) 53) by lia.
      f_equal. lia. }
    transitivity (a * b * (2 ^ (53 - dab) * 2 ^ 53)); [ring|].
    rewrite <- E1. ring.
  - rewrite Da, fexp64_eq. lia.
Qed.

End Sums.

(* ================================================================== *)
(** * Sums of primitive floats *)
(* ================================================================== *)

Section FloatSums.

(** ** Natural numbers *)

Lemma float_of_nat_spec (n : nat) :
  (Z.of_nat n < 2 ^ 53)%Z -> Prim2SF (float_of_nat n) = SFnat (Z.of_nat n).
Proof.
  intros H. unfold float_of_nat.
  rewrite of_uint63_spec, Uint63.of_Z_spec.
  rewrite Z.mod_small.
  - apply binary_normalize_nat. lia.
  - change wB with (2 ^ 63)%Z.
    assert (2 ^ 53 < 2 ^ 63)%Z by reflexivity. lia.
Qed.

Lemma float_of_byte_nat (b : byte) :
  float_of_byte b = float_of_nat (N.to_nat (Byte.to_N b)).
Proof. unfold float_of_byte, float_of_nat. rewrite N_nat_Z. reflexivity. Qed.

Lemma byte_bound (b : byte) : (N.to_nat (Byte.to_N b) <= 255)%nat.
Proof. pose proof (Byte.to_N_bounded b). lia. Qed.

(** Sums of natural numbers below [2 ^ 53] are exact. *)
Lemma float_of_nat_add (a b : nat) :
  (Z.of_nat (a + b) < 2 ^ 53)%Z ->
  float_of_nat a + float_of_nat b = float_of_nat (a + b).
Proof.
  intros H. apply Prim2SF_inj.
  rewrite FloatAxioms.add_spec, !float_of_nat_spec by lia.
  rewrite Nat2Z.inj_add. apply SFadd_nat; lia.
Qed.

Lemma float_of_nat_div (a b : nat) :
  (0 < a)%nat -> (0 < b)%nat -> (Z.of_nat (a * b) < 2 ^ 53)%Z ->
  float_of_nat (a * b) / float_of_nat b = float_of_nat a.
Proof.
  intros Ha Hb H. apply Prim2SF_inj.
  rewrite FloatAxioms.div_spec, !float_of_nat_spec by nia.
  rewrite Nat2Z.inj_mul. apply SFdiv_nat; nia.
Qed.

Lemma float_of_nat_le (a b : nat) :
  (a <= b)%nat -> (Z.of_nat b < 2 ^ 53)%Z ->
  (float_of_nat a <=? float_of_nat b) = true.
Proof.
  intros Hab Hb. apply leb_sf_le.
  rewrite !float_of_nat_spec by lia. apply SFnat_le; lia.
Qed.

Lemma float_of_nat_pos (n : nat) :
  (0 < n)%nat -> (Z.of_nat n < 2 ^ 53)%Z ->
  (0 <? float_of_nat n) = true /\ (float_of_nat n <? infinity) = true.
Proof.
  intros Hn Hb. rewrite !ltb_spec, float_of_nat_spec by exact Hb.
  unfold SFnat.
  replace (Z.of_nat n =? 0)%Z with false by (symmetry; apply Z.eqb_neq; lia).
  split; reflexivity.
Qed.

(** ** Floats that are [+0] or positive and finite *)

Lemma nonneg_cases (x : float) :
  nonneg (Prim2SF x) = true ->
  x = 0 \/ ((0 <? x) = true /\ (x <? infinity) = true).
Proof.
  intros H. destruct (Prim2SF x) as [[|]|s| |[|] m e] eqn:E;
    try discriminate H.
  - left. apply Prim2SF_inj. rewrite E. reflexivity.
  - right. rewrite !ltb_spec, E. split; reflexivity.
Qed.

Lemma nonneg_of_pos (x : float) :
  (0 <? x) = true -> (x <? infinity) = true -> nonneg (Prim2SF x) = true.
Proof.
  intros H0 Hi. destruct (pos_finite_spec x H0 Hi) as [m [e E]].
  rewrite E. reflexivity.
Qed.

Lemma nonneg_leb (x : float) :
  nonneg (Prim2SF x) = true -> (0 <=? x) = true.
Proof.
  intros H. destruct (nonneg_cases x H) as [->|[H0 _]];
    [reflexivity|apply ltb_leb_incl; exact H0].
Qed.

Lemma float_of_nat_nonneg (n : nat) :
  (Z.of_nat n < 2 ^ 53)%Z -> nonneg (Prim2SF (float_of_nat n)) = true.
Proof. intros H. rewrite float_of_nat_spec by exact H. apply SFnat_nonneg. Qed.

(** Addition of such floats is monotone. *)
Lemma add_nonneg_mono (x1 x2 y1 y2 : float) :
  nonneg (Prim2SF x1) = true -> nonneg (Prim2SF x2) = true ->
  nonneg (Prim2SF y1) = true -> nonneg (Prim2SF y2) = true ->
  (x1 <=? x2) = true -> (y1 <=? y2) = true ->
  (x1 + y1 <=? x2 + y2) = true.
Proof.
  intros Nx1 Nx2 Ny1 Ny2 Hx Hy. apply leb_sf_le.
  rewrite !FloatAxioms.add_spec.
  rewrite !SFadd_scaled by (try apply Prim2SF_valid; assumption).
  apply round_scaled_le.
  apply leb_sf_le in Hx, Hy.
  apply scaled_le in Hx; try apply Prim2SF_valid; try assumption.
  apply scaled_le in Hy; try apply Prim2SF_valid; try assumption.
  pose proof (scaled_nonneg (Prim2SF x1)).
  pose proof (scaled_nonneg (Prim2SF y1)). lia.
Qed.

Lemma pack_nonneg (z t : Z) :
  nonneg (pack false z t) = true \/ pack false z t = S754_infinity false.
Proof.
  unfold pack.
  destruct (z =? 0)%Z; [left; reflexivity|].
  destruct (z =? 2 ^ 53)%Z;
    [destruct (t + 1 <=? 971)%Z|destruct (t <=? 971)%Z];
    first [left; reflexivity | right; reflexivity].
Qed.

Lemma not_infinity_below (x c : float) :
  (x <=? c) = true -> (c <? infinity) = true ->
  Prim2SF x <> S754_infinity false.
Proof.
  intros H Hc E.
  pose proof (leb_ltb_trans _ _ _ H Hc) as Hlt.
  rewrite ltb_spec, E in Hlt. discriminate Hlt.
Qed.

(** A sum of such floats that stays below a finite bound is one of them. *)
Lemma add_nonneg_closed (x y c : float) :
  nonneg (Prim2SF x) = true -> nonneg (Prim2SF y) = true ->
  (x + y <=? c) = true -> (c <? infinity) = true ->
  nonneg (Prim2SF (x + y)) = true.
Proof.
  intros Nx Ny H Hc.
  pose proof (not_infinity_below _ _ H Hc) as Hi.
  rewrite FloatAxioms.add_spec in *.
  rewrite SFadd_scaled in * by (try apply Prim2SF_valid; assumption).
  unfold round_scaled, round_quot in *.
  match goal with
  | |- nonneg (pack false ?z ?t) = true =>
      destruct (pack_nonneg z t) as [P|P]; [exact P|contradiction]
  end.
Qed.

(** A quotient of such a float by a positive finite one, likewise. *)
Lemma div_nonneg_closed (x u c : float) :
  nonneg (Prim2SF x) = true ->
  (0 <? u) = true -> (u <? infinity) = true ->
  (x / u <=? c) = true -> (c <? infinity) = true ->
  nonneg (Prim2SF (x / u)) = true.
Proof.
  intros Nx Pu Fu H Hc.
  pose proof (not_infinity_below _ _ H Hc) as Hi.
  destruct (pos_finite_spec u Pu Fu) as [mu [eu Eu]].
  pose proof (Prim2SF_valid x) as Vx. pose proof (Prim2SF_valid u) as Vu.
  rewrite FloatAxioms.div_spec, Eu in *.
  destruct (Prim2SF x) as [[|]|s| |[|] m e]; try discriminate Nx.
  - reflexivity.
  - destruct (SFdiv_finite false m e false mu eu Vx Vu) as [_ [_ E]].
    rewrite E in *. cbn [xorb] in *. unfold round_quot in *.
    match goal with
    | |- nonneg (pack false ?z ?t) = true =>
        destruct (pack_nonneg z t) as [P|P]; [exact P|contradiction]
    end.
Qed.

Lemma zero_div (u : float) :
  (0 <? u) = true -> (u <? infinity) = true -> 0 / u = 0.
Proof.
  intros Pu Fu. destruct (pos_finite_spec u Pu Fu) as [mu [eu Eu]].
  apply Prim2SF_inj. rewrite FloatAxioms.div_spec, Eu. reflexivity.
Qed.

(** Multiplying by one changes nothing. *)
Lemma mul_one (x : float) : x * 1 = x.
Proof.
  apply Prim2SF_inj. rewrite FloatAxioms.mul_spec.
  change (Prim2SF 1) with (S754_finite false (2 ^ 52)%positive (-52)).
  pose proof (Prim2SF_valid x) as V.
  destruct (Prim2SF x) as [s|s| |s m e]; try reflexivity;
    try (destruct s; reflexivity).
  destruct (SFmul_finite s m e false (2 ^ 52)%positive (-52) V eq_refl)
    as [E _].
  rewrite E, xorb_false_r.
  destruct (valid_finite _ _ _ V) as [Hc He].
  rewrite (round_quot_exact s _ 1 (e + -52) (Z.pos m) e)%Z;
    try lia; try assumption; [reflexivity|].
  replace (e - (e + -52))%Z with 52%Z by lia.
  change (Z.pos (2 ^ 52)) with (2 ^ 52)%Z. ring.
Qed.

(** Clipping to [0, 1] leaves such a float alone when it is at most one. *)
Lemma np_clip_id (x : float) :
  nonneg (Prim2SF x) = true -> (x <=? 1) = true -> np_clip x 0 1 = x.
Proof.
  intros Nx H1. unfold np_clip.
  destruct (nonneg_cases x Nx) as [->|[H0 _]]; [reflexivity|].
  rewrite (leb_ltb_false _ _ (ltb_leb_incl _ _ H0)).
  rewrite (leb_ltb_false _ _ H1). reflexivity.
Qed.

End FloatSums.

(* ================================================================== *)
(** * Averages of images *)
(* ================================================================== *)

Section Averages.

Lemma byte_value_bound (b : byte) : (byte_value b <= 255)%nat.
Proof. apply byte_bound. Qed.

Lemma float_of_byte_value (b : byte) :
  float_of_byte b = float_of_nat (byte_value b).
Proof. apply float_of_byte_nat. Qed.

Lemma channel_total_cons (c : channel) (p : pixel) (img : image) :
  channel_total c (p :: img)
  = (byte_value (pixel_chan c p) + channel_total c img)%nat.
Proof. reflexivity. Qed.

Lemma channel_total_bound (c : channel) (img : image) :
  (channel_total c img <= 255 * List.length img)%nat.
Proof.
  induction img as [|p img IH]; [apply Nat.le_refl|].
  rewrite channel_total_cons. cbn [List.length].
  pose proof (byte_value_bound (pixel_chan c p)). lia.
Qed.

Lemma channel_total_repeat (c : channel) (p : pixel) (n : nat) :
  channel_total c (repeat p n) = (byte_value (pixel_chan c p) * n)%nat.
Proof.
  induction n as [|n IH]; [cbn; lia|].
  cbn [repeat]. rewrite channel_total_cons, IH. lia.
Qed.

(** numpy adds the bytes of a channel up without rounding. *)
Lemma fold_sum_exact (img : image) : forall a1 a2 a3 : nat,
  (Z.of_nat a1 + 255 * Z.of_nat (List.length img) < 2 ^ 53)%Z ->
  (Z.of_nat a2 + 255 * Z.of_nat (List.length img) < 2 ^ 53)%Z ->
  (Z.of_nat a3 + 255 * Z.of_nat (List.length img) < 2 ^ 53)%Z ->
  fold_left (zip3 add) (map pixel_to_float img)
            (float_of_nat a1, float_of_nat a2, float_of_nat a3)
  = (float_of_nat (a1 + channel_total Red img),
     float_of_nat (a2 + channel_total Green img),
     float_of_nat (a3 + channel_total Blue img)).
Proof.
  induction img as [|[[r g] b] img IH]; intros a1 a2 a3 H1 H2 H3.
  - cbn. rewrite !Nat.add_0_r. reflexivity.
  - cbn [map fold_left pixel_to_float zip3].
    cbn [List.length] in H1, H2, H3.
    pose proof (byte_value_bound r). pose proof (byte_value_bound g).
    pose proof (byte_value_bound b).
    rewrite !float_of_byte_value, !float_of_nat_add by lia.
    rewrite IH by lia.
    rewrite !channel_total_cons. cbn [pixel_chan].
    rewrite !Nat.add_assoc. reflexivity.
Qed.

Lemma sum_axis0_exact (img : image) :
  countable img ->
  sum_axis0 (map pixel_to_float img)
  = (float_of_nat (channel_total Red img),
     float_of_nat (channel_total Green img),
     float_of_nat (channel_total Blue img)).
Proof.
  intros H. unfold countable in H. unfold sum_axis0.
  change (0, 0, 0) with (float_of_nat 0, float_of_nat 0, float_of_nat 0).
  rewrite fold_sum_exact by (cbn [Z.of_nat]; lia). reflexivity.
Qed.

(** The reference colour of an image: per channel, the sum of the bytes
    over the number of pixels, over 255. *)
Lemma average_reference_exact (img : image) (c : channel) :
  countable img ->
  chan c (average_reference img)
  = float_of_nat (channel_total c img)
    / float_of_nat (List.length img) / 255.
Proof.
  intros H. unfold average_reference, mean_axis0.
  rewrite sum_axis0_exact by exact H. rewrite length_map.
  destruct c; reflexivity.
Qed.

Lemma float_of_nat_zero_div (a n : nat) :
  (0 < n)%nat -> (Z.of_nat n < 2 ^ 53)%Z ->
  (Z.of_nat (a * n) < 2 ^ 53)%Z ->
  float_of_nat (a * n) / float_of_nat n = float_of_nat a.
Proof.
  intros Hn Hn' Hb. destruct a as [|a].
  - cbn [Nat.mul]. change (float_of_nat 0) with 0.
    destruct (float_of_nat_pos n Hn ltac:(lia)) as [P F].
    apply zero_div; assumption.
  - apply float_of_nat_div; lia.
Qed.

End Averages.

Lemma average_reference_repeat (p : pixel) (n : nat) :
  (0 < n)%nat -> countable (repeat p n) ->
  average_reference (repeat p n)
  = map3 (fun c => c / 255) (pixel_to_float p).
Proof.
  intros Hn Hc. apply triple_ext. intros c.
  rewrite average_reference_exact by exact Hc.
  unfold countable in Hc. rewrite repeat_length in *.
  rewrite channel_total_repeat.
  pose proof (byte_value_bound (pixel_chan c p)) as Hb.
  rewrite float_of_nat_zero_div by (try assumption; nia).
  rewrite <- float_of_byte_value, chan_map3.
  destruct p as [[r g] b]. destruct c; reflexivity.
Qed.

(** X7: The reference colour of a reference image of one colour is that colour,
    whatever the number of pixels. *)
Theorem uniform_reference (p : pixel) (n : nat) :
  (0 < n)%nat -> countable (repeat p n) ->
  average_reference (repeat p n)
  = map3 (fun c => c / 255) (pixel_to_float p).
Proof. exact (average_reference_repeat p n). Qed.

Lemma uniform_reference_witness :
  (0 < 6)%nat /\ countable (repeat (x80, x40, xff) 6) /\
  average_reference (repeat (x80, x40, xff) 6)
  = map3 (fun c => c / 255) (pixel_to_float (x80, x40, xff)).
Proof.
  split; [lia|]. split; [unfold countable; cbn; lia|].
  apply (uniform_reference (x80, x40, xff) 6); [lia|unfold countable; cbn; lia].
Defined.

Lemma load_created_reference (w w' : world) (path : string)
    (width height : Z) (a : analyzer) :
  create_white_reference_image w path (width, height) = (true, w') ->
  supported_format (lower (splitext_ext path)) = true ->
  (0 < width * height)%Z -> (255 * (width * height) < 2 ^ 53)%Z ->
  load_white_reference w' path a
  = (true, set_white_reference path (1, 1, 1) (1, 1, 1) a).
Proof.
  intros Hc Hf Hpos Hb. unfold create_white_reference_image in Hc.
  destruct ((width <? 0)%Z || (height <? 0)%Z); [discriminate Hc|].
  destruct (image_save w path _); [|discriminate Hc].
  injection Hc as <-.
  rewrite (load_white_reference_success _ path a
             (repeat (xff, xff, xff) (Z.to_nat (width * height)))).
  - rewrite average_reference_repeat.
    + reflexivity.
    + lia.
    + unfold countable. rewrite repeat_length. lia.
  - cbn [path_exists]. rewrite String.eqb_refl. reflexivity.
  - exact Hf.
  - cbn [image_open]. rewrite String.eqb_refl. reflexivity.
Qed.

(** X8: The reference file the program creates calibrates to the identity: a
    white image written by [create_white_reference_image], of any size that
    is not empty, loads as a reference with colour (1, 1, 1) and correction
    factors (1, 1, 1). *)
Theorem white_reference_round_trip (w w' : world) (path : string)
    (width height : Z) (a : analyzer) :
  create_white_reference_image w path (width, height) = (true, w') ->
  supported_format (lower (splitext_ext path)) = true ->
  (0 < width * height)%Z -> (255 * (width * height) < 2 ^ 53)%Z ->
  load_white_reference w' path a
  = (true, set_white_reference path (1, 1, 1) (1, 1, 1) a).
Proof. exact (load_created_reference w w' path width height a). Qed.

Lemma white_reference_round_trip_witness :
  create_white_reference_image (world_of []) "white.png" (4, 3)%Z
  = (true, snd (create_white_reference_image (world_of []) "white.png"
                  (4, 3)%Z)) /\
  load_white_reference
    (snd (create_white_reference_image (world_of []) "white.png" (4, 3)%Z))
    "white.png" init
  = (true, set_white_reference "white.png" (1, 1, 1) (1, 1, 1) init).
Proof.
  split; [reflexivity|].
  apply (white_reference_round_trip (world_of []) _ "white.png" 4 3 init);
    [reflexivity|reflexivity|lia|lia].
Defined.

(** ** References that calibration can invert *)

Section Invertible.

Lemma float_of_nat_most (n : nat) :
  (Z.of_nat n < 2 ^ 53)%Z -> (float_of_nat n <=? most_pixels) = true.
Proof.
  intros H.
  assert (E : float_of_nat (Z.to_nat 9007199254740991) = most_pixels).
  { unfold float_of_nat. rewrite Z2Nat.id by lia. reflexivity. }
  rewrite <- E. apply float_of_nat_le; rewrite ?Z2Nat.id; lia.
Qed.

Lemma lit_channel_average (total n : nat) :
  (0 < total)%nat -> (total <= 255 * n)%nat -> (255 * Z.of_nat n < 2 ^ 53)%Z ->
  (least_average <=? float_of_nat total / float_of_nat n / 255) = true /\
  (float_of_nat total / float_of_nat n / 255 <=? 1) = true.
Proof.
  intros Ht Hle Hb.
  assert (Hn : (0 < n)%nat) by lia.
  destruct (float_of_nat_pos n Hn ltac:(lia)) as [Pn Fn].
  destruct (float_of_nat_pos total Ht ltac:(lia)) as [Pt Ft].
  set (q := float_of_nat total / float_of_nat n).
  assert (Lo : (1 / most_pixels <=? q) = true).
  { apply (leb_trans _ (1 / float_of_nat n)).
    - apply div_le_den; try reflexivity; try assumption.
      apply float_of_nat_most. lia.
    - change 1 with (float_of_nat 1) at 1. unfold q.
      apply div_le_num; try assumption; try reflexivity.
      apply float_of_nat_le; lia. }
  assert (Hi : (q <=? 255) = true).
  { change 255 with (float_of_nat 255).
    rewrite <- (float_of_nat_div 255 n) by lia. unfold q.
    apply div_le_num; try assumption.
    - apply float_of_nat_pos; lia.
    - apply float_of_nat_le; lia. }
  assert (Pq : (0 <? q) = true)
    by exact (ltb_leb_trans 0 (1 / most_pixels) q eq_refl Lo).
  assert (Fq : (q <? infinity) = true)
    by exact (leb_ltb_trans q 255 infinity Hi eq_refl).
  split.
  - unfold least_average. apply div_le_num; try reflexivity; assumption.
  - change (q / 255 <=? 1) with (q / 255 <=? 255 / 255).
    apply div_le_num; try reflexivity; assumption.
Qed.

Lemma invertible_above (c : float) :
  (least_average <=? c) = true -> (c <=? 1) = true -> invertible c = true.
Proof.
  intros Lo Hi. unfold invertible.
  assert (P : (0 <? c) = true)
    by exact (ltb_leb_trans 0 least_average c eq_refl Lo).
  assert (F : (c <? infinity) = true)
    by exact (leb_ltb_trans c 1 infinity Hi eq_refl).
  rewrite P, F. cbn [andb].
  apply (leb_ltb_trans _ (1 / least_average)); [|reflexivity].
  apply div_le_den; try reflexivity; assumption.
Qed.

End Invertible.

Lemma lit_channel_invertible (img : image) (c : channel) :
  countable img -> (0 < channel_total c img)%nat ->
  invertible (chan c (average_reference img)) = true /\
  (chan c (average_reference img) <=? 1) = true.
Proof.
  intros Hc Ht.
  rewrite average_reference_exact by exact Hc.
  pose proof (channel_total_bound c img) as Hb.
  destruct (lit_channel_average _ _ Ht Hb Hc) as [Lo Hi].
  split; [apply invertible_above; assumption|exact Hi].
Qed.

(** X9: A channel of a reference image that has a lit byte somewhere has an
    average that calibration can invert: positive, at most one, and with a
    finite reciprocal. *)
Theorem lit_reference_invertible (img : image) (c : channel) :
  countable img -> (0 < channel_total c img)%nat ->
  invertible (chan c (average_reference img)) = true /\
  (chan c (average_reference img) <=? 1) = true.
Proof. exact (lit_channel_invertible img c). Qed.

Lemma infinity_div_not_finite (m : float) : is_finite (infinity / m) = false.
Proof.
  destruct (is_finite (infinity / m)) eqn:E; [|reflexivity].
  apply is_finite_spec in E. rewrite FloatAxioms.div_spec in E.
  change (Prim2SF infinity) with (S754_infinity false) in E.
  destruct (Prim2SF m) as [s|s| |s mm e]; cbn in E; contradiction.
Qed.

Lemma black_channel_average (img : image) (c : channel) :
  countable img -> (0 < List.length img)%nat -> channel_total c img = 0%nat ->
  chan c (average_reference img) = 0.
Proof.
  intros Hc Hn Ht. rewrite average_reference_exact by exact Hc.
  rewrite Ht. change (float_of_nat 0) with 0.
  unfold countable in Hc.
  destruct (float_of_nat_pos (List.length img) Hn ltac:(lia)) as [P F].
  rewrite zero_div by assumption. reflexivity.
Qed.

(** X10: A channel of a reference image that is black throughout has the
    average 0, which calibration cannot invert: the correction factor it
    stores for that channel is infinite or not a number. *)
Theorem black_channel_factor (img : image) (c : channel) :
  countable img -> (0 < List.length img)%nat -> channel_total c img = 0%nat ->
  chan c (average_reference img) = 0 /\
  invertible (chan c (average_reference img)) = false /\
  is_finite (chan c (calibrate (average_reference img))) = false.
Proof.
  intros Hc Hn Ht.
  pose proof (black_channel_average img c Hc Hn Ht) as E.
  split; [exact E|]. split; [rewrite E; reflexivity|].
  unfold calibrate. rewrite !chan_map3, E.
  change (1 / 0) with infinity. apply infinity_div_not_finite.
Qed.

Lemma black_channel_factor_witness :
  countable [(x00, x80, xff); (x00, x10, xf0)] /\
  chan Red (average_reference [(x00, x80, xff); (x00, x10, xf0)]) = 0 /\
  invertible (chan Red (average_reference [(x00, x80, xff); (x00, x10, xf0)]))
  = false /\
  is_finite
    (chan Red (calibrate (average_reference
                            [(x00, x80, xff); (x00, x10, xf0)]))) = false.
Proof.
  split; [unfold countable; cbn; lia|].
  apply (black_channel_factor [(x00, x80, xff); (x00, x10, xf0)] Red);
    [unfold countable; cbn; lia|cbn; lia|reflexivity].
Defined.

Lemma lit_reference_invertible_witness :
  countable [(x01, x80, xff); (x00, x10, xf0)] /\
  invertible (chan Red (average_reference [(x01, x80, xff); (x00, x10, xf0)]))
  = true /\
  (chan Red (average_reference [(x01, x80, xff); (x00, x10, xf0)]) <=? 1)
  = true.
Proof.
  split; [unfold countable; cbn; lia|].
  apply (lit_reference_invertible [(x01, x80, xff); (x00, x10, xf0)] Red);
    [unfold countable; cbn; lia|cbn; lia].
Defined.

(** ** The average colour of an image *)

Section UnitRange.

Lemma unit_byte (b : byte) :
  nonneg (Prim2SF (float_of_byte b / 255)) = true /\
  (float_of_byte b / 255 <=? 1) = true.
Proof. destruct b; vm_compute; split; reflexivity. Qed.

Lemma chan_fold_add (rows : list triple) : forall (acc : triple) (c : channel),
  chan c (fold_left (zip3 add) rows acc)
  = fold_left add (map (chan c) rows) (chan c acc).
Proof.
  induction rows as [|r rows IH]; intros acc c; [reflexivity|].
  cbn [fold_left map]. rewrite IH, chan_zip3. reflexivity.
Qed.

(** A sum of [n] floats in [0, 1] is at most [n]. *)
Lemma fold_add_bound (xs : list float) :
  (forall x, In x xs -> nonneg (Prim2SF x) = true /\ (x <=? 1) = true) ->
  forall (acc : float) (k : nat),
    nonneg (Prim2SF acc) = true -> (acc <=? float_of_nat k) = true ->
    (Z.of_nat (k + List.length xs) < 2 ^ 53)%Z ->
    nonneg (Prim2SF (fold_left add xs acc)) = true /\
    (fold_left add xs acc <=? float_of_nat (k + List.length xs)) = true.
Proof.
  induction xs as [|x xs IH]; intros Hx acc k Na Ha Hb.
  - cbn [fold_left List.length]. rewrite Nat.add_0_r. auto.
  - cbn [fold_left List.length] in *.
    destruct (Hx x (or_introl eq_refl)) as [Nx Lx].
    assert (Hs : (acc + x <=? float_of_nat (k + 1)) = true).
    { rewrite <- float_of_nat_add by lia.
      apply add_nonneg_mono; try assumption;
        try (apply float_of_nat_nonneg; lia); reflexivity. }
    assert (Ns : nonneg (Prim2SF (acc + x)) = true).
    { apply (add_nonneg_closed acc x (float_of_nat (k + 1)));
        try assumption.
      apply float_of_nat_pos; lia. }
    replace (k + S (List.length xs))%nat
      with ((k + 1) + List.length xs)%nat by lia.
    apply IH; try assumption; [|lia].
    intros y Hy. apply Hx. right. exact Hy.
Qed.

Lemma mean_unit (s : float) (n : nat) :
  nonneg (Prim2SF s) = true -> (s <=? float_of_nat n) = true ->
  (0 < n)%nat -> (Z.of_nat n < 2 ^ 53)%Z ->
  nonneg (Prim2SF (s / float_of_nat n)) = true /\
  (s / float_of_nat n <=? 1) = true.
Proof.
  intros Ns Hs Hn Hb.
  destruct (float_of_nat_pos n Hn Hb) as [Pn Fn].
  destruct (nonneg_cases s Ns) as [->|[Ps Fs]].
  - rewrite zero_div by assumption. split; reflexivity.
  - assert (H1 : (s / float_of_nat n <=? 1) = true).
    { rewrite <- (div_self (float_of_nat n) Pn Fn).
      apply div_le_num; assumption. }
    split; [|exact H1].
    apply (div_nonneg_closed s (float_of_nat n) 1); try assumption.
    reflexivity.
Qed.

Lemma normalized_chan (img : image) (c : channel) (x : float) :
  In x (map (chan c) (normalized img)) ->
  nonneg (Prim2SF x) = true /\ (x <=? 1) = true.
Proof.
  unfold normalized. rewrite map_map. intros H.
  apply in_map_iff in H. destruct H as [[[r g] b] [<- _]].
  rewrite chan_map3. destruct c; apply unit_byte.
Qed.

Lemma mean_normalized_chan (img : image) (c : channel) :
  (0 < List.length img)%nat -> (Z.of_nat (List.length img) < 2 ^ 53)%Z ->
  nonneg (Prim2SF (chan c (mean_axis0 (normalized img)))) = true /\
  (chan c (mean_axis0 (normalized img)) <=? 1) = true.
Proof.
  intros Hn Hb. unfold mean_axis0, sum_axis0.
  rewrite chan_map3, chan_fold_add.
  assert (Hl : List.length (normalized img) = List.length img)
    by (unfold normalized; apply length_map).
  rewrite Hl.
  destruct (fold_add_bound (map (chan c) (normalized img))
              (normalized_chan img c) (chan c (0, 0, 0)) 0) as [Ns Hs].
  - destruct c; reflexivity.
  - destruct c; reflexivity.
  - rewrite length_map, Hl. cbn [Nat.add]. exact Hb.
  - rewrite length_map, Hl in Hs. cbn [Nat.add] in Hs.
    apply mean_unit; assumption.
Qed.

Lemma mean_normalized_unit (img : image) :
  (0 < List.length img)%nat -> (Z.of_nat (List.length img) < 2 ^ 53)%Z ->
  unit_range (mean_axis0 (normalized img)) = true.
Proof.
  intros Hn Hb.
  destruct (mean_normalized_chan img Red Hn Hb) as [Nr Lr].
  destruct (mean_normalized_chan img Green Hn Hb) as [Ng Lg].
  destruct (mean_normalized_chan img Blue Hn Hb) as [Nb Lb].
  apply nonneg_leb in Nr, Ng, Nb.
  destruct (mean_axis0 (normalized img)) as [[r g] b].
  cbn [chan] in *. unfold unit_range.
  rewrite Nr, Lr, Ng, Lg, Nb, Lb. reflexivity.
Qed.

End UnitRange.

(* ================================================================== *)
(** * The analysis of an image *)
(* ================================================================== *)

Lemma load_image_success (w : world) (p : string) (a : analyzer)
    (img : image) :
  path_exists w p = true ->
  supported_format (lower (splitext_ext p)) = true ->
  image_open w p = Some img ->
  load_image w p a = (true, set_image p img a).
Proof.
  intros He Hf Ho. unfold load_image. rewrite He, Hf, Ho. reflexivity.
Qed.

Lemma calculate_average_rgb_plain (wb : bool) (a : analyzer) (img : image) :
  image_array a = Some img -> corrects wb a = false ->
  calculate_average_rgb wb a
  = (Some (mean_axis0 (normalized img)),
     set_corrected_rgb (mean_axis0 (normalized img))
       (set_avg_rgb (mean_axis0 (normalized img)) a)).
Proof.
  intros Hi Hc. unfold calculate_average_rgb. rewrite Hi.
  cbv zeta. cbn [set_avg_rgb white_balance_factors]. unfold corrects in Hc.
  rewrite Hc. reflexivity.
Qed.

Lemma calculate_average_rgb_corrected (a : analyzer) (img : image)
    (factors : triple) :
  image_array a = Some img -> white_balance_factors a = Some factors ->
  calculate_average_rgb true a
  = (let avg := mean_axis0 (normalized img) in
     let corrected := map3 (fun c => np_clip c 0 1) (zip3 mul avg factors) in
     (Some corrected, set_corrected_rgb corrected (set_avg_rgb avg a))).
Proof.
  intros Hi Hf. unfold calculate_average_rgb, apply_white_balance.
  rewrite Hi. cbv zeta. cbn [set_avg_rgb white_balance_factors].
  rewrite Hf. reflexivity.
Qed.

(** X11: The average colour [calculate_average_rgb] stores for an image that is
    not empty has every channel in [0, 1], and it is the value returned
    when no correction applies. *)
Theorem average_rgb_unit_range (wb : bool) (a : analyzer) (img : image) :
  image_array a = Some img ->
  (0 < List.length img)%nat -> (Z.of_nat (List.length img) < 2 ^ 53)%Z ->
  exists avg,
    avg_rgb (snd (calculate_average_rgb wb a)) = Some avg /\
    unit_range avg = true /\
    (corrects wb a = false ->
     fst (calculate_average_rgb wb a) = Some avg /\
     corrected_rgb (snd (calculate_average_rgb wb a)) = Some avg).
Proof.
  intros Hi Hn Hb. exists (mean_axis0 (normalized img)).
  split; [|split].
  - unfold calculate_average_rgb. rewrite Hi.
    match goal with
    | |- context [if ?c then _ else _] => destruct c; reflexivity
    end.
  - apply mean_normalized_unit; assumption.
  - intros Hc. rewrite (calculate_average_rgb_plain wb a img Hi Hc).
    split; reflexivity.
Qed.

Lemma average_rgb_unit_range_witness :
  image_array (set_image "a.png" [(x10, x80, xff); (x20, x00, xf0)] init)
  = Some [(x10, x80, xff); (x20, x00, xf0)] /\
  exists avg,
    avg_rgb (snd (calculate_average_rgb true
                    (set_image "a.png" [(x10, x80, xff); (x20, x00, xf0)]
                       init))) = Some avg /\
    unit_range avg = true /\
    (corrects true (set_image "a.png" [(x10, x80, xff); (x20, x00, xf0)] init)
     = false ->
     fst (calculate_average_rgb true
            (set_image "a.png" [(x10, x80, xff); (x20, x00, xf0)] init))
     = Some avg /\
     corrected_rgb
       (snd (calculate_average_rgb true
               (set_image "a.png" [(x10, x80, xff); (x20, x00, xf0)] init)))
     = Some avg).
Proof.
  split; [reflexivity|].
  apply (average_rgb_unit_range true
           (set_image "a.png" [(x10, x80, xff); (x20, x00, xf0)] init)
           [(x10, x80, xff); (x20, x00, xf0)]);
    [reflexivity|cbn; lia|cbn; lia].
Defined.

(** X12: Correcting with the factors (1, 1, 1), those of a white reference,
    changes nothing: the corrected colour is the average colour. *)
Theorem white_reference_changes_nothing (a : analyzer) (img : image) :
  image_array a = Some img -> white_balance_factors a = Some (1, 1, 1) ->
  (0 < List.length img)%nat -> (Z.of_nat (List.length img) < 2 ^ 53)%Z ->
  fst (calculate_average_rgb true a) = Some (mean_axis0 (normalized img)) /\
  avg_rgb (snd (calculate_average_rgb true a))
  = Some (mean_axis0 (normalized img)) /\
  corrected_rgb (snd (calculate_average_rgb true a))
  = Some (mean_axis0 (normalized img)).
Proof.
  intros Hi Hf Hn Hb.
  rewrite (calculate_average_rgb_corrected a img (1, 1, 1) Hi Hf).
  cbv zeta. cbn [fst snd set_corrected_rgb set_avg_rgb avg_rgb corrected_rgb].
  assert (E : map3 (fun c => np_clip c 0 1)
                (zip3 mul (mean_axis0 (normalized img)) (1, 1, 1))
              = mean_axis0 (normalized img)).
  { apply triple_ext. intros c. rewrite chan_map3, chan_zip3.
    replace (chan c (1, 1, 1)) with 1 by (destruct c; reflexivity).
    rewrite mul_one.
    destruct (mean_normalized_chan img c Hn Hb) as [N L].
    apply np_clip_id; assumption. }
  rewrite E. repeat split; reflexivity.
Qed.

Lemma white_reference_changes_nothing_witness :
  image_array
    (set_image "a.png" [(x10, x80, xff); (x20, x00, xf0)]
       (set_white_reference "white.png" (1, 1, 1) (1, 1, 1) init))
  = Some [(x10, x80, xff); (x20, x00, xf0)] /\
  fst (calculate_average_rgb true
         (set_image "a.png" [(x10, x80, xff); (x20, x00, xf0)]
            (set_white_reference "white.png" (1, 1, 1) (1, 1, 1) init)))
  = Some (mean_axis0 (normalized [(x10, x80, xff); (x20, x00, xf0)])).
Proof.
  split; [reflexivity|].
  apply (white_reference_changes_nothing
           (set_image "a.png" [(x10, x80, xff); (x20, x00, xf0)]
              (set_white_reference "white.png" (1, 1, 1) (1, 1, 1) init))
           [(x10, x80, xff); (x20, x00, xf0)]);
    [reflexivity|reflexivity|cbn; lia|cbn; lia].
Defined.

(** ** Black and white images *)

Lemma normalized_repeat (p : pixel) (n : nat) :
  normalized (repeat p n)
  = repeat (map3 (fun c => c / 255) (pixel_to_float p)) n.
Proof. unfold normalized. apply map_repeat. Qed.

Lemma fold_zeros (n : nat) :
  fold_left (zip3 add) (repeat (0, 0, 0) n) (0, 0, 0) = (0, 0, 0).
Proof.
  induction n as [|n IH]; [reflexivity|].
  cbn [repeat fold_left].
  change (zip3 add (0, 0, 0) (0, 0, 0)) with (0, 0, 0). exact IH.
Qed.

Lemma fold_ones (n : nat) : forall k : nat,
  (Z.of_nat (k + n) < 2 ^ 53)%Z ->
  fold_left (zip3 add) (repeat (1, 1, 1) n)
            (float_of_nat k, float_of_nat k, float_of_nat k)
  = (float_of_nat (k + n), float_of_nat (k + n), float_of_nat (k + n)).
Proof.
  induction n as [|n IH]; intros k Hb.
  - rewrite Nat.add_0_r. reflexivity.
  - cbn [repeat fold_left zip3].
    change 1 with (float_of_nat 1).
    rewrite float_of_nat_add by lia.
    rewrite IH by lia.
    replace (k + 1 + n)%nat with (k + S n)%nat by lia. reflexivity.
Qed.

Lemma mean_black (n : nat) :
  (0 < n)%nat -> (Z.of_nat n < 2 ^ 53)%Z ->
  mean_axis0 (normalized (repeat black n)) = (0, 0, 0).
Proof.
  intros Hn Hb. rewrite normalized_repeat.
  change (map3 (fun c => c / 255) (pixel_to_float black)) with (0, 0, 0).
  unfold mean_axis0, sum_axis0. rewrite fold_zeros, repeat_length.
  destruct (float_of_nat_pos n Hn Hb) as [P F].
  cbn [map3]. rewrite zero_div by assumption. reflexivity.
Qed.

Lemma mean_white (n : nat) :
  (0 < n)%nat -> (Z.of_nat n < 2 ^ 53)%Z ->
  mean_axis0 (normalized (repeat white n)) = (1, 1, 1).
Proof.
  intros Hn Hb. rewrite normalized_repeat.
  change (map3 (fun c => c / 255) (pixel_to_float white)) with (1, 1, 1).
  unfold mean_axis0, sum_axis0.
  change (0, 0, 0) with (float_of_nat 0, float_of_nat 0, float_of_nat 0).
  rewrite fold_ones, repeat_length by (cbn [Nat.add]; exact Hb).
  destruct (float_of_nat_pos n Hn Hb) as [P F].
  cbn [map3 Nat.add]. rewrite div_self by assumption. reflexivity.
Qed.

(** Zero times a finite factor, clipped, is a zero, with the sign of the
    factor. *)
Lemma zero_mul_clip (f : float) :
  is_finite f = true -> np_clip (0 * f) 0 1 = 0 \/ np_clip (0 * f) 0 1 = -0.
Proof.
  intros H. apply is_finite_spec in H.
  assert (E : 0 * f = 0 \/ 0 * f = -0).
  { destruct (Prim2SF f) as [s|s| |s m e] eqn:Ef; try contradiction.
    - destruct s; [right|left]; apply Prim2SF_inj;
        rewrite FloatAxioms.mul_spec, Ef; reflexivity.
    - destruct s; [right|left]; apply Prim2SF_inj;
        rewrite FloatAxioms.mul_spec, Ef; reflexivity. }
  destruct E as [-> | ->]; [left|right]; reflexivity.
Qed.

Section Analysis.

Variable cpow : float -> float -> float.

Lemma analyze_image_loaded (w : world) (p : string) (wb : bool)
    (a a2 : analyzer) (img : image) (rgb xyz : triple) (t : option float) :
  path_exists w p = true ->
  supported_format (lower (splitext_ext p)) = true ->
  image_open w p = Some img ->
  calculate_average_rgb wb (set_image p img a) = (Some rgb, a2) ->
  rgb_to_xyz cpow NpFloat64 rgb = Ok xyz ->
  xyz_to_cct cpow NpFloat64 xyz = Ok t ->
  analyze_image cpow w p wb a
  = finish_analysis (Ok t) (set_color_temperature t a2).
Proof.
  intros He Hf Ho Hc Hx Ht. unfold analyze_image.
  rewrite (load_image_success w p a img He Hf Ho). cbn [negb].
  unfold analyze_color_temperature. cbn [set_image image_array].
  fold (set_image p img a). rewrite Hc, Hx, Ht. reflexivity.
Qed.

(** The average colour of a black image is zero, and corrected it is zero
    in every channel, with the sign of the factor. *)
Lemma black_average (wb : bool) (a : analyzer) (n : nat) :
  image_array a = Some (repeat black n) ->
  (0 < n)%nat -> (Z.of_nat n < 2 ^ 53)%Z ->
  (forall f c, white_balance_factors a = Some f ->
               is_finite (chan c f) = true) ->
  exists rgb,
    (forall c, chan c rgb = 0 \/ chan c rgb = -0) /\
    calculate_average_rgb wb a
    = (Some rgb, set_corrected_rgb rgb (set_avg_rgb (0, 0, 0) a)).
Proof.
  intros Hi Hn Hb Hfin.
  destruct (corrects wb a) eqn:Hc.
  - unfold corrects in Hc. apply andb_prop in Hc. destruct Hc as [-> Hs].
    destruct (white_balance_factors a) as [f|] eqn:Hf; [|discriminate Hs].
    rewrite (calculate_average_rgb_corrected a _ f Hi Hf).
    rewrite mean_black by assumption. cbv zeta.
    exists (map3 (fun c => np_clip c 0 1) (zip3 mul (0, 0, 0) f)).
    split; [|reflexivity].
    intros c. rewrite chan_map3, chan_zip3.
    replace (chan c (0, 0, 0)) with 0 by (destruct c; reflexivity).
    apply zero_mul_clip. apply (Hfin f c eq_refl).
  - rewrite (calculate_average_rgb_plain wb a _ Hi Hc).
    rewrite mean_black by assumption.
    exists (0, 0, 0). split; [|reflexivity].
    intros c. left. destruct c; reflexivity.
Qed.

(** A colour of zeros, whatever their signs, has tristimulus values that
    add up to zero, so it has no temperature. *)
Lemma zeros_no_temperature (rgb : triple) :
  (forall c, chan c rgb = 0 \/ chan c rgb = -0) ->
  exists xyz,
    rgb_to_xyz cpow NpFloat64 rgb = Ok xyz /\
    xyz_to_cct cpow NpFloat64 xyz = Ok None.
Proof.
  intros H. destruct rgb as [[r g] b].
  pose proof (H Red) as Hr. pose proof (H Green) as Hg.
  pose proof (H Blue) as Hb. cbn [chan] in Hr, Hg, Hb.
  destruct Hr as [-> | ->], Hg as [-> | ->], Hb as [-> | ->];
    eexists; split; reflexivity.
Qed.

End Analysis.

(** X13: A black image has no colour temperature: whatever its size, and whether
    or not finite correction factors are applied, [analyze_image] returns
    [None], no temperature is stored, and [get_analysis_results] answers
    with the error dictionary, also after an earlier analysis. *)
Theorem black_image_no_temperature (cpow : float -> float -> float)
    (w : world) (p : string) (wb : bool) (a : analyzer) (n : nat) :
  path_exists w p = true ->
  supported_format (lower (splitext_ext p)) = true ->
  image_open w p = Some (repeat black n) ->
  (0 < n)%nat -> (Z.of_nat n < 2 ^ 53)%Z ->
  (forall f c, white_balance_factors a = Some f ->
               is_finite (chan c f) = true) ->
  fst (analyze_image cpow w p wb a) = Ok None /\
  color_temperature (snd (analyze_image cpow w p wb a)) = None /\
  (forall inc,
      get_analysis_results inc (snd (analyze_image cpow w p wb a))
      = Ok (ErrorDict "Keine Analyse durchgeführt")).
Proof.
  intros He Hf Ho Hn Hb Hfin.
  destruct (black_average wb (set_image p (repeat black n) a) n
              eq_refl Hn Hb Hfin) as (rgb & Hz & Hc).
  destruct (zeros_no_temperature cpow rgb Hz) as (xyz & Hx & Ht).
  rewrite (analyze_image_loaded cpow w p wb a _ (repeat black n)
             rgb xyz None He Hf Ho Hc Hx Ht).
  split; [reflexivity|]. split; reflexivity.
Qed.

Lemma black_image_no_temperature_witness :
  path_exists (world_of [("night.png", repeat black 4)]) "night.png" = true /\
  fst (analyze_image product_pow (world_of [("night.png", repeat black 4)])
         "night.png" true calibrated) = Ok None /\
  color_temperature
    (snd (analyze_image product_pow (world_of [("night.png", repeat black 4)])
            "night.png" true calibrated)) = None /\
  (forall inc,
      get_analysis_results inc
        (snd (analyze_image product_pow
                (world_of [("night.png", repeat black 4)])
                "night.png" true calibrated))
      = Ok (ErrorDict "Keine Analyse durchgeführt")).
Proof.
  split; [reflexivity|].
  apply (black_image_no_temperature product_pow
           (world_of [("night.png", repeat black 4)]) "night.png" true
           calibrated 4); try reflexivity; try lia.
  intros f c H. injection H as <-. destruct c; reflexivity.
Defined.

Lemma white_average (wb : bool) (a : analyzer) (n : nat) :
  image_array a = Some (repeat white n) ->
  (0 < n)%nat -> (Z.of_nat n < 2 ^ 53)%Z ->
  (forall f, white_balance_factors a = Some f -> f = (1, 1, 1)) ->
  calculate_average_rgb wb a
  = (Some (1, 1, 1), set_corrected_rgb (1, 1, 1) (set_avg_rgb (1, 1, 1) a)).
Proof.
  intros Hi Hn Hb Hone.
  destruct (corrects wb a) eqn:Hc.
  - unfold corrects in Hc. apply andb_prop in Hc. destruct Hc as [-> Hs].
    destruct (white_balance_factors a) as [f|] eqn:Hf; [|discriminate Hs].
    rewrite (Hone f eq_refl) in Hf.
    rewrite (calculate_average_rgb_corrected a _ (1, 1, 1) Hi Hf).
    rewrite mean_white by assumption. reflexivity.
  - rewrite (calculate_average_rgb_plain wb a _ Hi Hc).
    rewrite mean_white by assumption. reflexivity.
Qed.

Section WhiteImage.

Variable cpow : float -> float -> float.
Hypothesis faithful : libm_pow_faithful cpow.

Lemma white_t_bounds : (6400 <=? (white_temperature cpow)) = true /\ ((white_temperature cpow) <=? 6600) = true.
Proof.
  destruct faithful as [_ [H2 H3]].
  destruct (mccamy_white_bounds _ _ (H3 white_n) (H2 white_n))
    as [_ [_ [Lo Hi]]].
  split; assumption.
Qed.

Lemma white_t_daylight :
  get_physical_light_description (white_temperature cpow)
  = "Tageslicht - direktes Sonnenlicht mittags" /\
  get_camera_wb_setting_description (white_temperature cpow)
  = "Kamera WB: ~3000-3500K (Leichte Kaltton-Korrektur)" /\
  calculate_inverse_wb_setting (white_temperature cpow) = 3200%Z.
Proof.
  destruct white_t_bounds as [Lo Hi].
  assert (below : forall c, (c <=? 6400) = true -> ((white_temperature cpow) <? c) = false)
    by (intros c Hc; exact (ltb_below c 6400 (white_temperature cpow) Hc Lo)).
  assert (below' : forall c, (c <? 6400) = true -> ((white_temperature cpow) <=? c) = false).
  { intros c Hc. apply ltb_leb_false. exact (ltb_leb_trans _ _ _ Hc Lo). }
  assert (H7 : ((white_temperature cpow) <? 7000) = true)
    by exact (leb_ltb_trans (white_temperature cpow) 6600 7000 Hi eq_refl).
  assert (H7' : ((white_temperature cpow) <=? 7000) = true)
    by exact (ltb_leb_incl _ _ H7).
  unfold get_physical_light_description, get_camera_wb_setting_description,
    calculate_inverse_wb_setting.
  rewrite !(below 2000 eq_refl), !(below 3000 eq_refl),
    !(below 4000 eq_refl), !(below 5000 eq_refl), !(below 6000 eq_refl),
    !H7.
  rewrite (below' 2000 eq_refl), (below' 3000 eq_refl),
    (below' 4000 eq_refl), (below' 5500 eq_refl), H7'.
  repeat split; reflexivity.
Qed.

Lemma white_analysis (w : world) (p : string) (wb : bool) (a : analyzer)
    (n : nat) :
  path_exists w p = true ->
  supported_format (lower (splitext_ext p)) = true ->
  image_open w p = Some (repeat white n) ->
  (0 < n)%nat -> (Z.of_nat n < 2 ^ 53)%Z ->
  (forall f, white_balance_factors a = Some f -> f = (1, 1, 1)) ->
  analyze_image cpow w p wb a
  = finish_analysis (Ok (Some (white_temperature cpow)))
      (set_color_temperature (Some (white_temperature cpow))
         (set_corrected_rgb (1, 1, 1)
            (set_avg_rgb (1, 1, 1) (set_image p (repeat white n) a)))).
Proof.
  intros He Hf Ho Hn Hb Hone.
  apply (analyze_image_loaded cpow w p wb a _ (repeat white n)
           (1, 1, 1) white_xyz (Some (white_temperature cpow)) He Hf Ho).
  - apply (white_average wb _ n); try assumption. reflexivity.
  - apply rgb_to_xyz_white. exact (proj1 faithful).
  - apply (xyz_to_cct_np cpow). reflexivity.
Qed.

End WhiteImage.

(** X14: A white image is daylight: whatever its size, and with no correction or
    that of a white reference, [analyze_image] returns a dictionary with a
    temperature between 6400 K and 6600 K, the colour (1, 1, 1), the light
    source "Tageslicht - direktes Sonnenlicht mittags" and the estimated
    camera setting 3200. *)
Theorem white_image_daylight (cpow : float -> float -> float) (w : world)
    (p : string) (wb : bool) (a : analyzer) (n : nat) :
  libm_pow_faithful cpow ->
  path_exists w p = true ->
  supported_format (lower (splitext_ext p)) = true ->
  image_open w p = Some (repeat white n) ->
  (0 < n)%nat -> (Z.of_nat n < 2 ^ 53)%Z ->
  coherent a = true ->
  (forall f, white_balance_factors a = Some f -> f = (1, 1, 1)) ->
  exists t d,
    fst (analyze_image cpow w p wb a) = Ok (Some (ResultsDict d)) /\
    color_temperature (snd (analyze_image cpow w p wb a)) = Some t /\
    (6400 <=? t) = true /\ (t <=? 6600) = true /\
    res_image_path d = Some p /\
    original_rgb d = (1, 1, 1) /\ analyzed_rgb d = (1, 1, 1) /\
    measured_kelvin d = rint t /\
    physical_light_source d = "Tageslicht - direktes Sonnenlicht mittags" /\
    estimated_camera_wb_setting d = 3200%Z /\
    camera_wb_description d
    = "Kamera WB: ~3000-3500K (Leichte Kaltton-Korrektur)".
Proof.
  intros Hp He Hf Ho Hn Hb Hco Hone.
  rewrite (white_analysis cpow Hp w p wb a n He Hf Ho Hn Hb Hone).
  destruct (white_t_bounds cpow Hp) as [Lo Hi].
  destruct (white_t_daylight cpow Hp) as [D1 [D2 D3]].
  exists (white_temperature cpow).
  apply coherent_spec in Hco. destruct Hco as [_ Hw].
  cbn [finish_analysis fst snd]. unfold get_analysis_results.
  cbn [set_color_temperature set_corrected_rgb set_avg_rgb set_image
       color_temperature avg_rgb corrected_rgb white_balance_factors
       white_reference_rgb white_reference_path image_path subscript bind
       andb].
  rewrite D1, D2, D3.
  destruct (white_balance_factors a) as [f|]; cbn [is_some].
  - specialize (Hw eq_refl).
    destruct (white_reference_rgb a) as [r|]; [|discriminate Hw].
    cbn [subscript bind]. eexists.
    split; [reflexivity|]. cbn. repeat split; assumption.
  - eexists. split; [reflexivity|]. cbn. repeat split; assumption.
Qed.

Lemma white_image_daylight_witness :
  libm_pow_faithful product_pow /\
  exists t d,
    fst (analyze_image product_pow session_world "white.png" true calibrated)
    = Ok (Some (ResultsDict d)) /\
    color_temperature
      (snd (analyze_image product_pow session_world "white.png" true
              calibrated)) = Some t /\
    (6400 <=? t) = true /\ (t <=? 6600) = true /\
    res_image_path d = Some "white.png" /\
    original_rgb d = (1, 1, 1) /\ analyzed_rgb d = (1, 1, 1) /\
    measured_kelvin d = rint t /\
    physical_light_source d = "Tageslicht - direktes Sonnenlicht mittags" /\
    estimated_camera_wb_setting d = 3200%Z /\
    camera_wb_description d
    = "Kamera WB: ~3000-3500K (Leichte Kaltton-Korrektur)".
Proof.
  split; [exact product_pow_faithful|].
  apply (white_image_daylight product_pow session_world "white.png" true
           calibrated 1 product_pow_faithful);
    try reflexivity; try lia.
  intros f H. injection H as <-. reflexivity.
Defined.

(** ** The reference the program creates *)



Section Neutral.

Variable cpow : float -> float -> float.


End Neutral.



(** ** Correcting with a reference that has no black channel *)

Lemma nonneg_is_finite (x : float) :
  nonneg (Prim2SF x) = true -> is_finite x = true.
Proof.
  intros H. unfold is_finite, is_infinity.
  assert (Hn : is_nan x = false).
  { apply not_true_is_false. intros E. apply is_nan_spec in E.
    rewrite E in H. discriminate H. }
  rewrite Hn, eqb_spec, abs_spec.
  destruct (Prim2SF x) as [[|]|s| |[|] m e]; try discriminate H; reflexivity.
Qed.

(** The correction factors of an invertible reference colour with channels
    at most one are finite. *)
Lemma calibrate_finite (rgb : triple) (c : channel) :
  (forall c, invertible (chan c rgb) = true) ->
  (forall c, (chan c rgb <=? 1) = true) ->
  nonneg (Prim2SF (chan c (calibrate rgb))) = true.
Proof.
  intros Hinv Hle.
  set (U := map3 (fun x => 1 / x) rgb).
  assert (HU : forall c, (0 <? chan c U) = true /\ (chan c U <? infinity) = true).
  { intros c'. unfold U. rewrite chan_map3. apply invertible_reciprocal, Hinv. }
  assert (HU1 : forall c, (1 <=? chan c U) = true).
  { intros c'. unfold U. rewrite chan_map3.
    specialize (Hinv c'). unfold invertible in Hinv.
    apply andb_prop in Hinv. destruct Hinv as [Hinv _].
    apply andb_prop in Hinv. destruct Hinv as [P F].
    change (1 <=? 1 / chan c' rgb) with (1 / 1 <=? 1 / chan c' rgb).
    apply div_le_den; try reflexivity; try assumption. apply Hle. }
  assert (HUn : forall c, is_nan (chan c U) = false).
  { intros c'. destruct (HU c') as [H _]. apply (ltb_not_nan _ _ H). }
  destruct (np_min_spec U (HUn Red) (HUn Green) (HUn Blue)) as [[c0 Hm] _].
  assert (Hform : chan c (calibrate rgb) = chan c U / np_min U).
  { unfold calibrate. fold U. apply chan_map3. }
  rewrite Hform, Hm.
  destruct (HU c) as [Pc Fc]. destruct (HU c0) as [P0 F0].
  apply (div_nonneg_closed _ _ (chan c U)); try assumption.
  - apply nonneg_of_pos; assumption.
  - rewrite <- (div_one (chan c U)) at 2.
    apply div_le_den; try reflexivity; try assumption. apply HU1.
Qed.

(** X16: With a reference image in which no channel is black throughout, the
    stored correction factors are finite, and the corrected colour of every
    image that is not empty has all its channels in [0, 1]. *)
Theorem lit_reference_corrects_in_range (w : world) (ref : string)
    (a : analyzer) (rimg img : image) :
  path_exists w ref = true ->
  supported_format (lower (splitext_ext ref)) = true ->
  image_open w ref = Some rimg ->
  countable rimg -> (forall c, (0 < channel_total c rimg)%nat) ->
  image_array a = Some img ->
  (0 < List.length img)%nat -> (Z.of_nat (List.length img) < 2 ^ 53)%Z ->
  exists factors corrected,
    white_balance_factors (snd (load_white_reference w ref a)) = Some factors /\
    (forall c, is_finite (chan c factors) = true) /\
    fst (calculate_average_rgb true (snd (load_white_reference w ref a)))
    = Some corrected /\
    corrected_rgb
      (snd (calculate_average_rgb true (snd (load_white_reference w ref a))))
    = Some corrected /\
    unit_range corrected = true.
Proof.
  intros He Hf Ho Hc Hlit Hi Hn Hb.
  rewrite (load_white_reference_success w ref a rimg He Hf Ho). cbn [snd].
  set (rgb := average_reference rimg).
  set (a0 := set_white_reference ref rgb (calibrate rgb) a).
  assert (Hfac : forall c, nonneg (Prim2SF (chan c (calibrate rgb))) = true).
  { intros c. apply calibrate_finite.
    - intros c'. apply (lit_channel_invertible rimg c' Hc (Hlit c')).
    - intros c'. apply (lit_channel_invertible rimg c' Hc (Hlit c')). }
  exists (calibrate rgb).
  exists (map3 (fun c => np_clip c 0 1)
            (zip3 mul (mean_axis0 (normalized img)) (calibrate rgb))).
  split; [reflexivity|].
  split; [intros c; apply nonneg_is_finite, Hfac|].
  rewrite (calculate_average_rgb_corrected a0 img (calibrate rgb) Hi eq_refl).
  cbv zeta. split; [reflexivity|]. split; [reflexivity|].
  assert (R : forall c,
             (0 <=? np_clip (chan c (mean_axis0 (normalized img))
                             * chan c (calibrate rgb)) 0 1) = true /\
             (np_clip (chan c (mean_axis0 (normalized img))
                       * chan c (calibrate rgb)) 0 1 <=? 1) = true).
  { intros c. apply np_clip_range. apply mul_finite_not_nan.
    - apply nonneg_is_finite.
      apply (mean_normalized_chan img c Hn Hb).
    - apply nonneg_is_finite, Hfac. }
  destruct (R Red) as [R1 R2], (R Green) as [G1 G2], (R Blue) as [B1 B2].
  destruct (mean_axis0 (normalized img)) as [[x y] z].
  destruct (calibrate rgb) as [[f g] h].
  cbn [chan] in *. cbn [zip3 map3 unit_range].
  rewrite R1, R2, G1, G2, B1, B2. reflexivity.
Qed.

Lemma lit_reference_corrects_in_range_witness :
  countable [(x80, x80, xff)] /\
  exists factors corrected,
    white_balance_factors
      (snd (load_white_reference session_world "grey.png"
              (set_image "a.png" [(x10, x80, xff); (x20, x00, xf0)] init)))
    = Some factors /\
    (forall c, is_finite (chan c factors) = true) /\
    fst (calculate_average_rgb true
           (snd (load_white_reference session_world "grey.png"
                   (set_image "a.png" [(x10, x80, xff); (x20, x00, xf0)]
                      init))))
    = Some corrected /\
    corrected_rgb
      (snd (calculate_average_rgb true
              (snd (load_white_reference session_world "grey.png"
                      (set_image "a.png" [(x10, x80, xff); (x20, x00, xf0)]
                         init)))))
    = Some corrected /\
    unit_range corrected = true.
Proof.
  split; [unfold countable; cbn; lia|].
  apply (lit_reference_corrects_in_range session_world "grey.png"
           (set_image "a.png" [(x10, x80, xff); (x20, x00, xf0)] init)
           [(x80, x80, xff)] [(x10, x80, xff); (x20, x00, xf0)]);
    try reflexivity; try (unfold countable; cbn; lia); try (cbn; lia).
  intros c. destruct c; cbn; lia.
Defined.

(* ================================================================== *)
(** * Inverting the colours of an image *)
(* ================================================================== *)

Lemma invert_byte_value (b : byte) :
  Byte.to_N (invert_byte b) = (255 - Byte.to_N b)%N.
Proof. destruct b; reflexivity. Qed.

Lemma invert_byte_involutive (b : byte) : invert_byte (invert_byte b) = b.
Proof. destruct b; reflexivity. Qed.

Lemma invert_pixel_involutive (px : list byte) :
  invert_pixel (invert_pixel px) = px.
Proof.
  destruct px as [|a [|b [|c rest]]]; cbn;
    rewrite ?invert_byte_involutive; reflexivity.
Qed.

Lemma map_involutive {A : Type} (f : A -> A) (l : list A) :
  (forall x, f (f x) = x) -> map f (map f l) = l.
Proof.
  intros H. rewrite map_map. rewrite <- (map_id l) at 2.
  apply map_ext. exact H.
Qed.

Lemma invert_array_involutive (a : ndarray) :
  invert_array (invert_array a) = a.
Proof.
  destruct a as [rows|rows]; cbn [invert_array]; f_equal;
    apply map_involutive; intros row; apply map_involutive.
  - exact invert_byte_involutive.
  - exact invert_pixel_involutive.
Qed.

(** X17: In a pixel the first three channels are inverted and every further
    channel is kept: the alpha of an RGBA pixel is kept, that of a
    two-channel pixel (grey with alpha) is inverted with the grey. *)
Theorem invert_pixel_channels (px : list byte) (i : nat) :
  List.length (invert_pixel px) = List.length px /\
  nth_error (invert_pixel px) i
  = (if (i <? 3)%nat then option_map invert_byte (nth_error px i)
     else nth_error px i) /\
  (forall b, nth_error (invert_pixel px) i = Some b ->
     (i < 3)%nat ->
     exists b0, nth_error px i = Some b0 /\
                Byte.to_N b = (255 - Byte.to_N b0)%N).
Proof.
  assert (Hn : nth_error (invert_pixel px) i
               = (if (i <? 3)%nat then option_map invert_byte (nth_error px i)
                  else nth_error px i)).
  { destruct px as [|a [|b [|c rest]]];
      destruct i as [|[|[|i]]]; reflexivity. }
  split; [|split; [exact Hn|]].
  - unfold invert_pixel. rewrite length_app, length_map.
    rewrite <- (firstn_skipn 3 px) at 3. rewrite length_app. reflexivity.
  - intros b Hb Hi. rewrite Hn in Hb.
    apply Nat.ltb_lt in Hi. rewrite Hi in Hb.
    destruct (nth_error px i) as [b0|]; [|discriminate Hb].
    injection Hb as <-. exists b0. split; [reflexivity|].
    apply invert_byte_value.
Qed.

(** X18: Running the script on its own output restores the image: after two
    runs the second output decodes to the array of the first input. *)
Theorem invert_colors_twice (d d1 d2 : disk) (input output output2 : string) :
  invert_colors d input output = Some d1 ->
  invert_colors d1 output output2 = Some d2 ->
  disk_open d2 output2 = disk_open d input.
Proof.
  unfold invert_colors. intros H1 H2.
  destruct (disk_open d input) as [arr|]; [|discriminate H1].
  destruct (disk_save d output (invert_array arr)); [|discriminate H1].
  injection H1 as <-. cbn [disk_open disk_save] in H2.
  rewrite String.eqb_refl in H2.
  destruct (disk_save d output2 (invert_array (invert_array arr)));
    [|discriminate H2].
  injection H2 as <-. cbn [disk_open].
  rewrite String.eqb_refl, invert_array_involutive. reflexivity.
Qed.

Lemma invert_colors_twice_witness :
  exists d1 d2,
    invert_colors
      (disk_of [("input.png", Color [[[x10; x80; xff; x7f]; [x00; x01; x02; xff]]])])
      "input.png" "output_inverted.png" = Some d1 /\
    invert_colors d1 "output_inverted.png" "again.png" = Some d2 /\
    disk_open d1 "output_inverted.png"
    = Some (Color [[[xef; x7f; x00; x7f]; [xff; xfe; xfd; xff]]]) /\
    disk_open d2 "again.png"
    = disk_open
        (disk_of [("input.png",
                   Color [[[x10; x80; xff; x7f]; [x00; x01; x02; xff]]])])
        "input.png".
Proof.
  eexists. eexists.
  split; [reflexivity|]. split; [reflexivity|]. split; [reflexivity|].
  eapply (invert_colors_twice _ _ _ "input.png" "output_inverted.png"
            "again.png"); reflexivity.
Defined.

(* ================================================================== *)
(** * What the conversions can raise *)
(* ================================================================== *)

Section Exceptions.

Variable cpow : float -> float -> float.

(** A value above the threshold of the gamma law gives a base that is not
    negative. *)
Lemma gamma_base_not_negative (value : float) :
  (value <=? 0.04045) = false -> is_nan value = false ->
  ((value + 0.055) / 1.055 <? 0) = false.
Proof.
  intros Hle Hn.
  assert (Hgt : (0.04045 <? value) = true).
  { destruct (not_nan_total 0.04045 value eq_refl Hn) as [H|H];
      [exact H|congruence]. }
  assert (Hpos : (0 <? value) = true)
    by exact (ltb_leb_trans 0 0.04045 value eq_refl (ltb_leb_incl _ _ Hgt)).
  destruct (value <? infinity) eqn:Hfin.
  - assert (Nv : nonneg (Prim2SF value) = true)
      by (apply nonneg_of_pos; assumption).
    assert (Hs : (0.04045 + 0.055 <=? value + 0.055) = true).
    { apply add_nonneg_mono; try assumption; try reflexivity.
      apply ltb_leb_incl. exact Hgt. }
    assert (Ps : (0 <? value + 0.055) = true)
      by exact (ltb_leb_trans 0 (0.04045 + 0.055) _ eq_refl Hs).
    destruct (value + 0.055 <? infinity) eqn:Fs.
    + pose proof (div_le_num (0.04045 + 0.055) (value + 0.055) 1.055
                    eq_refl Fs eq_refl eq_refl Hs) as Hq.
      apply leb_ltb_false.
      exact (leb_trans 0 ((0.04045 + 0.055) / 1.055) _ eq_refl Hq).
    + assert (E : value + 0.055 = infinity).
      { apply Prim2SF_inj. rewrite ltb_spec in Ps, Fs.
        change (Prim2SF 0) with (S754_zero false) in Ps.
        change (Prim2SF infinity) with (S754_infinity false) in Fs |- *.
        destruct (Prim2SF (value + 0.055)) as [[|]|[|]| |[|] m e];
          try discriminate Ps; try discriminate Fs; reflexivity. }
      rewrite E. reflexivity.
  - assert (E : value = infinity).
    { apply Prim2SF_inj. rewrite ltb_spec in Hpos, Hfin.
      change (Prim2SF 0) with (S754_zero false) in Hpos.
      change (Prim2SF infinity) with (S754_infinity false) in Hfin |- *.
      destruct (Prim2SF value) as [[|]|[|]| |[|] m e];
        try discriminate Hpos; try discriminate Hfin; reflexivity. }
    rewrite E. reflexivity.
Qed.

Lemma power_py_raises (a b : float) (e : py_exn) :
  power cpow PyFloat a b = Raise e ->
  (e = ComplexResult /\ (a <? 0) = true /\ is_integer b = false) \/
  (e = OverflowError /\ is_infinity a = false /\
   is_infinity (cpow (abs a) b) = true).
Proof.
  unfold power.
  destruct (is_nan a); [discriminate|].
  destruct (is_infinity a); [discriminate|].
  destruct (a =? 0); [discriminate|].
  destruct (a <? 0) eqn:Hneg; cbn [andb].
  - destruct (is_integer b) eqn:Hint; cbn [negb].
    + destruct (abs a =? 1); [discriminate|].
      destruct (is_infinity (cpow (abs a) b)) eqn:Hi; [|discriminate].
      intros H. injection H as <-. right. auto.
    + intros H. injection H as <-. left. auto.
  - destruct (abs a =? 1); [discriminate|].
    destruct (is_infinity (cpow (abs a) b)) eqn:Hi; [|discriminate].
    intros H. injection H as <-. right. auto.
Qed.

Lemma gamma_correct_raises (value : float) (e : py_exn) :
  gamma_correct cpow PyFloat value = Raise e -> e = OverflowError.
Proof.
  unfold gamma_correct.
  destruct (value <=? 0.04045) eqn:Hle; [discriminate|].
  cbn [truediv]. change (1.055 =? 0) with false. cbn [bind].
  intros H. apply power_py_raises in H.
  destruct H as [[_ [Hneg _]]|[He _]]; [|exact He].
  exfalso. destruct (is_nan value) eqn:Hn.
  - apply is_nan_spec in Hn.
    assert (E : (value + 0.055) / 1.055 = nan).
    { apply Prim2SF_inj.
      rewrite FloatAxioms.div_spec, FloatAxioms.add_spec, Hn. reflexivity. }
    rewrite E in Hneg. discriminate Hneg.
  - rewrite (gamma_base_not_negative value Hle Hn) in Hneg.
    discriminate Hneg.
Qed.

End Exceptions.

(** X19: with builtin floats, [rgb_to_xyz] raises nothing but
    [OverflowError] (when the power of the gamma law overflows), and
    [xyz_to_cct] nothing but [ZeroDivisionError] and [OverflowError]: no
    input makes a base negative under the fractional exponent 2.4, and the
    exponents 2 and 3 are integers. *)
Theorem conversions_raise (cpow : float -> float -> float) (e : py_exn) :
  (forall rgb, rgb_to_xyz cpow PyFloat rgb = Raise e -> e = OverflowError) /\
  (forall xyz, xyz_to_cct cpow PyFloat xyz = Raise e ->
               e = ZeroDivisionError \/ e = OverflowError).
Proof.
  split.
  - intros [[r g] b]. unfold rgb_to_xyz.
    destruct (gamma_correct cpow PyFloat r) as [r'|er] eqn:Er;
      [|cbn [bind]; intros H; injection H as <-;
        exact (gamma_correct_raises cpow r er Er)].
    destruct (gamma_correct cpow PyFloat g) as [g'|eg] eqn:Eg;
      [|cbn [bind]; intros H; injection H as <-;
        exact (gamma_correct_raises cpow g eg Eg)].
    destruct (gamma_correct cpow PyFloat b) as [b'|eb] eqn:Eb;
      [|cbn [bind]; intros H; injection H as <-;
        exact (gamma_correct_raises cpow b eb Eb)].
    cbn [bind]. discriminate.
  - intros [[x y] z]. unfold xyz_to_cct.
    destruct (x + y + z =? 0) eqn:Hs; [discriminate|].
    rewrite !(truediv_nonzero PyFloat _ _ Hs). cbn [bind].
    cbn [truediv].
    destruct (0.1858 - y / (x + y + z) =? 0);
      [cbn [bind]; intros H; injection H as <-; left; reflexivity|].
    cbn [bind].
    set (n := (x / (x + y + z) - 0.3320) / (0.1858 - y / (x + y + z))).
    destruct (power cpow PyFloat n 3) as [n3|e3] eqn:E3.
    + cbn [bind].
      destruct (power cpow PyFloat n 2) as [n2|e2] eqn:E2;
        [discriminate|].
      cbn [bind]. intros H. injection H as <-.
      apply power_py_raises in E2.
      destruct E2 as [[_ [_ Hi]]|[He _]]; [discriminate Hi|right; exact He].
    + cbn [bind]. intros H. injection H as <-.
      apply power_py_raises in E3.
      destruct E3 as [[_ [_ Hi]]|[He _]]; [discriminate Hi|right; exact He].
Qed.
(* ================================================================== *)
(** * The workflow parser *)
(* ================================================================== *)

Lemma for_each_done {A : Type} (body : A -> attempt (list call)) (l : list A) :
  forall cs, for_each body l = Done cs ->
  forall c, In c cs <-> exists x cx, In x l /\ body x = Done cx /\ In c cx.
Proof.
  induction l as [|x rest IH]; intros cs H c.
  - injection H as <-. split; [intros []|intros (x & cx & [] & _)].
  - cbn in H. destruct (body x) as [cx|e] eqn:Hx; [|discriminate].
    destruct (for_each body rest) as [cr|e] eqn:Hr; [|discriminate].
    injection H as <-. rewrite in_app_iff, (IH cr eq_refl c). split.
    + intros [Hc|(y & cy & Hy & Hb & Hc)].
      * exists x, cx. repeat split; [left; reflexivity|assumption..].
      * exists y, cy. repeat split; [right; assumption|assumption..].
    + intros (y & cy & [<-|Hy] & Hb & Hc).
      * left. rewrite Hx in Hb. injection Hb as <-. assumption.
      * right. exists y, cy. repeat split; assumption.
Qed.

Lemma for_each_fails {A : Type} (body : A -> attempt (list call)) (l : list A)
    (x : A) (e : script_error) :
  In x l -> body x = Fails e -> exists e', for_each body l = Fails e'.
Proof.
  induction l as [|y rest IH]; intros Hin Hx; [destruct Hin|].
  cbn. destruct (body y) as [cy|ey] eqn:Hy; [|eexists; reflexivity].
  destruct Hin as [->|Hin]; [congruence|].
  destruct (IH Hin Hx) as [e' ->]. eexists; reflexivity.
Qed.

Lemma build_graph_done (data : json) (calls : list call) :
  build_graph data = Done calls ->
  exists node_items,
    nodes_of data node_items /\ for_each visit node_items = Done calls.
Proof.
  unfold build_graph, subscript_str, items. intros H.
  destruct data as [| | | | | |top]; try discriminate.
  destruct (lookup "nodes" top) as [nodes|] eqn:Hn; [|discriminate].
  destruct nodes as [| | | | | |node_items]; try discriminate.
  exists node_items. split; [exists top; split; [reflexivity|assumption]|assumption].
Qed.

Lemma nodes_of_unique (data : json) (l1 l2 : list (string * json)) :
  nodes_of data l1 -> nodes_of data l2 -> l1 = l2.
Proof.
  intros (t1 & E1 & H1) (t2 & E2 & H2). rewrite E1 in E2. injection E2 as <-.
  rewrite H1 in H2. injection H2 as <-. reflexivity.
Qed.

Lemma add_edge_done (u : json) (v : string) (cs : list call) :
  add_edge u v = Done cs -> cs = [AddEdge u v].
Proof. destruct u; cbn; intros H; try discriminate; injection H as <-; reflexivity. Qed.

Lemma link_done (v : string) (input_node : json) (cs : list call) (c : call) :
  link v input_node = Done cs -> In c cs ->
  exists u slot, input_node = JList [u; slot] /\ c = AddEdge u v.
Proof.
  unfold link. intros H Hc.
  destruct input_node as [| | | | |l|];
    try (injection H as <-; destruct Hc).
  destruct l as [|u [|slot [|]]]; try (injection H as <-; destruct Hc).
  apply add_edge_done in H. subst cs. destruct Hc as [<-|[]].
  exists u, slot. split; reflexivity.
Qed.

Lemma links_done (v : string) (input_list : json) (cs : list call) (c : call) :
  links v input_list = Done cs -> In c cs ->
  exists elements u slot,
    input_list = JList elements /\ In (JList [u; slot]) elements /\
    c = AddEdge u v.
Proof.
  unfold links. intros H Hc.
  destruct (iterate input_list) as [input_nodes|] eqn:Hi; [|discriminate].
  destruct (proj1 (for_each_done _ _ _ H c) Hc) as (x & cx & Hx & Hb & Hcx).
  destruct (link_done _ _ _ _ Hb Hcx) as (u & slot & -> & ->).
  destruct input_list as [| | | |s|l|d]; try discriminate;
    injection Hi as <-.
  - apply in_map_iff in Hx. destruct Hx as (a & Ha & _). discriminate.
  - exists l, u, slot. repeat split. assumption.
  - apply in_map_iff in Hx. destruct Hx as (a & Ha & _). discriminate.
Qed.

Lemma links_edge (v : string) (elements : list json) (u slot : json)
    (cs : list call) :
  links v (JList elements) = Done cs -> In (JList [u; slot]) elements ->
  In (AddEdge u v) cs.
Proof.
  unfold links. cbn [iterate]. intros H Hin.
  destruct (in_split _ _ Hin) as (l1 & l2 & ->).
  assert (Hb : exists cx, link v (JList [u; slot]) = Done cx).
  { clear Hin. revert cs H. induction l1 as [|y l1 IH]; intros cs H; cbn in H.
    - cbn. destruct (add_edge u v); [eexists; reflexivity|discriminate].
    - destruct (link v y); [|discriminate].
      destruct (for_each (link v) (l1 ++ JList [u; slot] :: l2)) eqn:Hr;
        [|discriminate].
      exact (IH _ eq_refl). }
  destruct Hb as [cx Hb].
  apply (for_each_done _ _ _ H). exists (JList [u; slot]), cx.
  repeat split; [assumption..|].
  cbn in Hb. apply add_edge_done in Hb. subst cx. left; reflexivity.
Qed.

Lemma for_each_each {A : Type} (body : A -> attempt (list call)) (l : list A)
    (cs : list call) (x : A) :
  for_each body l = Done cs -> In x l -> exists cx, body x = Done cx.
Proof.
  intros H Hin. destruct (body x) as [cx|e] eqn:Hx; [eexists; reflexivity|].
  destruct (for_each_fails _ _ _ _ Hin Hx) as [e' He]. congruence.
Qed.

Lemma visit_done (v : string) (node : json) (cs : list call) :
  visit (v, node) = Done cs ->
  exists label inputs edges,
    subscript_str node "class_type" = Done label /\
    get_inputs node = JDict inputs /\
    for_each (links v) (map snd inputs) = Done edges /\
    cs = AddNode v label :: edges.
Proof.
  unfold visit. intros H.
  destruct (subscript_str node "class_type") as [label|]; [|discriminate].
  destruct (get_inputs node) as [| | | | | |inputs]; try discriminate.
  cbn [values] in H.
  destruct (for_each (links v) (map snd inputs)) as [edges|] eqn:He;
    [|discriminate].
  injection H as <-. exists label, inputs, edges. repeat split. assumption.
Qed.

Lemma edge_iff_linked (data : json) (calls : list call) (u : json) (v : string) :
  build_graph data = Done calls ->
  In (AddEdge u v) calls <-> linked data u v.
Proof.
  intros H. destruct (build_graph_done _ _ H) as (node_items & Hn & Hf). split.
  - intros Hc.
    destruct (proj1 (for_each_done _ _ _ Hf _) Hc) as ([w node] & cx & Hx & Hb & Hcx).
    destruct (visit_done _ _ _ Hb) as (label & inputs & edges & Hl & Hi & He & ->).
    destruct Hcx as [Hcx|Hcx]; [discriminate|].
    destruct (proj1 (for_each_done _ _ _ He _) Hcx) as (il & ci & Hil & Hbi & Hci).
    destruct (links_done _ _ _ _ Hbi Hci) as (elements & u' & slot & -> & Hel & E).
    injection E as <- <-.
    apply in_map_iff in Hil. destruct Hil as ([name val] & Hv & Hil).
    cbn in Hv. subst val.
    exists node_items, node, inputs, name, elements, slot. repeat split; assumption.
  - intros (node_items' & node & inputs & name & elements & slot
            & Hn' & Hnode & Hi & Hin & Hel).
    rewrite <- (nodes_of_unique _ _ _ Hn Hn') in Hnode.
    destruct (for_each_each _ _ _ _ Hf Hnode) as [cx Hb].
    apply (for_each_done _ _ _ Hf). exists (v, node), cx.
    repeat split; [assumption..|].
    destruct (visit_done _ _ _ Hb) as (label & inputs' & edges & Hl & Hi' & He & ->).
    rewrite Hi in Hi'. injection Hi' as <-. right.
    assert (Hv : In (JList elements) (map snd inputs)).
    { apply in_map_iff. exists (name, JList elements). split; [reflexivity|assumption]. }
    destruct (for_each_each _ _ _ _ He Hv) as [ci Hci].
    apply (for_each_done _ _ _ He). exists (JList elements), ci.
    repeat split; [assumption..|].
    exact (links_edge _ _ _ _ _ Hci Hel).
Qed.

Lemma node_iff_labelled (data : json) (calls : list call) (n : string)
    (label : json) :
  build_graph data = Done calls ->
  In (AddNode n label) calls <->
  exists node_items node,
    nodes_of data node_items /\ In (n, node) node_items /\
    subscript_str node "class_type" = Done label.
Proof.
  intros H. destruct (build_graph_done _ _ H) as (node_items & Hn & Hf). split.
  - intros Hc.
    destruct (proj1 (for_each_done _ _ _ Hf _) Hc) as ([w node] & cx & Hx & Hb & Hcx).
    destruct (visit_done _ _ _ Hb) as (lab & inputs & edges & Hl & Hi & He & ->).
    destruct Hcx as [Hcx|Hcx].
    + injection Hcx as <- <-. exists node_items, node. repeat split; assumption.
    + destruct (proj1 (for_each_done _ _ _ He _) Hcx) as (il & ci & Hil & Hbi & Hci).
      destruct (links_done _ _ _ _ Hbi Hci) as (? & ? & ? & _ & _ & E).
      discriminate.
  - intros (node_items' & node & Hn' & Hnode & Hl).
    rewrite <- (nodes_of_unique _ _ _ Hn Hn') in Hnode.
    destruct (for_each_each _ _ _ _ Hf Hnode) as [cx Hb].
    apply (for_each_done _ _ _ Hf). exists (n, node), cx.
    repeat split; [assumption..|].
    destruct (visit_done _ _ _ Hb) as (lab & inputs & edges & Hl' & _ & _ & ->).
    rewrite Hl in Hl'. injection Hl' as <-. left; reflexivity.
Qed.

(** X20: when the script gets as far as drawing, it has added an edge from
    [u] to node [v] exactly when an input of node [v] is a list that holds
    a two-element list starting with [u].  A link written flat, as the
    input's value itself, adds no edge. *)
Theorem edges_are_nested_links (data : json) (calls : list call)
    (u : json) (v : string) :
  build_graph data = Done calls ->
  In (AddEdge u v) calls <-> linked data u v.
Proof. exact (edge_iff_linked data calls u v). Qed.

Lemma edges_are_nested_links_witness :
  build_graph sample_workflow =
    Done [AddNode "4" (JStr "CheckpointLoaderSimple");
          AddNode "3" (JStr "KSampler"); AddEdge (JStr "4") "3"] /\
  linked sample_workflow (JStr "4") "3" /\
  ~ linked sample_workflow (JStr "4") "4".
Proof.
  assert (H : build_graph sample_workflow =
    Done [AddNode "4" (JStr "CheckpointLoaderSimple");
          AddNode "3" (JStr "KSampler"); AddEdge (JStr "4") "3"])
    by reflexivity.
  split; [exact H|]. split.
  - apply (edges_are_nested_links _ _ (JStr "4") "3" H).
    right; right; left; reflexivity.
  - intros L. apply (edges_are_nested_links _ _ (JStr "4") "4" H) in L.
    destruct L as [L|[L|[L|[]]]]; discriminate.
Defined.

(** X21: when the script gets as far as drawing, the nodes it has labelled
    are the nodes of the file, each with its class_type, and every edge
    ends at one of them. *)
Theorem edges_end_at_file_nodes (data : json) (calls : list call) :
  build_graph data = Done calls ->
  (forall n label,
     In (AddNode n label) calls <->
     exists node_items node,
       nodes_of data node_items /\ In (n, node) node_items /\
       subscript_str node "class_type" = Done label) /\
  (forall u v, In (AddEdge u v) calls ->
     exists label, In (AddNode v label) calls).
Proof.
  intros H. split; [intros n label; exact (node_iff_labelled _ _ n label H)|].
  intros u v Hc.
  destruct (proj1 (edge_iff_linked _ _ u v H) Hc)
    as (node_items & node & inputs & name & elements & slot
        & Hn & Hnode & Hi & Hin & Hel).
  destruct (build_graph_done _ _ H) as (node_items' & Hn' & Hf).
  rewrite (nodes_of_unique _ _ _ Hn Hn') in Hnode.
  destruct (for_each_each _ _ _ _ Hf Hnode) as [cx Hb].
  destruct (visit_done _ _ _ Hb) as (label & _ & _ & Hl & _).
  exists label. apply (node_iff_labelled _ _ v label H).
  exists node_items', node. repeat split; assumption.
Qed.

Lemma edges_end_at_file_nodes_witness :
  exists label, In (AddNode "3" label)
    [AddNode "4" (JStr "CheckpointLoaderSimple");
     AddNode "3" (JStr "KSampler"); AddEdge (JStr "4") "3"].
Proof.
  exact (proj2 (edges_end_at_file_nodes sample_workflow _ eq_refl)
           (JStr "4") "3" (or_intror (or_intror (or_introl eq_refl)))).
Defined.

(** The source of an edge need not be a node of the file. *)
Example edge_from_nowhere :
  build_graph
    (JDict [("nodes", JDict [
       ("1", JDict [("class_type", JStr "SaveImage");
                    ("inputs", JDict [("images", JList [JList [JInt 7; JInt 0]])])])])])
  = Done [AddNode "1" (JStr "SaveImage"); AddEdge (JInt 7) "1"].
Proof. reflexivity. Qed.

Lemma visit_scalar_fails (n : string) (node : list (string * json))
    (inputs : list (string * json)) (name : string) (value : json) :
  lookup "inputs" node = Some (JDict inputs) ->
  In (name, value) inputs ->
  scalar value = true ->
  exists e, visit (n, JDict node) = Fails e.
Proof.
  intros Hi Hin Hs. unfold visit.
  destruct (subscript_str (JDict node) "class_type"); [|eexists; reflexivity].
  cbn [get_inputs]. rewrite Hi. cbn [values].
  assert (Hl : links n value = Fails Type_error)
    by (destruct value; try discriminate; reflexivity).
  assert (Hv : In value (map snd inputs))
    by (apply in_map_iff; exists (name, value); split; [reflexivity|assumption]).
  destruct (for_each_fails _ _ _ _ Hv Hl) as [e ->]. eexists; reflexivity.
Qed.

(** X22: a file in which some node has an input whose value is a number, a
    boolean or null never gets drawn: the script ends with an exception. *)
Theorem scalar_input_fails (data : json) (node_items : list (string * json))
    (n : string) (node inputs : list (string * json))
    (name : string) (value : json) :
  nodes_of data node_items ->
  In (n, JDict node) node_items ->
  lookup "inputs" node = Some (JDict inputs) ->
  In (name, value) inputs ->
  scalar value = true ->
  exists e, build_graph data = Fails e.
Proof.
  intros (top & -> & Hn) Hnode Hi Hin Hs.
  unfold build_graph, subscript_str. rewrite Hn. cbn [items].
  destruct (visit_scalar_fails n node inputs name value Hi Hin Hs) as [e He].
  exact (for_each_fails _ _ _ _ Hnode He).
Qed.

Lemma scalar_input_fails_witness :
  exists e, build_graph seeded_workflow = Fails e.
Proof.
  apply (scalar_input_fails seeded_workflow
           [("3", JDict [("class_type", JStr "KSampler");
                         ("inputs", JDict [("seed", JInt 42)])])]
           "3" [("class_type", JStr "KSampler");
                ("inputs", JDict [("seed", JInt 42)])]
           [("seed", JInt 42)] "seed" (JInt 42)).
  - exists [("nodes", JDict [
      ("3", JDict [("class_type", JStr "KSampler");
                   ("inputs", JDict [("seed", JInt 42)])])])].
    split; reflexivity.
  - left; reflexivity.
  - reflexivity.
  - left; reflexivity.
  - reflexivity.
Defined.
